(** * VoiceText: realtime audio transport, playback scheduling and session
      lifecycle

    A shallow embedding of [src/utils/audio.ts] and of the session logic of
    [src/App.tsx], followed by the properties of the specification that were
    checked against it.

    Conventions of the embedding.
    - A JavaScript string is the list of its UTF-16 code units, each a [Z].
    - A byte buffer ([ArrayBuffer], [Uint8Array]) is a list of [Z] in
      [0, 256).
    - Audio samples and clock readings are rationals.  Every finite float is a
      rational, and the products and quotients of [createPcmBlob] and
      [decodeAudioData] are exact on 32-bit float samples (a 24-bit mantissa
      times a 15-bit constant fits a double), so exact arithmetic is what the
      code computes there.  The resampler's index [i += ratio] is modelled
      with exact rationals as well; rounding of that accumulation is outside
      the model.
    - An exception is a value of [result]; [try {...} catch (e) {}] is a match
      that keeps the previous state. *)

From Stdlib Require Import String Ascii.
From Stdlib Require Import ZArith QArith Qround Qminmax Qabs Qpower List Bool Lia Lqa
  ZifyBool.
Import ListNotations.

Local Open Scope Z_scope.

(* ================================================================== *)
(** * JavaScript built-ins used by the sources *)
(* ================================================================== *)

Module JS.

(** UTF-16 code units. *)
Definition jsstring := list Z.

(** A string literal of the sources (ASCII only) as code units. *)
Fixpoint str (s : string) : jsstring :=
  match s with
  | EmptyString => []
  | String c r => Z.of_N (N_of_ascii c) :: str r
  end.

(** Truthiness of a string: only the empty string is falsy. *)
Definition truthy (s : jsstring) : bool :=
  match s with [] => false | _ :: _ => true end.

(** ECMAScript WhiteSpace and LineTerminator code units. *)
Definition isWhiteSpace (c : Z) : bool :=
  (c =? 9) || (c =? 10) || (c =? 11) || (c =? 12) || (c =? 13) ||
  (c =? 32) || (c =? 160) || (c =? 5760) ||
  ((8192 <=? c) && (c <=? 8202)) ||
  (c =? 8232) || (c =? 8233) || (c =? 8239) || (c =? 8287) ||
  (c =? 12288) || (c =? 65279).

Fixpoint trimStart (s : jsstring) : jsstring :=
  match s with
  | [] => []
  | c :: r => if isWhiteSpace c then trimStart r else s
  end.

Definition trimEnd (s : jsstring) : jsstring := rev (trimStart (rev s)).

(** [String.prototype.trim]. *)
Definition trim (s : jsstring) : jsstring := trimEnd (trimStart s).

(** Decimal digits of a [Decimal.uint], most significant first. *)
Fixpoint digits (u : Decimal.uint) : jsstring :=
  match u with
  | Decimal.Nil => []
  | Decimal.D0 r => 48 :: digits r
  | Decimal.D1 r => 49 :: digits r
  | Decimal.D2 r => 50 :: digits r
  | Decimal.D3 r => 51 :: digits r
  | Decimal.D4 r => 52 :: digits r
  | Decimal.D5 r => 53 :: digits r
  | Decimal.D6 r => 54 :: digits r
  | Decimal.D7 r => 55 :: digits r
  | Decimal.D8 r => 56 :: digits r
  | Decimal.D9 r => 57 :: digits r
  end.

(** [Number.prototype.toString] on a non-negative integer, as happens in
    [Date.now() + '-user']. *)
Definition numberToString (n : Z) : jsstring := digits (N.to_uint (Z.to_N n)).

(** Exceptions raised by the built-ins the sources call. *)
Inductive exn : Type :=
| InvalidCharacterError   (* btoa / atob *)
| RangeError              (* new Int16Array(buffer) on an odd byte length *)
| NotSupportedError       (* createBuffer with a zero length *)
| InvalidStateError.      (* stop() on a source node, see [App.stop] *)

Inductive result (A : Type) : Type :=
| Ok (a : A)
| Throw (e : exn).
Arguments Ok {A} a.
Arguments Throw {A} e.

Definition bind {A B} (r : result A) (k : A -> result B) : result B :=
  match r with
  | Ok a => k a
  | Throw e => Throw e
  end.

Definition isOk {A} (r : result A) : bool :=
  match r with Ok _ => true | Throw _ => false end.

(** ** Base64 ([btoa], [atob]) *)

(** The base64 alphabet: value to code unit. *)
Definition b64char (v : Z) : Z :=
  if v <? 26 then v + 65            (* 'A'..'Z' *)
  else if v <? 52 then v + 71       (* 'a'..'z' *)
  else if v <? 62 then v - 4        (* '0'..'9' *)
  else if v =? 62 then 43           (* '+' *)
  else 47.                          (* '/' *)

(** Code unit to value; [None] outside the alphabet. *)
Definition b64value (c : Z) : option Z :=
  if (65 <=? c) && (c <=? 90) then Some (c - 65)
  else if (97 <=? c) && (c <=? 122) then Some (c - 71)
  else if (48 <=? c) && (c <=? 57) then Some (c + 4)
  else if c =? 43 then Some 62
  else if c =? 47 then Some 63
  else None.

(** Three bytes become four 6-bit values; a tail of one or two bytes
    becomes two or three values, the missing bits being zero. *)
Fixpoint sextets (l : list Z) : list Z :=
  match l with
  | a :: b :: c :: r =>
      a / 4 :: (a mod 4) * 16 + b / 16 :: (b mod 16) * 4 + c / 64
        :: c mod 64 :: sextets r
  | [a; b] => [a / 4; (a mod 4) * 16 + b / 16; (b mod 16) * 4]
  | [a] => [a / 4; (a mod 4) * 16]
  | [] => []
  end.

(** The ['='] padding for an input of [n] bytes. *)
Definition padding (n : nat) : jsstring :=
  match (n mod 3)%nat with
  | 1%nat => [61; 61]
  | 2%nat => [61]
  | _ => []
  end.

(** [btoa]: throws [InvalidCharacterError] when a code unit is above 255. *)
Definition btoa (binary : jsstring) : result jsstring :=
  if forallb (fun c => c <=? 255) binary
  then Ok (map b64char (sextets binary) ++ padding (length binary))
  else Throw InvalidCharacterError.

Definition isAsciiWhitespace (c : Z) : bool :=
  (c =? 9) || (c =? 10) || (c =? 12) || (c =? 13) || (c =? 32).

(** Step 2 of forgiving-base64 decode: a trailing ['='] or ['=='] is
    removed (the caller applies it only to a length divisible by 4). *)
Fixpoint remove_padding (d : jsstring) : jsstring :=
  match d with
  | [] => []
  | c :: r =>
      match r with
      | [] => if c =? 61 then [] else [c]
      | [c2] => if (c =? 61) && (c2 =? 61) then [] else c :: remove_padding r
      | _ => c :: remove_padding r
      end
  end.

Fixpoint values (d : jsstring) : option (list Z) :=
  match d with
  | [] => Some []
  | c :: r =>
      match b64value c, values r with
      | Some v, Some vs => Some (v :: vs)
      | _, _ => None
      end
  end.

(** Four 6-bit values give three bytes; a tail of three values gives two
    bytes and a tail of two gives one (the spare low bits are dropped). *)
Fixpoint octets (l : list Z) : list Z :=
  match l with
  | a :: b :: c :: d :: r =>
      a * 4 + b / 16 :: (b mod 16) * 16 + c / 4 :: (c mod 4) * 64 + d
        :: octets r
  | [a; b; c] => [a * 4 + b / 16; (b mod 16) * 16 + c / 4]
  | [a; b] => [a * 4 + b / 16]
  | _ => []
  end.

(** [atob]: the forgiving-base64 decode of the HTML standard. *)
Definition atob (data : jsstring) : result jsstring :=
  let d := filter (fun c => negb (isAsciiWhitespace c)) data in
  let d := if (length d mod 4 =? 0)%nat then remove_padding d else d in
  if (length d mod 4 =? 1)%nat then Throw InvalidCharacterError
  else match values d with
       | None => Throw InvalidCharacterError
       | Some vs => Ok (octets vs)
       end.

(** Conversion of a finite number to a 16-bit signed integer, as done by a
    store into an [Int16Array]: truncate toward zero, then wrap. *)
Definition Qtruncate (q : Q) : Z :=
  if Qle_bool 0 q then Qfloor q else Qceiling q.

Definition wrap16 (n : Z) : Z :=
  let u := n mod 65536 in
  if u <? 32768 then u else u - 65536.

Definition ToInt16 (q : Q) : Z := wrap16 (Qtruncate q).

(** Strict comparison of two numbers. *)
Definition Qltb (x y : Q) : bool := negb (Qle_bool y x).

End JS.

Import JS.

(** ** Numbers *)

(** A JavaScript number is an IEEE 754 binary64.  A finite one is modelled by
    the rational it denotes, and an arithmetic operation by its exact result
    rounded to the nearest double, ties to even.  Overflow is left out: the
    operations below are applied to a sample rate, its quotient by 16000 and
    indices into a typed array, whose sums and quotients stay far below
    2^1024. *)
Module Float64.

Definition pow2 (e : Z) : Q := (2 ^ e)%Q.

(** The exponent [e] with [2^e <= |q| < 2^(e+1)], for [q] other than 0:
    the difference of the bit lengths of numerator and denominator, or one
    less. *)
Definition binade (q : Q) : Z :=
  let e := Z.log2 (Z.abs (Qnum q)) - Z.log2 (Zpos (Qden q)) in
  if Qle_bool (pow2 e) (Qabs q) then e else e - 1.

(** The nearest integer, a tie going to the even one. *)
Definition rne (y : Q) : Z :=
  let f := Qfloor y in
  match (y - inject_Z f ?= 1 # 2)%Q with
  | Lt => f
  | Gt => f + 1
  | Eq => if Z.even f then f else f + 1
  end.

(** The distance between neighbouring doubles around [q]: 53 significant
    bits in the binade of [q], and [2^-1074] below the normal range. *)
Definition ulp (q : Q) : Q := pow2 (Z.max (binade q) (-1022) - 52).

(** The double nearest to [q]. *)
Definition round (q : Q) : Q :=
  if Qeq_bool q 0 then 0%Q else (inject_Z (rne (q / ulp q)) * ulp q)%Q.

(** [x + y] and [x / y] on numbers. *)
Definition add (x y : Q) : Q := round (x + y).
Definition div (x y : Q) : Q := round (x / y).

End Float64.

(* ================================================================== *)
(** * src/utils/audio.ts *)
(* ================================================================== *)

(** ** [RecorderProcessor], the AudioWorklet of [AUDIO_WORKLET_CODE] *)

Module RecorderProcessor.

Definition bufferSize : nat := 2048.
Definition _targetSampleRate : Q := 16000.

(** The processor's fields, and the messages it posted on its port so far
    (oldest first).  The samples are 32-bit floats, which the processor
    only copies; the sample rate, the ratio and the loop index are
    numbers. *)
Record t : Type := mk {
  buffer : list Q;            (* Float32Array(bufferSize) *)
  bufferIndex : nat;
  posted : list (list Q)      (* this.port.postMessage(data) *)
}.

(** The constructor. *)
Definition init : t :=
  {| buffer := repeat 0%Q bufferSize; bufferIndex := 0; posted := [] |}.

(** A store [a[i] = v] into a typed array; out of range it does nothing. *)
Fixpoint store (a : list Q) (i : nat) (v : Q) : list Q :=
  match a, i with
  | [], _ => []
  | _ :: r, O => v :: r
  | x :: r, S j => x :: store r j v
  end.

(** [flush()]. *)
Definition flush (p : t) : t :=
  if (0 <? bufferIndex p)%nat then
    let data := firstn (bufferIndex p) (buffer p) in   (* slice(0, bufferIndex) *)
    {| buffer := buffer p; bufferIndex := 0; posted := posted p ++ [data] |}
  else p.

(** The body of the [for] loop, at index [i]. *)
Definition step (channelData : list Q) (i : Q) (p : t) : t :=
  let idx := Qfloor i in
  if idx <? Z.of_nat (length channelData) then
    let p1 := {| buffer := store (buffer p) (bufferIndex p)
                             (nth (Z.to_nat idx) channelData 0%Q);
                 bufferIndex := S (bufferIndex p);
                 posted := posted p |} in
    if (bufferSize <=? bufferIndex p1)%nat then flush p1 else p1
  else p.

(** [for (let i = ...; i < channelData.length; i += ratio)], started at
    [i]; [None] when [fuel] iterations were not enough to leave the loop.
    [i += ratio] is an addition of numbers, rounded each time. *)
Fixpoint loop (fuel : nat) (channelData : list Q) (ratio i : Q) (p : t)
  : option t :=
  if Qltb i (inject_Z (Z.of_nat (length channelData))) then
    match fuel with
    | O => None
    | S fuel' =>
        loop fuel' channelData ratio (Float64.add i ratio) (step channelData i p)
    end
  else Some p.

(** [process(inputs)], with the global [sampleRate] of the worklet scope.
    [inputs] is an array of inputs, an input an array of channels.  The loop
    is given one iteration per input sample, which suffices when
    [sampleRate >= 16000] and the block is no longer than a typed array
    can be. *)
Definition process (sampleRate : Q) (inputs : list (list (list Q))) (p : t)
  : option t :=
  match inputs with
  | [] => Some p                                   (* !input *)
  | input :: _ =>
      match input with
      | [] => Some p                               (* input.length === 0 *)
      | channelData :: _ =>
          let ratio := Float64.div sampleRate _targetSampleRate in
          loop (length channelData) channelData ratio 0%Q p
      end
  end.

(** Samples taken from the inputs so far: those posted in chunks and those
    waiting in the accumulation buffer. *)
Definition emitted (p : t) : nat :=
  (list_sum (map (@length Q) (posted p)) + bufferIndex p)%nat.

(** What holds of the fields between two calls of [process]. *)
Definition wf (p : t) : Prop :=
  length (buffer p) = bufferSize /\ (bufferIndex p < bufferSize)%nat.

End RecorderProcessor.

(** ** PCM encoding and decoding *)

Module Audio.

(** The [Blob] of [@google/genai]. *)
Record Blob : Type := mkBlob { data : jsstring; mimeType : jsstring }.

(** An [AudioBuffer] with one channel. *)
Record AudioBuffer : Type := mkAudioBuffer {
  sampleRate : Q;
  channelData : list Q
}.

(** [buffer.duration], in seconds. *)
Definition duration (b : AudioBuffer) : Q :=
  (inject_Z (Z.of_nat (length (channelData b))) / sampleRate b)%Q.

(** One sample of [createPcmBlob]:
    [s = Math.max(-1, Math.min(1, x)); int16[i] = s < 0 ? s * 0x8000 : s * 0x7FFF]. *)
Definition pcm16 (x : Q) : Z :=
  let s := Qmax (-1) (Qmin 1 x) in
  ToInt16 (if Qltb s 0 then s * 32768 else s * 32767)%Q.

(** The bytes of an [Int16Array]'s buffer (little-endian, as on every
    platform the page runs on). *)
Definition int16_bytes (v : Z) : list Z :=
  let u := v mod 65536 in [u mod 256; u / 256].

(** [String.fromCharCode(code)]: the code unit [code mod 2^16]. *)
Definition fromCharCode (code : Z) : Z := code mod 65536.

(** [binary += String.fromCharCode(bytes[i])] for each byte, then [btoa]. *)
Definition arrayBufferToBase64 (buffer : list Z) : result jsstring :=
  btoa (map fromCharCode buffer).

Definition createPcmBlob (samples : list Q) : result Blob :=
  let int16 := map pcm16 samples in
  bind (arrayBufferToBase64 (flat_map int16_bytes int16)) (fun base64 =>
  Ok {| data := base64; mimeType := str "audio/pcm;rate=16000" |}).

(** [bytes[i] = binaryString.charCodeAt(i)], a store into a [Uint8Array]. *)
Definition base64ToArrayBuffer (base64 : jsstring) : result (list Z) :=
  bind (atob base64) (fun binaryString =>
  Ok (map (fun c => c mod 256) binaryString)).

(** [new Int16Array(buffer)]: a [RangeError] unless the byte length is a
    multiple of 2. *)
Fixpoint int16_pairs (bytes : list Z) : list Z :=
  match bytes with
  | lo :: hi :: r => wrap16 (lo + 256 * hi) :: int16_pairs r
  | _ => []
  end.

Definition Int16Array (buffer : list Z) : result (list Z) :=
  if (length buffer mod 2 =? 0)%nat then Ok (int16_pairs buffer)
  else Throw RangeError.

(** The sample rates [createBuffer] accepts.  The Web Audio API leaves the
    range to the implementation but requires it to hold 8000 to 96000;
    the model accepts exactly the required range, so that a success in the
    model is a success in every browser. *)
Definition supportsRate (rate : Q) : bool :=
  Qle_bool 8000 rate && Qle_bool rate 96000.

(** [ctx.createBuffer(1, frameCount, sampleRate)]: the Web Audio API
    throws [NotSupportedError] for a length of no frame and for a sample
    rate that is zero, negative or outside the supported range. *)
Definition createBuffer (frameCount : nat) (rate : Q) : result unit :=
  if (frameCount =? 0)%nat then Throw NotSupportedError
  else if supportsRate rate then Ok tt
  else Throw NotSupportedError.

(** [decodeAudioData(base64Data, ctx, sampleRate)].  The function is
    [async] and contains no [await]: the promise it returns is settled,
    fulfilled with the buffer or rejected with the exception, when the call
    returns.  The [console.log] of the WAV text has no effect on the
    result. *)
Definition decodeAudioData (base64Data : jsstring) (rate : Q)
  : result AudioBuffer :=
  bind (base64ToArrayBuffer base64Data) (fun buffer =>
  bind (Int16Array buffer) (fun dataInt16 =>
  let frameCount := length dataInt16 in
  bind (createBuffer frameCount rate) (fun _ =>
  Ok {| sampleRate := rate;
        channelData := map (fun v => (inject_Z v / 32768)%Q) dataInt16 |}))).

End Audio.

(** ** The WAV rendering logged by [decodeAudioData] *)

Module Wav.

Import Audio.

Local Notation "x <- e ;; k" := (bind e (fun x => k))
  (at level 61, e at next level, right associativity).

(** The little-endian bytes of the low [8 * n] bits of [v]. *)
Fixpoint le (n : nat) (v : Z) : list Z :=
  match n with
  | O => []
  | S k => v mod 256 :: le k (v / 256)
  end.

(** A store of [bytes] at [offset] through a [DataView]: a [RangeError]
    when it does not fit the buffer. *)
Definition put (view : list Z) (offset : nat) (bytes : list Z)
  : result (list Z) :=
  if (offset + length bytes <=? length view)%nat
  then Ok (firstn offset view ++ bytes ++ skipn (offset + length bytes) view)
  else Throw RangeError.

(** [view.setUint8(offset, value)], and the 16- and 32-bit stores, all
    called with [littleEndian = true]. *)
Definition setUint8 (view : list Z) (offset : nat) (value : Z) :=
  put view offset (le 1 value).
Definition setUint16 (view : list Z) (offset : nat) (value : Z) :=
  put view offset (le 2 value).
Definition setUint32 (view : list Z) (offset : nat) (value : Z) :=
  put view offset (le 4 value).
Definition setInt16 (view : list Z) (offset : nat) (value : Q) :=
  put view offset (le 2 (ToInt16 value)).

(** [writeString(offset, str)]. *)
Fixpoint writeString (view : list Z) (offset : nat) (s : jsstring)
  : result (list Z) :=
  match s with
  | [] => Ok view
  | c :: r => view <- setUint8 view offset c ;; writeString view (S offset) r
  end.

(** The loop over [channelData], started at [offset]:
    [v = Math.max(-1, Math.min(1, channelData[i]));
     view.setInt16(offset, v < 0 ? v * 0x8000 : v * 0x7fff, true); offset += 2]. *)
Fixpoint writeSamples (view : list Z) (offset : nat) (samples : list Q)
  : result (list Z) :=
  match samples with
  | [] => Ok view
  | x :: r =>
      let v := Qmax (-1) (Qmin 1 x) in
      view <- setInt16 view offset
                (if Qltb v 0 then v * 32768 else v * 32767)%Q ;;
      writeSamples view (offset + 2) r
  end.

(** [audioBufferToWavArrayBuffer(buffer)], for the one-channel buffers
    [decodeAudioData] makes.  A number stored by [setUint32] is truncated
    to an integer first. *)
Definition audioBufferToWavArrayBuffer (buffer : AudioBuffer)
  : result (list Z) :=
  let numChannels := 1%nat in
  let rate := sampleRate buffer in
  let bitsPerSample := 16%nat in
  let format := 1 in
  let samples := length (channelData buffer) in
  let blockAlign := (numChannels * bitsPerSample / 8)%nat in
  let byteRate := (rate * inject_Z (Z.of_nat blockAlign))%Q in
  let dataSize := (samples * blockAlign)%nat in
  let headerSize := 44%nat in
  let totalSize := (headerSize + dataSize)%nat in
  let view := repeat 0 totalSize in
  view <- writeString view 0 (str "RIFF") ;;
  view <- setUint32 view 4 (Z.of_nat totalSize - 8) ;;
  view <- writeString view 8 (str "WAVE") ;;
  view <- writeString view 12 (str "fmt ") ;;
  view <- setUint32 view 16 16 ;;
  view <- setUint16 view 20 format ;;
  view <- setUint16 view 22 (Z.of_nat numChannels) ;;
  view <- setUint32 view 24 (Qtruncate rate) ;;
  view <- setUint32 view 28 (Qtruncate byteRate) ;;
  view <- setUint16 view 32 (Z.of_nat blockAlign) ;;
  view <- setUint16 view 34 (Z.of_nat bitsPerSample) ;;
  view <- writeString view 36 (str "data") ;;
  view <- setUint32 view 40 (Z.of_nat dataSize) ;;
  writeSamples view 44 (channelData buffer).

(** [audioBufferToWavBase64(buffer, withPrefix)]. *)
Definition audioBufferToWavBase64 (buffer : AudioBuffer) (withPrefix : bool)
  : result jsstring :=
  wavArrayBuffer <- audioBufferToWavArrayBuffer buffer ;;
  base64 <- arrayBufferToBase64 wavArrayBuffer ;;
  Ok (if withPrefix then str "data:audio/wav;base64," ++ base64 else base64).

(** [decodeAudioData] with its [console.log("Base64=" + ...)]: the buffer
    returned and the text logged. *)
Definition decodeAudioDataLogged (base64Data : jsstring) (rate : Q)
  : result (AudioBuffer * jsstring) :=
  buffer <- base64ToArrayBuffer base64Data ;;
  dataInt16 <- Int16Array buffer ;;
  let frameCount := length dataInt16 in
  _ <- createBuffer frameCount rate ;;
  let audioBuffer :=
    {| sampleRate := rate;
       channelData := map (fun v => (inject_Z v / 32768)%Q) dataInt16 |} in
  wav <- audioBufferToWavBase64 audioBuffer true ;;
  Ok (audioBuffer, str "Base64=" ++ wav).

End Wav.

(* ================================================================== *)
(** * src/types.ts and src/App.tsx *)
(* ================================================================== *)

Module App.

Import Audio.

Inductive ConnectionStatus : Type :=
| DISCONNECTED | CONNECTING | CONNECTED | ERROR.

Inductive Role : Type := user | model.

Record TranscriptItem : Type := mkItem {
  id : jsstring;
  role : Role;
  text : jsstring;
  image : option jsstring;
  isFinal : bool;
  timestamp : Z               (* a Date, in milliseconds *)
}.

Definition MAX_RETRIES : Z := 3.

(** [AudioContext.state]. *)
Inductive ContextState : Type := running | suspended | closed.

(** An [AudioBufferSourceNode] made by the playback path: the time given to
    [source.start], its buffer, and whether [stop()] was called on it. *)
Record SourceNode : Type := mkNode {
  startTime : Q;
  buffer : AudioBuffer;
  stopped : bool
}.

(** A pending [setTimeout]; its callback is always [startSession]. *)
Record Timer : Type := mkTimer { timerId : nat; delay : Z }.

(** Calls made on objects of the capture graph, which have no other state
    in the model. *)
Inductive Call : Type :=
| StopTracks (stream : nat)          (* getTracks().forEach(t => t.stop()) *)
| DisconnectWorklet (node : nat)     (* port.onmessage = null; disconnect() *)
| DisconnectSource (node : nat).     (* disconnect() *)

(** The state set with [useState]. *)
Record Ui : Type := mkUi {
  status : ConnectionStatus;
  transcripts : list TranscriptItem;
  currentInput : jsstring;
  currentOutput : jsstring;
  errorMsg : option jsstring
}.

(** The capture side and the session handle. *)
Record Capture : Type := mkCapture {
  globalAudioContextRef : option ContextState;
  sessionRef : option nat;
  mediaStreamRef : option nat;
  workletNodeRef : option nat;
  sourceNodeRef : option nat;
  calls : list Call
}.

(** The playback side.  [nodes] holds every source node created, in
    creation order; a node is named by its position there, and
    [audioSourcesRef], a JavaScript [Set], is the list of the names it
    holds in insertion order. *)
Record Playback : Type := mkPlayback {
  outputAudioContextRef : option ContextState;
  nextStartTimeRef : Q;
  audioSourcesRef : list nat;
  nodes : list SourceNode
}.

(** The text of the turn in progress, per direction. *)
Record Turn : Type := mkTurn {
  currentTurnInputRef : jsstring;
  currentTurnOutputRef : jsstring
}.

(** Reconnection: the ref to the last timer, the retry counter, the timers
    still pending and the number of [setTimeout] calls made so far (which
    is also the next timer's identifier). *)
Record Reconnect : Type := mkReconnect {
  reconnectTimeoutRef : option nat;
  retryCountRef : Z;
  timers : list Timer;
  timersSet : nat
}.

Record State : Type := mkState {
  ui : Ui;
  capture : Capture;
  playback : Playback;
  turn : Turn;
  reconnect : Reconnect
}.

(** The component when it mounts. *)
Definition initial : State :=
  {| ui := mkUi DISCONNECTED [] [] [] None;
     capture := mkCapture None None None None None [];
     playback := mkPlayback None 0%Q [] [];
     turn := mkTurn [] [];
     reconnect := mkReconnect None 0 [] 0 |}.

(** ** Output audio *)

(** [source.stop()].  Early implementations threw on a node already
    stopped; the sources guard against it with [try/catch]. *)
Definition stop (n : SourceNode) : result SourceNode :=
  if stopped n then Throw InvalidStateError
  else Ok (mkNode (startTime n) (buffer n) true).

Fixpoint update (ns : list SourceNode) (i : nat) (n : SourceNode)
  : list SourceNode :=
  match ns, i with
  | [], _ => []
  | _ :: r, O => n :: r
  | x :: r, S j => x :: update r j n
  end.

(** [try { source.stop(); } catch (e) {}] on the node named [i]. *)
Definition tryStop (ns : list SourceNode) (i : nat) : list SourceNode :=
  match nth_error ns i with
  | Some n => match stop n with
              | Ok n' => update ns i n'
              | Throw _ => ns
              end
  | None => ns
  end.

(** The three statements shared by [stopSession] (step 3) and the
    [interrupted] branch of [onMessageReceived]:
    [audioSourcesRef.current.forEach(source => { try { source.stop(); } catch (e) {} });
     audioSourcesRef.current.clear();
     nextStartTimeRef.current = 0;] *)
Definition stopOutputAudio (p : Playback) : Playback :=
  {| outputAudioContextRef := outputAudioContextRef p;
     nextStartTimeRef := 0%Q;
     audioSourcesRef := [];
     nodes := fold_left tryStop (audioSourcesRef p) (nodes p) |}.

(** [Set.prototype.add] and [Set.prototype.delete]. *)
Definition setAdd (i : nat) (s : list nat) : list nat :=
  if existsb (Nat.eqb i) s then s else s ++ [i].

Definition setDelete (i : nat) (s : list nat) : list nat :=
  filter (fun j => negb (Nat.eqb i j)) s.

(** The callback given to [decodeAudioData(...).then]: the node is
    created, started at [start] and added to the live set. *)
Definition scheduleBuffer (start : Q) (b : AudioBuffer) (p : Playback)
  : Playback :=
  {| outputAudioContextRef := outputAudioContextRef p;
     nextStartTimeRef := (start + duration b)%Q;
     audioSourcesRef := setAdd (length (nodes p)) (audioSourcesRef p);
     nodes := nodes p ++ [mkNode start b false] |}.

(** [source.onended]. *)
Definition onended (i : nat) (p : Playback) : Playback :=
  {| outputAudioContextRef := outputAudioContextRef p;
     nextStartTimeRef := nextStartTimeRef p;
     audioSourcesRef := setDelete i (audioSourcesRef p);
     nodes := nodes p |}.

(** The audio part of [onmessage] for the payload [base64Audio], with
    [currentTime] the reading of [ctx.currentTime].  The start time is
    computed in the handler; [decodeAudioData] has settled its promise by
    the time the handler returns, so the reaction, [scheduleBuffer] or
    [.catch(console.error)], runs at the end of the same task, before any
    other message is handled. *)
Definition playAudio (base64Audio : option jsstring) (currentTime : Q)
    (p : Playback) : Playback :=
  match base64Audio, outputAudioContextRef p with
  | Some b64, Some _ =>
      if truthy b64 then
        let start := Qmax (nextStartTimeRef p) currentTime in
        match decodeAudioData b64 24000 with
        | Ok b => scheduleBuffer start b p
        | Throw _ => p                        (* .catch(console.error) *)
        end
      else p
  | _, _ => p
  end.

(** ** [stopSession] *)

Definition clearTimer (r : Reconnect) : Reconnect :=
  match reconnectTimeoutRef r with
  | Some t =>
      {| reconnectTimeoutRef := None;
         retryCountRef := retryCountRef r;
         timers := filter (fun x => negb (Nat.eqb (timerId x) t)) (timers r);
         timersSet := timersSet r |}
  | None => r
  end.

Definition callIf (r : option nat) (f : nat -> Call) : list Call :=
  match r with Some x => [f x] | None => [] end.

(** Steps 1, 2, 4 and 5: the media stream, the worklet and source nodes,
    the capture context and the session ref.  The [suspend()] of a running
    context is taken to succeed. *)
Definition releaseCapture (c : Capture) : Capture :=
  {| globalAudioContextRef :=
       match globalAudioContextRef c with
       | Some running => Some suspended
       | other => other
       end;
     sessionRef := None;
     mediaStreamRef := None;
     workletNodeRef := None;
     sourceNodeRef := None;
     calls := calls c ++ callIf (mediaStreamRef c) StopTracks
                      ++ callIf (workletNodeRef c) DisconnectWorklet
                      ++ callIf (sourceNodeRef c) DisconnectSource |}.

(** A finalized turn, as the object literals of the sources build it. *)
Definition finalItem (now : Z) (suffix : string) (r : Role) (t : jsstring)
  : TranscriptItem :=
  {| id := numberToString now ++ str suffix; role := r; text := t;
     image := None; isFinal := true; timestamp := now |}.

(** The pending text saved by [stopSession]: the history after
    [if (pendingInput || pendingOutput) setTranscripts(prev => ...)]. *)
Definition savePending (now : Z) (t : Turn) (prev : list TranscriptItem)
  : list TranscriptItem :=
  let pendingInput := trim (currentTurnInputRef t) in
  let pendingOutput := trim (currentTurnOutputRef t) in
  if truthy pendingInput || truthy pendingOutput then
    let newItems := prev in
    let newItems :=
      if truthy pendingInput
      then newItems ++ [finalItem now "-saved-input" user pendingInput]
      else newItems in
    let newItems :=
      if truthy pendingOutput
      then newItems ++ [finalItem now "-saved-output" model pendingOutput]
      else newItems in
    newItems
  else prev.

(** [stopSession(fullDisconnect)], with [now] the reading of the clock, run
    to its end.  The function awaits [suspend()] when the capture context
    is running; [Live] below cuts it there and lets other events in. *)
Definition stopSession (fullDisconnect : bool) (now : Z) (s : State) : State :=
  {| ui := {| status := if fullDisconnect then DISCONNECTED else status (ui s);
              transcripts := savePending now (turn s) (transcripts (ui s));
              currentInput := [];
              currentOutput := [];
              errorMsg := errorMsg (ui s) |};
     capture := releaseCapture (capture s);
     playback := stopOutputAudio (playback s);
     turn := mkTurn [] [];
     reconnect := clearTimer (reconnect s) |}.

(** [handleDisconnect], the manual stop. *)
Definition handleDisconnect (now : Z) (s : State) : State :=
  stopSession true now
    {| ui := ui s; capture := capture s; playback := playback s;
       turn := turn s;
       reconnect := {| reconnectTimeoutRef := reconnectTimeoutRef (reconnect s);
                       retryCountRef := 0;
                       timers := timers (reconnect s);
                       timersSet := timersSet (reconnect s) |} |}.

(** ** [onMessageReceived] *)

(** The fields of a [LiveServerMessage] the handlers read:
    [serverContent?.inputTranscription?.text],
    [serverContent?.outputTranscription?.text],
    [serverContent?.turnComplete], [serverContent?.interrupted] and
    [serverContent?.modelTurn?.parts?.[0]?.inlineData?.data].  Messages
    carrying a tool call are outside this model: image generation is an
    external collaborator the handler awaits. *)
Record LiveServerMessage : Type := mkMessage {
  inputTranscription : option jsstring;
  outputTranscription : option jsstring;
  turnComplete : bool;
  interrupted : bool;
  inlineData : option jsstring
}.

Definition withUi (f : Ui -> Ui) (s : State) : State :=
  mkState (f (ui s)) (capture s) (playback s) (turn s) (reconnect s).
Definition withCapture (f : Capture -> Capture) (s : State) : State :=
  mkState (ui s) (f (capture s)) (playback s) (turn s) (reconnect s).
Definition withPlayback (f : Playback -> Playback) (s : State) : State :=
  mkState (ui s) (capture s) (f (playback s)) (turn s) (reconnect s).
Definition withTurn (f : Turn -> Turn) (s : State) : State :=
  mkState (ui s) (capture s) (playback s) (f (turn s)) (reconnect s).
Definition withReconnect (f : Reconnect -> Reconnect) (s : State) : State :=
  mkState (ui s) (capture s) (playback s) (turn s) (f (reconnect s)).

Definition setStatus (v : ConnectionStatus) (u : Ui) : Ui :=
  mkUi v (transcripts u) (currentInput u) (currentOutput u) (errorMsg u).
Definition setTranscripts (f : list TranscriptItem -> list TranscriptItem)
    (u : Ui) : Ui :=
  mkUi (status u) (f (transcripts u)) (currentInput u) (currentOutput u)
       (errorMsg u).
Definition setCurrentInput (v : jsstring) (u : Ui) : Ui :=
  mkUi (status u) (transcripts u) v (currentOutput u) (errorMsg u).
Definition setCurrentOutput (v : jsstring) (u : Ui) : Ui :=
  mkUi (status u) (transcripts u) (currentInput u) v (errorMsg u).
Definition setErrorMsg (v : option jsstring) (u : Ui) : Ui :=
  mkUi (status u) (transcripts u) (currentInput u) (currentOutput u) v.

Definition setTurnInput (v : jsstring) (t : Turn) : Turn :=
  mkTurn v (currentTurnOutputRef t).
Definition setTurnOutput (v : jsstring) (t : Turn) : Turn :=
  mkTurn (currentTurnInputRef t) v.

(** The streamed partial text is appended to its direction's buffer. *)
Definition receiveText (m : LiveServerMessage) (s : State) : State :=
  let s :=
    match inputTranscription m with
    | Some inputTxt =>
        if truthy inputTxt then
          let v := currentTurnInputRef (turn s) ++ inputTxt in
          withUi (setCurrentInput v) (withTurn (setTurnInput v) s)
        else s
    | None => s
    end in
  match outputTranscription m with
  | Some outputTxt =>
      if truthy outputTxt then
        let v := currentTurnOutputRef (turn s) ++ outputTxt in
        withUi (setCurrentOutput v) (withTurn (setTurnOutput v) s)
      else s
  | None => s
  end.

(** The [turnComplete] branch. *)
Definition completeTurn (now : Z) (s : State) : State :=
  let finalInput := trim (currentTurnInputRef (turn s)) in
  let finalOutput := trim (currentTurnOutputRef (turn s)) in
  let s :=
    if truthy finalInput then
      withUi (setCurrentInput [])
        (withTurn (setTurnInput [])
           (withUi (setTranscripts
                      (fun prev => prev ++ [finalItem now "-user" user finalInput]))
              s))
    else s in
  if truthy finalOutput then
    withUi (setCurrentOutput [])
      (withTurn (setTurnOutput [])
         (withUi (setTranscripts
                    (fun prev => prev ++ [finalItem now "-model" model finalOutput]))
            s))
  else s.

(** The [interrupted] branch. *)
Definition interrupt (s : State) : State :=
  withPlayback stopOutputAudio
    (withUi (setCurrentOutput []) (withTurn (setTurnOutput []) s)).

Definition onMessageReceived (m : LiveServerMessage) (now : Z) (s : State)
  : State :=
  let s := receiveText m s in
  let s := if turnComplete m then completeTurn now s else s in
  if interrupted m then interrupt s else s.

(** ** The callbacks installed by [startSession] *)

(** [onmessage]: the transcript handler, then the audio playback. *)
Definition onmessage (m : LiveServerMessage) (now : Z) (currentTime : Q)
    (s : State) : State :=
  withPlayback (playAudio (inlineData m) currentTime)
    (onMessageReceived m now s).

Definition setRetryCount (v : Z) (r : Reconnect) : Reconnect :=
  mkReconnect (reconnectTimeoutRef r) v (timers r) (timersSet r).

(** [reconnectTimeoutRef.current = setTimeout(() => startSession(), ms)]. *)
Definition setTimeout (ms : Z) (r : Reconnect) : Reconnect :=
  {| reconnectTimeoutRef := Some (timersSet r);
     retryCountRef := retryCountRef r;
     timers := timers r ++ [mkTimer (timersSet r) ms];
     timersSet := S (timersSet r) |}.

(** [onopen]; [sess] is the session the connect promise resolves to. *)
Definition onopen (sess : nat) (s : State) : State :=
  withReconnect (setRetryCount 0)
    (withCapture (fun c => mkCapture (globalAudioContextRef c) (Some sess)
                             (mediaStreamRef c) (workletNodeRef c)
                             (sourceNodeRef c) (calls c))
       (withUi (setStatus CONNECTED) s)).

(** [onclose]; [status] there is the value the closure of [startSession]
    captured when the component rendered. *)
Definition onclose (captured : ConnectionStatus) (now : Z) (s : State)
  : State :=
  match captured with
  | DISCONNECTED => s
  | _ => stopSession true now s
  end.

(** [onerror]; [err] is [Some m] for an [Error] with message [m].  The
    continuation of [stopSession(false)] that arms the timer is run with
    the handler, as happens when no event comes before [suspend()]
    settles; [Live] below takes the two apart. *)
Definition onerror (err : option jsstring) (now : Z) (s : State) : State :=
  let message :=
    match err with Some m => m | None => str "Connection lost" end in
  if retryCountRef (reconnect s) <? MAX_RETRIES then
    let nextRetry := retryCountRef (reconnect s) + 1 in
    let s := withUi (setStatus CONNECTING) s in
    let s := withUi (setErrorMsg
                       (Some (str "Connection lost. Reconnecting ("
                                ++ numberToString nextRetry ++ str "/"
                                ++ numberToString MAX_RETRIES ++ str ")...")))
               s in
    let s := withReconnect (setRetryCount nextRetry) s in
    withReconnect (setTimeout 2000) (stopSession false now s)
  else
    let s := withUi (setErrorMsg (Some (message ++ str " (Max retries reached)"))) s in
    let s := withUi (setStatus ERROR) s in
    stopSession false now s.

(** ** [startSession] *)

(** What the awaits of [startSession] came to: every one succeeded and the
    capture graph was wired on the given stream and nodes, or
    [getUserMedia] rejected with an exception whose [message] is given. *)
Inductive StartOutcome : Type :=
| Wired (stream source worklet : nat)
| Rejected (message : option jsstring).

Definition resumeCapture (c : Capture) : Capture :=
  mkCapture
    (match globalAudioContextRef c with
     | Some suspended => Some running
     | Some other => Some other
     | None => Some running
     end)
    (sessionRef c) (mediaStreamRef c) (workletNodeRef c) (sourceNodeRef c)
    (calls c).

Definition resumeOutput (p : Playback) : Playback :=
  mkPlayback (Some running) (nextStartTimeRef p) (audioSourcesRef p) (nodes p).

Definition startSession (API_KEY : option jsstring) (o : StartOutcome)
    (now : Z) (s : State) : State :=
  match API_KEY with
  | Some (_ :: _) =>
      let s := withUi (setErrorMsg None) s in
      let s := withUi (setStatus CONNECTING) s in
      let s := withCapture resumeCapture s in
      let s := withPlayback resumeOutput s in
      match o with
      | Wired stream source worklet =>
          withCapture (fun c => mkCapture (globalAudioContextRef c)
                                  (sessionRef c) (Some stream) (Some worklet)
                                  (Some source) (calls c)) s
      | Rejected message =>
          let text :=
            match message with
            | Some (c :: r) => c :: r
            | _ => str "Failed to access microphone or connect."
            end in
          let s := withUi (setErrorMsg (Some text)) s in
          let s := withUi (setStatus ERROR) s in
          stopSession false now s
      end
  | _ => withUi (setErrorMsg
                   (Some (str "API Key is missing in environment variables.")))
           s
  end.

(** A timer armed by [onerror] fires: it leaves the pending timers and
    runs [startSession].  A cleared timer never fires. *)
Definition timerFired (API_KEY : option jsstring) (t : nat)
    (o : StartOutcome) (now : Z) (s : State) : State :=
  if existsb (fun x => Nat.eqb (timerId x) t) (timers (reconnect s)) then
    startSession API_KEY o now
      (withReconnect
         (fun r => mkReconnect (reconnectTimeoutRef r) (retryCountRef r)
                     (filter (fun x => negb (Nat.eqb (timerId x) t)) (timers r))
                     (timersSet r))
         s)
  else s.

(** ** The event loop *)

(** What the page reacts to, one task at a time. *)
Inductive Event : Type :=
| Opened (sess : nat)                                 (* onopen *)
| Received (m : LiveServerMessage) (currentTime : Q)  (* onmessage *)
| Closed (captured : ConnectionStatus)                (* onclose *)
| Failed (err : option jsstring)                      (* onerror *)
| Fired (t : nat) (o : StartOutcome)                  (* a reconnect timer *)
| Ended (node : nat)                                  (* source.onended *)
| StartClicked (o : StartOutcome)
| StopClicked.

(** One task; [now] is the reading of the wall clock in it. *)
Definition handle (API_KEY : option jsstring) (e : Event) (now : Z)
    (s : State) : State :=
  match e with
  | Opened sess => onopen sess s
  | Received m currentTime => onmessage m now currentTime s
  | Closed captured => onclose captured now s
  | Failed err => onerror err now s
  | Fired t o => timerFired API_KEY t o now s
  | Ended node => withPlayback (onended node) s
  | StartClicked o => startSession API_KEY o now s
  | StopClicked => handleDisconnect now s
  end.

Fixpoint run (API_KEY : option jsstring) (evs : list (Event * Z)) (s : State)
  : State :=
  match evs with
  | [] => s
  | (e, now) :: r => run API_KEY r (handle API_KEY e now s)
  end.

(** A sequence of audio payloads, each with the reading of the output
    clock when it arrives, played in arrival order. *)
Fixpoint playAll (frames : list (jsstring * Q)) (p : Playback) : Playback :=
  match frames with
  | [] => p
  | (b64, currentTime) :: r => playAll r (playAudio (Some b64) currentTime p)
  end.

End App.

(** [===] on two strings. *)
Fixpoint strictEq (a b : jsstring) : bool :=
  match a, b with
  | [], [] => true
  | x :: a', y :: b' => (x =? y) && strictEq a' b'
  | _, _ => false
  end.

(** ** The worklet's port and the image tool *)

Module Tools.

Import App.

(** [workletNode.port.onmessage]: nothing is sent without a session;
    otherwise the block is encoded and handed to [sendRealtimeInput] of the
    session, whose rejection is ignored. *)
Definition onPortMessage (inputData : list Q) (s : State)
  : option (nat * result Audio.Blob) :=
  match sessionRef (capture s) with
  | None => None
  | Some sess => Some (sess, Audio.createPcmBlob inputData)
  end.

(** A function call of a tool-call message, with [(fc.args as any).prompt]. *)
Record FunctionCall : Type := mkCall {
  callId : jsstring;
  callName : jsstring;
  prompt : jsstring
}.

(** What [sendToolResponse] is given: [result] is [None] for [undefined]. *)
Record FunctionResponse : Type := mkResponse {
  responseId : jsstring;
  responseName : jsstring;
  result : option jsstring
}.

(** A part of the image model's answer: [InlinePart d] when [part.inlineData]
    is there, [d] being its [data], possibly [undefined]. *)
Inductive Part : Type :=
| TextPart
| InlinePart (data : option jsstring).

(** How the awaited [generateContent] call ended; [Responded parts] has
    [response.candidates?.[0]?.content?.parts || []]. *)
Inductive Generated : Type :=
| Responded (parts : list Part)
| Threw.

(** The loop over the parts: the data of the first part with inline data. *)
Fixpoint firstInline (parts : list Part) : option jsstring :=
  match parts with
  | [] => None                               (* imageBase64 = null *)
  | TextPart :: r => firstInline r
  | InlinePart d :: _ => d                   (* break *)
  end.

Definition generatingItem (prompt : jsstring) (now : Z) : TranscriptItem :=
  {| id := numberToString now ++ str "-generating"; role := model;
     text := str "Generating image: " ++ [34] ++ prompt ++ [34] ++ str "...";
     image := None; isFinal := true; timestamp := now |}.

Definition imageItem (prompt imageBase64 : jsstring) (now : Z) : TranscriptItem :=
  {| id := numberToString now ++ str "-image"; role := model;
     text := str "Here is an image of: " ++ prompt;
     image := Some (str "data:image/png;base64," ++ imageBase64);
     isFinal := true; timestamp := now |}.

(** [generateImageContent(prompt)] up to its [await]: [None] when it
    returns at once, for want of an API key. *)
Definition generateImageBegin (API_KEY : option jsstring) (prompt : jsstring)
    (now : Z) (s : State) : option State :=
  match API_KEY with
  | Some (_ :: _) =>
      Some (withUi (setTranscripts (fun prev => prev ++ [generatingItem prompt now])) s)
  | _ => None
  end.

(** [generateImageContent(prompt)] from its [await] on, in the state the
    page is in by then: the new state and the text returned. *)
Definition generateImageEnd (prompt : jsstring) (g : Generated) (now : Z)
    (s : State) : State * jsstring :=
  match g with
  | Responded parts =>
      match firstInline parts with
      | Some (c :: r) =>
          (withUi (setTranscripts
                     (fun prev => prev ++ [imageItem prompt (c :: r) now])) s,
           str "Image generated successfully and displayed to the user.")
      | _ => (s, str "Failed to generate image.")
      end
  | Threw => (s, str "Error occurred while generating image.")
  end.

(** The body of the loop over [message.toolCall.functionCalls] after its
    [await]: the response sent, if any. *)
Definition toolResponse (fc : FunctionCall) (generated : option jsstring)
    (s : State) : option FunctionResponse :=
  match sessionRef (capture s) with
  | Some _ => Some (mkResponse (callId fc) (callName fc) generated)
  | None => None
  end.

(** One [render_image] call from start to end, with the states the page is
    in before and after the [await]; a call of another name does nothing. *)
Definition renderImage (API_KEY : option jsstring) (fc : FunctionCall)
    (g : Generated) (now1 now2 : Z) (before : State)
    (during : State -> State) : State * option FunctionResponse :=
  if strictEq (callName fc) (str "render_image") then
    match generateImageBegin API_KEY (prompt fc) now1 before with
    | None => (before, toolResponse fc None before)
    | Some s1 =>
        let (s2, text) := generateImageEnd (prompt fc) g now2 (during s1) in
        (s2, toolResponse fc (Some text) s2)
    end
  else (before, None).

(** The rest of [onMessageReceived], run once the loop over the function
    calls is through: at once when no call awaits, else after the last
    [await]. *)
Definition afterToolCalls (m : LiveServerMessage) (now : Z) (s : State)
  : State :=
  let s := if turnComplete m then completeTurn now s else s in
  if interrupted m then interrupt s else s.

End Tools.

(** ** The page around the session: languages and the utility buttons *)

Module Page.

Import App.

Record LanguageOption : Type := mkLanguage {
  code : jsstring;
  name : jsstring;
  flag : jsstring
}.

(** A flag emoji: the regional indicators of two capital letters, each a
    surrogate pair. *)
Definition flagOf (a b : Z) : jsstring :=
  [55356; 56806 + (a - 65); 55356; 56806 + (b - 65)].

Definition LANGUAGES : list LanguageOption :=
  [ mkLanguage (str "none") (str "Transcribe (Original)") [55356; 57241; 65039];
    mkLanguage (str "zh") (str "Chinese") (flagOf 67 78);
    mkLanguage (str "en") (str "English") (flagOf 85 83);
    mkLanguage (str "ja") (str "Japanese") (flagOf 74 80);
    mkLanguage (str "es") (str "Spanish") (flagOf 69 83);
    mkLanguage (str "fr") (str "French") (flagOf 70 82);
    mkLanguage (str "ko") (str "Korean") (flagOf 75 82);
    mkLanguage (str "de") (str "German") (flagOf 68 69) ].

(** [`${lang?.name}`]: the name, or the text of [undefined]. *)
Definition nameText (lang : option LanguageOption) : jsstring :=
  match lang with
  | Some l => name l
  | None => str "undefined"
  end.

Definition getSystemInstruction (langCode : jsstring) : jsstring :=
  let lang := find (fun l => strictEq (code l) langCode) LANGUAGES in
  if strictEq langCode (str "none") then
    str "You are a helpful assistant. Your primary task is to listen to the user. If the user speaks, simply acknowledge it or answer briefly. You can also generate images if the user asks to 'draw' or 'generate an image' by using the render_image tool. Be concise."
  else
    str "You are an expert simultaneous interpreter. Translate the user's speech into "
    ++ nameText lang
    ++ str ". Output ONLY the translated text and speak it naturally. Do not add conversational filler.".

(** The session together with the language state of the page. *)
Record t : Type := mk {
  session : State;
  selectedLang : jsstring;
  isLangMenuOpen : bool
}.

Definition initial : t :=
  {| session := App.initial; selectedLang := str "none"; isLangMenuOpen := false |}.

(** [handleLanguageChange(code)]. *)
Definition handleLanguageChange (langCode : jsstring) (now : Z) (p : t) : t :=
  {| session :=
       match status (ui (session p)) with
       | CONNECTED => handleDisconnect now (session p)
       | _ => session p
       end;
     selectedLang := langCode;
     isLangMenuOpen := false |}.

(** The [onClick] of the Clear Transcript button. *)
Definition clearTranscript (s : State) : State :=
  withUi (setCurrentOutput [])
    (withUi (setCurrentInput []) (withUi (setTranscripts (fun _ => [])) s)).

(** Everything the page reacts to.  A message with [render_image] calls
    is handled in pieces, between which other events are handled: the
    text and the audio at once ([Session (Received _ _)]), then for each
    call [generateImageContent] up to its [await] and from it on, then the
    rest of [onMessageReceived]. *)
Inductive Event : Type :=
| Session (e : App.Event)
| LanguageChosen (langCode : jsstring)
| MenuToggled
| ClearClicked
| ImageRequested (prompt : jsstring)
| ImageAnswered (prompt : jsstring) (g : Tools.Generated)
| MessageResumed (m : LiveServerMessage).

Definition handle (API_KEY : option jsstring) (e : Event) (now : Z) (p : t) : t :=
  match e with
  | Session e => mk (App.handle API_KEY e now (session p)) (selectedLang p)
                    (isLangMenuOpen p)
  | LanguageChosen langCode => handleLanguageChange langCode now p
  | MenuToggled => mk (session p) (selectedLang p) (negb (isLangMenuOpen p))
  | ClearClicked => mk (clearTranscript (session p)) (selectedLang p)
                       (isLangMenuOpen p)
  | ImageRequested prompt =>
      mk (match Tools.generateImageBegin API_KEY prompt now (session p) with
          | Some s => s
          | None => session p
          end)
         (selectedLang p) (isLangMenuOpen p)
  | ImageAnswered prompt g =>
      mk (fst (Tools.generateImageEnd prompt g now (session p)))
         (selectedLang p) (isLangMenuOpen p)
  | MessageResumed m =>
      mk (Tools.afterToolCalls m now (session p)) (selectedLang p)
         (isLangMenuOpen p)
  end.

Fixpoint run (API_KEY : option jsstring) (evs : list (Event * Z)) (p : t) : t :=
  match evs with
  | [] => p
  | (e, now) :: r => run API_KEY r (handle API_KEY e now p)
  end.

End Page.

(** ** Teardown across its [await] *)

(** [stopSession] waits for [suspend()] when the capture context is
    running, and the page handles other events meanwhile.  The handlers of
    [App] run every call of [stopSession] to its end, as happens when no
    event comes in between; here the call is cut at the [await], and what
    follows it, with the [.then] of [onerror], waits in a queue until the
    [suspend()] it awaits settles.  The calls of [suspend()] settle in the
    order they were made. *)
Module Live.

Import App.

(** What is left of a call of [stopSession(fullDisconnect)] after its
    [await]; [armsRestart] for the call of [onerror] whose [.then] sets the
    restart timer. *)
Record Pending : Type := mkPending {
  fullDisconnect : bool;
  armsRestart : bool
}.

(** Steps 1 to 3 of [stopSession]: the timer, the media stream, the
    worklet and source nodes, the output audio. *)
Definition stopSessionBegin (s : State) : State :=
  {| ui := ui s;
     capture :=
       {| globalAudioContextRef := globalAudioContextRef (capture s);
          sessionRef := sessionRef (capture s);
          mediaStreamRef := None;
          workletNodeRef := None;
          sourceNodeRef := None;
          calls := calls (capture s)
                   ++ callIf (mediaStreamRef (capture s)) StopTracks
                   ++ callIf (workletNodeRef (capture s)) DisconnectWorklet
                   ++ callIf (sourceNodeRef (capture s)) DisconnectSource |};
     playback := stopOutputAudio (playback s);
     turn := turn s;
     reconnect := clearTimer (reconnect s) |}.

(** Step 4 awaits [suspend()] when the capture context is running. *)
Definition awaits (s : State) : bool :=
  match globalAudioContextRef (capture s) with
  | Some running => true
  | _ => false
  end.

(** Step 5 on: the context is suspended by now, the session ref is
    dropped, the pending text saved and the partials reset. *)
Definition stopSessionEnd (fullDisconnect : bool) (now : Z) (s : State)
  : State :=
  {| ui := {| status := if fullDisconnect then DISCONNECTED else status (ui s);
              transcripts := savePending now (turn s) (transcripts (ui s));
              currentInput := [];
              currentOutput := [];
              errorMsg := errorMsg (ui s) |};
     capture :=
       {| globalAudioContextRef :=
            match globalAudioContextRef (capture s) with
            | Some running => Some suspended
            | other => other
            end;
          sessionRef := None;
          mediaStreamRef := mediaStreamRef (capture s);
          workletNodeRef := workletNodeRef (capture s);
          sourceNodeRef := sourceNodeRef (capture s);
          calls := calls (capture s) |};
     playback := playback s;
     turn := mkTurn [] [];
     reconnect := reconnect s |}.

(** The rest of a call once its [suspend()] has settled, and then the
    [.then] of [onerror]:
    [reconnectTimeoutRef.current = setTimeout(() => startSession(), 2000)]. *)
Definition settle (k : Pending) (now : Z) (s : State) : State :=
  let s := stopSessionEnd (fullDisconnect k) now s in
  if armsRestart k then withReconnect (setTimeout 2000) s else s.

(** [onerror] up to its call of [stopSession(false)], and what that call
    leaves to be done. *)
Definition onerrorBegin (err : option jsstring) (s : State) : State * Pending :=
  let message :=
    match err with Some m => m | None => str "Connection lost" end in
  if retryCountRef (reconnect s) <? MAX_RETRIES then
    let nextRetry := retryCountRef (reconnect s) + 1 in
    let s := withUi (setStatus CONNECTING) s in
    let s := withUi (setErrorMsg
                       (Some (str "Connection lost. Reconnecting ("
                                ++ numberToString nextRetry ++ str "/"
                                ++ numberToString MAX_RETRIES ++ str ")...")))
               s in
    (withReconnect (setRetryCount nextRetry) s, mkPending false true)
  else
    let s := withUi (setErrorMsg (Some (message ++ str " (Max retries reached)"))) s in
    (withUi (setStatus ERROR) s, mkPending false false).

(** The page and the calls of [stopSession] that wait, oldest first. *)
Record t : Type := mk {
  page : Page.t;
  teardowns : list Pending
}.

Definition initial : t := {| page := Page.initial; teardowns := [] |}.

Definition session (l : t) : State := Page.session (page l).

Definition setSession (s : State) (l : t) : Page.t :=
  Page.mk s (Page.selectedLang (page l)) (Page.isLangMenuOpen (page l)).

(** A call of [stopSession] in the state [s]: its first steps, and the
    rest at once unless it has to wait. *)
Definition stopping (k : Pending) (now : Z) (s : State) (l : t) : t :=
  if awaits s then
    {| page := setSession (stopSessionBegin s) l;
       teardowns := teardowns l ++ [k] |}
  else
    {| page := setSession (settle k now (stopSessionBegin s)) l;
       teardowns := teardowns l |}.

(** What happens on the page: a task of [Page] handled with all that
    follows from it, or an error, a close or a manual stop cut at the
    [await] of its [stopSession], or the oldest [suspend()] settling. *)
Inductive Event : Type :=
| Task (e : Page.Event)
| ErrorBegan (err : option jsstring)
| CloseBegan (captured : ConnectionStatus)
| StopBegan
| Settled.

Definition handle (API_KEY : option jsstring) (e : Event) (now : Z) (l : t)
  : t :=
  match e with
  | Task e => {| page := Page.handle API_KEY e now (page l);
                 teardowns := teardowns l |}
  | ErrorBegan err =>
      let (s, k) := onerrorBegin err (session l) in stopping k now s l
  | CloseBegan captured =>
      match captured with
      | DISCONNECTED => l
      | _ => stopping (mkPending true false) now (session l) l
      end
  | StopBegan =>
      stopping (mkPending true false) now
        (withReconnect (setRetryCount 0) (session l)) l
  | Settled =>
      match teardowns l with
      | [] => l
      | k :: r => {| page := setSession (settle k now (session l)) l;
                     teardowns := r |}
      end
  end.

Fixpoint run (API_KEY : option jsstring) (evs : list (Event * Z)) (l : t) : t :=
  match evs with
  | [] => l
  | (e, now) :: r => run API_KEY r (handle API_KEY e now l)
  end.

End Live.

(* ================================================================== *)
(** * Vocabulary of the properties *)
(* ================================================================== *)

Import App.

Definition byte (b : Z) : Prop := 0 <= b < 256.
Definition sextet (v : Z) : Prop := 0 <= v < 64.

Definition int16 (v : Z) : Prop := -32768 <= v <= 32767.

(** The sample [createPcmBlob] encodes as [v] is decoded as [v / 32768]. *)
Definition decoded (v : Z) : Q := (inject_Z v / 32768)%Q.

Definition unit_range (x : Q) : Prop := (-1 <= x)%Q /\ (x <= 1)%Q.

(** Iterations the loop still makes from index [i] on an input of [len]
    samples. *)
Definition remaining (len : nat) (ratio i : Q) : nat :=
  Z.to_nat (Qceiling ((inject_Z (Z.of_nat len) - i) / ratio)).

(** The relative error of one rounding: half a unit in the last of 53
    places. *)
Definition roundoff : Q := 1 # 9007199254740992.

(** The sample the loop copies at the index [i]. *)
Definition sample (channelData : list Q) (i : Q) : Q :=
  nth (Z.to_nat (Qfloor i)) channelData 0%Q.

(** The indices the loop visits from [i] on, within [fuel] iterations. *)
Fixpoint visited (fuel len : nat) (ratio i : Q) : list Q :=
  if Qltb i (inject_Z (Z.of_nat len)) then
    match fuel with
    | O => []
    | S fuel' => i :: visited fuel' len ratio (Float64.add i ratio)
    end
  else [].

(** Positions that go up: each is at least [from], below [len], and above
    the one before it. *)
Fixpoint ascending (from len : Z) (l : list Z) : Prop :=
  match l with
  | [] => True
  | x :: r => from <= x < len /\ ascending (x + 1) len r
  end.

(** What the chunks posted during a run look like. *)
Definition extends (p p' : RecorderProcessor.t) : Prop :=
  exists new,
    RecorderProcessor.posted p' = RecorderProcessor.posted p ++ new /\
    Forall (fun c => length c = RecorderProcessor.bufferSize) new.

(** Samples a call of [process] takes from a block of [len] samples
    according to the specification, and according to the loop. *)
Definition floor_count (sampleRate : Q) (len : nat) : nat :=
  Z.to_nat (Qfloor (inject_Z (Z.of_nat len) / (sampleRate / 16000))).

Definition ceiling_count (sampleRate : Q) (len : nat) : nat :=
  Z.to_nat (Qceiling (inject_Z (Z.of_nat len) / (sampleRate / 16000))).

(** The turns a teardown or a turn-complete event appends for the two
    buffers: one per direction whose trimmed text is not empty, the user's
    first. *)
Definition committed (now : Z) (inSuffix outSuffix : string)
    (input output : jsstring) : list TranscriptItem :=
  (if truthy (trim input)
   then [mkItem (numberToString now ++ str inSuffix) user (trim input)
           None true now]
   else [])
  ++ (if truthy (trim output)
      then [mkItem (numberToString now ++ str outSuffix) model (trim output)
              None true now]
      else []).

(** The node after [try { source.stop(); } catch (e) {}]. *)
Definition halted (n : SourceNode) : SourceNode :=
  mkNode (startTime n) (buffer n) true.




(** Every pending timer is the one [reconnectTimeoutRef] names.  It holds
    when the component mounts and every handler keeps it. *)
Definition tracked (r : Reconnect) : Prop :=
  forall t, In t (timers r) -> reconnectTimeoutRef r = Some (timerId t).

(** The message [onerror] shows. *)
Definition errorText (err : option jsstring) : jsstring :=
  match err with Some m => m | None => str "Connection lost" end.

(** Events of a retry sequence: errors and timers, no successful connect. *)
Definition retrying (ev : Event * Z) : Prop :=
  match fst ev with
  | Failed _ | Fired _ _ => True
  | _ => False
  end.

(** The number a little-endian byte sequence stands for. *)
Fixpoint fromLe (bytes : list Z) : Z :=
  match bytes with
  | [] => 0
  | b :: r => b + 256 * fromLe r
  end.

(** The 44 bytes of a WAV header for [n] one-channel 16-bit samples. *)
Definition wavHeader (rate : Q) (n : nat) : list Z :=
  str "RIFF" ++ Wav.le 4 (36 + 2 * Z.of_nat n)
  ++ str "WAVE" ++ str "fmt " ++ Wav.le 4 16 ++ Wav.le 2 1 ++ Wav.le 2 1
  ++ Wav.le 4 (Qtruncate rate) ++ Wav.le 4 (Qtruncate (rate * 2))
  ++ Wav.le 2 2 ++ Wav.le 2 16
  ++ str "data" ++ Wav.le 4 (2 * Z.of_nat n).

(** What an encoded sample becomes when it is decoded and encoded again. *)
Definition reencoded (v : Z) : Z := if 0 <? v then v - 1 else v.

(** The number stored in the [size] bytes at [offset] of a file. *)
Definition field (file : list Z) (offset size : nat) : Z :=
  fromLe (firstn size (skipn offset file)).

(** The samples a processor has taken so far, in order: the chunks it
    posted, then the part of the accumulation buffer in use. *)
Definition stream (p : RecorderProcessor.t) : list Q :=
  concat (RecorderProcessor.posted p)
  ++ firstn (RecorderProcessor.bufferIndex p) (RecorderProcessor.buffer p).

(** The samples of [channelData] at the indices [floor (k * ratio)], for
    [count] values of [k] from [from] on. *)
Definition selection (ratio : Q) (channelData : list Q) (from count : nat)
  : list Q :=
  map (fun k => nth (Z.to_nat (Qfloor (inject_Z (Z.of_nat k) * ratio)))
                 channelData 0%Q)
      (seq from count).

(** [process] called on one block after another, as the audio thread
    does. *)
Fixpoint processAll (sampleRate : Q) (blocks : list (list Q))
    (p : RecorderProcessor.t) : option RecorderProcessor.t :=
  match blocks with
  | [] => Some p
  | channelData :: r =>
      match RecorderProcessor.process sampleRate [[channelData]] p with
      | Some p' => processAll sampleRate r p'
      | None => None
      end
  end.

(** A turn as the session commits it: final, with a text that is not
    empty and has no white space at either end. *)
Definition finalTurn (it : TranscriptItem) : Prop :=
  isFinal it = true /\ truthy (text it) = true /\ trim (text it) = text it.

(** A string that does not start with white space. *)
Definition noLead (s : jsstring) : Prop :=
  match s with
  | [] => True
  | c :: _ => isWhiteSpace c = false
  end.

(** The live set names distinct nodes that exist and were not stopped. *)
Definition liveOk (p : Playback) : Prop :=
  NoDup (audioSourcesRef p) /\
  forall i, In i (audioSourcesRef p) ->
            exists n, nth_error (nodes p) i = Some n /\ stopped n = false.

(** The reconnection state stays within its bounds: the counter between 0
    and [MAX_RETRIES], every pending timer set for 2000 ms under an id
    already given out. *)
Definition boundedRetry (r : Reconnect) : Prop :=
  0 <= retryCountRef r <= MAX_RETRIES /\
  Forall (fun t => delay t = 2000 /\ (timerId t < timersSet r)%nat) (timers r).

(** The partial text on screen is nothing or the buffer's contents. *)
Definition partialsOk (s : State) : Prop :=
  (currentInput (ui s) = [] \/
   currentInput (ui s) = currentTurnInputRef (turn s)) /\
  (currentOutput (ui s) = [] \/
   currentOutput (ui s) = currentTurnOutputRef (turn s)).

(** The text a message carries for a direction; nothing when absent. *)
Definition textOf (t : option jsstring) : jsstring :=
  match t with Some x => x | None => [] end.

(** A message that only carries partial text. *)
Definition textOnly (m : LiveServerMessage) : Prop :=
  turnComplete m = false /\ interrupted m = false.

(** The transcript handler over a sequence of messages, each with the
    reading of the clock when it is handled. *)
Fixpoint receiveAll (ms : list (LiveServerMessage * Z)) (s : State) : State :=
  match ms with
  | [] => s
  | (m, now) :: r => receiveAll r (onMessageReceived m now s)
  end.

(** The partial texts a sequence of messages carries, joined in order. *)
Definition inputTexts (ms : list (LiveServerMessage * Z)) : jsstring :=
  concat (map (fun x => textOf (inputTranscription (fst x))) ms).

Definition outputTexts (ms : list (LiveServerMessage * Z)) : jsstring :=
  concat (map (fun x => textOf (outputTranscription (fst x))) ms).

(** The two templates of [getSystemInstruction]. *)
Definition transcribeInstruction : jsstring :=
  str "You are a helpful assistant. Your primary task is to listen to the user. If the user speaks, simply acknowledge it or answer briefly. You can also generate images if the user asks to 'draw' or 'generate an image' by using the render_image tool. Be concise.".

Definition interpreterInstruction (language : jsstring) : jsstring :=
  str "You are an expert simultaneous interpreter. Translate the user's speech into "
  ++ language
  ++ str ". Output ONLY the translated text and speak it naturally. Do not add conversational filler.".

(** The banner [onerror] shows while it retries. *)
Definition reconnectingText (attempt : Z) : jsstring :=
  str "Connection lost. Reconnecting (" ++ numberToString attempt
  ++ str "/" ++ numberToString MAX_RETRIES ++ str ")...".

(** The three texts [generateImageContent] answers with. *)
Definition imageSuccess : jsstring :=
  str "Image generated successfully and displayed to the user.".
Definition imageFailed : jsstring := str "Failed to generate image.".
Definition imageError : jsstring := str "Error occurred while generating image.".

(** Two states that differ at most in the history. *)
Definition historyOnly (s s' : State) : Prop :=
  capture s' = capture s /\ playback s' = playback s /\ turn s' = turn s /\
  reconnect s' = reconnect s /\ status (ui s') = status (ui s) /\
  currentInput (ui s') = currentInput (ui s) /\
  currentOutput (ui s') = currentOutput (ui s) /\
  errorMsg (ui s') = errorMsg (ui s).

(** A turn as the history shows it: final, with a text that is not empty. *)
Definition shownTurn (it : TranscriptItem) : Prop :=
  isFinal it = true /\ truthy (text it) = true.

(** The Clear button is not among the events. *)
Definition noClear (evs : list (Page.Event * Z)) : Prop :=
  Forall (fun x => fst x <> Page.ClearClicked) evs.

(** The history of a page. *)
Definition history (p : Page.t) : list TranscriptItem :=
  transcripts (ui (Page.session p)).

(* ================================================================== *)
(** * Properties *)
(* ================================================================== *)

(** ** The model on concrete inputs *)

Example btoa_Man : btoa (str "Man") = Ok (str "TWFu").
Proof. reflexivity. Qed.

Example btoa_padded :
  btoa (str "Ma") = Ok (str "TWE=") /\ btoa (str "M") = Ok (str "TQ==").
Proof. split; reflexivity. Qed.

Example btoa_rejects_wide : btoa [77; 256] = Throw InvalidCharacterError.
Proof. reflexivity. Qed.

Example atob_forgiving :
  atob (str "TWE=") = Ok (str "Ma") /\ atob (str " T W E ") = Ok (str "Ma") /\
  atob (str "TWFu!") = Throw InvalidCharacterError /\
  atob (str "T") = Throw InvalidCharacterError.
Proof. repeat split; reflexivity. Qed.

Example trim_both_ends :
  trim (str "  hello world ") = str "hello world" /\
  trim (12288 :: str "a" ++ [160; 10]) = str "a" /\
  trim (str "   ") = [].
Proof. repeat split; reflexivity. Qed.

Example pcm16_samples :
  map Audio.pcm16 [0; 1 # 2; -1 # 2; 1; -1; 3; -3; 131071 # 131072]%Q
  = [0; 16383; -16384; 32767; -32768; 32767; -32768; 32766].
Proof. reflexivity. Qed.

(** At 44.1 kHz the indices are [floor (k * 2.75625)]: of ten samples the
    resampler takes those at 0, 2, 5 and 8. *)
Example process_44100 :
  option_map
    (fun p => firstn (RecorderProcessor.bufferIndex p) (RecorderProcessor.buffer p))
    (RecorderProcessor.process 44100
       [[[10; 11; 12; 13; 14; 15; 16; 17; 18; 19]%Q]] RecorderProcessor.init)
  = Some [10; 12; 15; 18]%Q.
Proof. vm_compute. reflexivity. Qed.

(** The rounding of the index shows in the count: 88200 / 16000 = 5.5125
    is not a double, the index after 80 additions falls just short of 441,
    and an 81st sample is taken where exact arithmetic stops at 80. *)
Example process_88200 :
  option_map RecorderProcessor.emitted
    (RecorderProcessor.process 88200 [[repeat 0%Q 441]] RecorderProcessor.init)
  = Some 81%nat /\
  ceiling_count 88200 441 = 80%nat.
Proof. split; vm_compute; reflexivity. Qed.

(** A full accumulation buffer is posted and the index goes back to 0. *)
Example process_flushes :
  let p := RecorderProcessor.mk (repeat 0%Q 2048) 2047 [] in
  option_map
    (fun p' => (map (@length Q) (RecorderProcessor.posted p'),
                RecorderProcessor.bufferIndex p'))
    (RecorderProcessor.process 16000 [[[1; 2; 3]%Q]] p)
  = Some ([2048%nat], 2%nat).
Proof. vm_compute. reflexivity. Qed.

(** ** Base64 *)

Ltac divmod := Z.div_mod_to_equations; lia.

(** Lists are cut three bytes at a time. *)
Lemma list_ind3 (A : Type) (P : list A -> Prop) :
  P [] -> (forall a, P [a]) -> (forall a b, P [a; b]) ->
  (forall a b c r, P r -> P (a :: b :: c :: r)) ->
  forall l, P l.
Proof.
  intros H0 H1 H2 H3.
  assert (H : forall l, P l /\ (forall a, P (a :: l)) /\ (forall a b, P (a :: b :: l))).
  { induction l as [|x l [IH0 [IH1 IH2]]].
    - repeat split; auto.
    - repeat split; auto. }
  intro l. apply H.
Qed.

Lemma b64value_b64char v : sextet v -> b64value (b64char v) = Some v.
Proof.
  unfold sextet, b64char. intros Hv.
  destruct (v <? 26) eqn:E1;
    [| destruct (v <? 52) eqn:E2;
       [| destruct (v <? 62) eqn:E3; [| destruct (v =? 62) eqn:E4]]];
    unfold b64value;
    repeat match goal with
           | |- context [if ?c then _ else _] => destruct c eqn:?
           end; try (f_equal; lia); lia.
Qed.

Lemma b64char_plain v :
  sextet v -> (b64char v =? 61) = false /\ isAsciiWhitespace (b64char v) = false.
Proof.
  unfold sextet, b64char, isAsciiWhitespace. intros Hv.
  destruct (v <? 26) eqn:E1;
    [| destruct (v <? 52) eqn:E2;
       [| destruct (v <? 62) eqn:E3; [| destruct (v =? 62) eqn:E4]]];
    split; lia.
Qed.

Lemma sextets_range l : Forall byte l -> Forall sextet (sextets l).
Proof.
  induction l as [|a|a b|a b c r IH] using list_ind3; intros H; simpl.
  - constructor.
  - inversion H; subst. unfold byte, sextet in *.
    repeat constructor; divmod.
  - inversion H as [|? ? Ha H']; subst. inversion H'; subst.
    unfold byte, sextet in *. repeat constructor; divmod.
  - inversion H as [|? ? Ha H']; subst. inversion H' as [|? ? Hb H'']; subst.
    inversion H'' as [|? ? Hc Hr]; subst.
    unfold byte, sextet in *.
    repeat (constructor; [divmod|]). auto.
Qed.

Lemma octets_sextets l : Forall byte l -> octets (sextets l) = l.
Proof.
  induction l as [|a|a b|a b c r IH] using list_ind3; intros H.
  - reflexivity.
  - inversion H; subst. unfold byte in *. simpl. f_equal. divmod.
  - inversion H as [|? ? Ha H']; subst. inversion H'; subst.
    unfold byte in *. simpl. f_equal; [divmod|]. f_equal. divmod.
  - inversion H as [|? ? Ha H']; subst. inversion H' as [|? ? Hb H'']; subst.
    inversion H'' as [|? ? Hc Hr]; subst.
    unfold byte in *.
    change (octets (sextets (a :: b :: c :: r)))
      with (((a / 4) * 4 + ((a mod 4) * 16 + b / 16) / 16)
            :: ((((a mod 4) * 16 + b / 16) mod 16) * 16 + ((b mod 16) * 4 + c / 64) / 4)
            :: ((((b mod 16) * 4 + c / 64) mod 4) * 64 + c mod 64)
            :: octets (sextets r)).
    rewrite IH by assumption.
    f_equal; [divmod|]. f_equal; [divmod|]. f_equal. divmod.
Qed.

Lemma values_chars vs : Forall sextet vs -> values (map b64char vs) = Some vs.
Proof.
  induction 1 as [|v vs Hv _ IH]; simpl.
  - reflexivity.
  - now rewrite b64value_b64char, IH.
Qed.

Lemma remove_padding_cons c r :
  (c =? 61) = false -> remove_padding (c :: r) = c :: remove_padding r.
Proof.
  intros Hc. destruct r as [|c2 [|c3 r]]; simpl; try rewrite Hc; reflexivity.
Qed.

Lemma remove_padding_app l n :
  Forall (fun c => (c =? 61) = false) l -> remove_padding (l ++ padding n) = l.
Proof.
  induction 1 as [|c l Hc _ IH].
  - unfold padding. destruct (n mod 3)%nat as [|[|[|k]]]; reflexivity.
  - rewrite <- app_comm_cons, remove_padding_cons, IH by assumption. reflexivity.
Qed.

Lemma filter_plain (l : jsstring) :
  Forall (fun c => isAsciiWhitespace c = false) l ->
  filter (fun c => negb (isAsciiWhitespace c)) l = l.
Proof.
  induction 1 as [|c l Hc _ IH]; simpl.
  - reflexivity.
  - rewrite Hc. simpl. now rewrite IH.
Qed.

Lemma mod3_step n : (S (S (S n)) mod 3 = n mod 3)%nat.
Proof.
  change (S (S (S n))) with (3 + n)%nat.
  rewrite Nat.add_comm. apply (Nat.Div0.mod_add n 1 3).
Qed.

Lemma mod4_step n : (S (S (S (S n))) mod 4 = n mod 4)%nat.
Proof.
  change (S (S (S (S n)))) with (4 + n)%nat.
  rewrite Nat.add_comm. apply (Nat.Div0.mod_add n 1 4).
Qed.

(** The encoded text has a length divisible by 4; without its padding the
    length is never 1 modulo 4. *)
Lemma encoded_length (l : list Z) :
  ((length (sextets l) + length (padding (length l))) mod 4 = 0 /\
   length (sextets l) mod 4 <> 1)%nat.
Proof.
  induction l as [|a|a b|a b c r [IH1 IH2]] using list_ind3.
  - split; [reflexivity | discriminate].
  - split; [reflexivity | discriminate].
  - split; [reflexivity | discriminate].
  - change (length (a :: b :: c :: r)) with (S (S (S (length r)))).
    change (length (sextets (a :: b :: c :: r)))
      with (S (S (S (S (length (sextets r)))))).
    unfold padding in *. rewrite mod3_step.
    change (S (S (S (S (length (sextets r))))) + ?x)%nat
      with (S (S (S (S (length (sextets r) + x)))))%nat.
    rewrite !mod4_step. auto.
Qed.

Lemma padding_plain n :
  Forall (fun c => isAsciiWhitespace c = false) (padding n).
Proof.
  unfold padding. destruct (n mod 3)%nat as [|[|[|k]]]; repeat constructor.
Qed.

(** [atob] undoes [btoa] on a binary string. *)
Lemma atob_btoa (l : jsstring) :
  Forall byte l -> exists s, btoa l = Ok s /\ atob s = Ok l.
Proof.
  intros Hl. unfold btoa.
  assert (Hle : forallb (fun c => c <=? 255) l = true).
  { apply forallb_forall. intros c Hc.
    rewrite Forall_forall in Hl. specialize (Hl c Hc). unfold byte in Hl. lia. }
  rewrite Hle. eexists. split; [reflexivity|].
  pose proof (sextets_range l Hl) as Hs.
  assert (Hplain : Forall (fun c => isAsciiWhitespace c = false)
                     (map b64char (sextets l))).
  { apply Forall_map. eapply Forall_impl; [|exact Hs].
    intros v Hv. apply b64char_plain, Hv. }
  assert (Hne : Forall (fun c => (c =? 61) = false) (map b64char (sextets l))).
  { apply Forall_map. eapply Forall_impl; [|exact Hs].
    intros v Hv. apply b64char_plain, Hv. }
  destruct (encoded_length l) as [Hlen Hlen1].
  unfold atob.
  rewrite filter_plain by (apply Forall_app; split; [exact Hplain | apply padding_plain]).
  rewrite length_app, length_map, Hlen, Nat.eqb_refl.
  rewrite remove_padding_app by exact Hne.
  rewrite length_map, (proj2 (Nat.eqb_neq _ _) Hlen1).
  rewrite values_chars by exact Hs.
  rewrite octets_sextets by exact Hl. reflexivity.
Qed.

Lemma map_id_on (f : Z -> Z) (l : list Z) :
  Forall (fun x => f x = x) l -> map f l = l.
Proof.
  induction 1 as [|x l Hx _ IH]; simpl; congruence.
Qed.

Lemma int16_bytes_byte (vs : list Z) : Forall byte (flat_map Audio.int16_bytes vs).
Proof.
  induction vs as [|v vs IH]; simpl.
  - constructor.
  - unfold byte, Audio.int16_bytes.
    constructor; [divmod|]. constructor; [divmod|]. exact IH.
Qed.

Lemma int16_bytes_length (vs : list Z) :
  length (flat_map Audio.int16_bytes vs) = (2 * length vs)%nat.
Proof.
  induction vs as [|v vs IH]; simpl; [reflexivity|]. rewrite IH. lia.
Qed.

Lemma base64_bytes_roundtrip (b : list Z) :
  Forall byte b ->
  exists s, Audio.arrayBufferToBase64 b = Ok s /\ Audio.base64ToArrayBuffer s = Ok b.
Proof.
  intros Hb. unfold Audio.arrayBufferToBase64, Audio.base64ToArrayBuffer.
  assert (Hid : map Audio.fromCharCode b = b).
  { apply map_id_on. eapply Forall_impl; [|exact Hb].
    intros x Hx. unfold byte in Hx. unfold Audio.fromCharCode. divmod. }
  rewrite Hid.
  destruct (atob_btoa b Hb) as [s [Hs1 Hs2]].
  exists s. split; [exact Hs1|].
  rewrite Hs2. simpl. f_equal. apply map_id_on.
  eapply Forall_impl; [|exact Hb]. intros x Hx. unfold byte in Hx. divmod.
Qed.

(** The bytes carried by the chunk [createPcmBlob] makes. *)
Lemma createPcmBlob_bytes (samples : list Q) :
  exists blob,
    Audio.createPcmBlob samples = Ok blob /\
    Audio.base64ToArrayBuffer (Audio.data blob) =
      Ok (flat_map Audio.int16_bytes (map Audio.pcm16 samples)).
Proof.
  destruct (base64_bytes_roundtrip _ (int16_bytes_byte (map Audio.pcm16 samples)))
    as [s [Hs1 Hs2]].
  unfold Audio.createPcmBlob. rewrite Hs1.
  eexists. split; [reflexivity|]. exact Hs2.
Qed.

(** C10.  The transport text encoding round-trips: for every byte buffer
    [b], [base64ToArrayBuffer (arrayBufferToBase64 b)] returns [b]; and the
    chunk made by [createPcmBlob] from [n] samples decodes back to the
    [2 * n] bytes of its 16-bit samples. *)
Theorem transport_encoding_roundtrip (b : list Z) :
  Forall byte b ->
  (exists s, Audio.arrayBufferToBase64 b = Ok s /\
             Audio.base64ToArrayBuffer s = Ok b) /\
  (forall samples : list Q,
      exists blob bytes,
        Audio.createPcmBlob samples = Ok blob /\
        Audio.base64ToArrayBuffer (Audio.data blob) = Ok bytes /\
        bytes = flat_map Audio.int16_bytes (map Audio.pcm16 samples) /\
        length bytes = (2 * length samples)%nat).
Proof.
  intros Hb. split.
  - apply base64_bytes_roundtrip, Hb.
  - intros samples.
    destruct (createPcmBlob_bytes samples) as [blob [H1 H2]].
    exists blob. eexists. split; [exact H1|]. split; [exact H2|].
    split; [reflexivity|].
    now rewrite int16_bytes_length, length_map.
Qed.

Lemma transport_encoding_roundtrip_witness :
  Forall byte [72; 0; 255] /\
  Audio.arrayBufferToBase64 [72; 0; 255] = Ok (str "SAD/") /\
  exists s, Audio.arrayBufferToBase64 [72; 0; 255] = Ok s /\
            Audio.base64ToArrayBuffer s = Ok [72; 0; 255].
Proof.
  assert (H : Forall byte [72; 0; 255]) by (repeat constructor; unfold byte; lia).
  split; [exact H|]. split; [reflexivity|].
  exact (proj1 (transport_encoding_roundtrip [72; 0; 255] H)).
Defined.

(** ** PCM encoding and decoding *)

Ltac qconst :=
  unfold decoded, Qdiv in *;
  change (/ 32768)%Q with (1 # 32768)%Q in *.

Lemma Qltb_true x y : Qltb x y = true <-> (x < y)%Q.
Proof.
  unfold Qltb. rewrite negb_true_iff.
  split; intros H.
  - apply Qnot_le_lt. intros Hle. apply Qle_bool_iff in Hle. congruence.
  - destruct (Qle_bool y x) eqn:E; [|reflexivity].
    apply Qle_bool_iff in E. exfalso. apply (Qlt_not_le _ _ H E).
Qed.

Lemma Qltb_false x y : Qltb x y = false <-> (y <= x)%Q.
Proof.
  unfold Qltb. rewrite negb_false_iff. apply Qle_bool_iff.
Qed.

Lemma wrap16_int16 v : int16 v -> wrap16 v = v.
Proof.
  unfold int16, wrap16. intros H.
  destruct (Z.ltb_spec (v mod 65536) 32768); divmod.
Qed.

Lemma wrap16_range n : int16 (wrap16 n).
Proof.
  unfold int16, wrap16.
  destruct (Z.ltb_spec (n mod 65536) 32768); divmod.
Qed.

(** The clamp of a value of [-1, 1] is that value. *)
Lemma clamp_unit x :
  (-1 <= x)%Q -> (x <= 1)%Q -> (Qmax (-1) (Qmin 1 x) == x)%Q.
Proof.
  intros Hlo Hhi.
  destruct (Q.min_spec 1 x) as [[H1 E1]|[H1 E1]];
    destruct (Q.max_spec (-1) (Qmin 1 x)) as [[H2 E2]|[H2 E2]];
    rewrite E2; try rewrite E1; try rewrite E1 in H2; lra.
Qed.

(** What [pcm16] computes on [-1, 1]: the scaled value truncated toward
    zero, which fits 16 bits. *)
Lemma pcm16_spec x :
  (-1 <= x)%Q -> (x <= 1)%Q ->
  int16 (Audio.pcm16 x) /\
  ((x < 0)%Q ->
     (x * 32768 <= inject_Z (Audio.pcm16 x))%Q /\
     (inject_Z (Audio.pcm16 x) < x * 32768 + 1)%Q) /\
  ((0 <= x)%Q ->
     (inject_Z (Audio.pcm16 x) <= x * 32767)%Q /\
     (x * 32767 < inject_Z (Audio.pcm16 x) + 1)%Q).
Proof.
  intros Hlo Hhi.
  split; [apply wrap16_range|].
  unfold Audio.pcm16.
  pose proof (clamp_unit x Hlo Hhi) as Hs.
  set (s := Qmax (-1) (Qmin 1 x)) in *. clearbody s.
  destruct (Qltb s 0) eqn:Es.
  - apply Qltb_true in Es.
    assert (Hneg : Qle_bool 0 (s * 32768) = false).
    { destruct (Qle_bool 0 (s * 32768)) eqn:E; [|reflexivity].
      apply Qle_bool_iff in E. lra. }
    unfold ToInt16, Qtruncate. rewrite Hneg.
    pose proof (Qle_ceiling (s * 32768)) as Hc1.
    pose proof (Qceiling_lt (s * 32768)) as Hc2.
    assert (Hr : int16 (Qceiling (s * 32768))).
    { unfold int16. split.
      - change (Qceiling (-32768) <= Qceiling (s * 32768)).
        apply Qceiling_resp_le. lra.
      - assert (Qceiling (s * 32768) <= Qceiling 0).
        { apply Qceiling_resp_le. lra. }
        change (Qceiling 0) with 0 in H. lia. }
    rewrite (wrap16_int16 _ Hr).
    unfold Z.sub in Hc2. rewrite inject_Z_plus in Hc2.
    change (inject_Z (- (1))) with (-1)%Q in Hc2.
    set (c := inject_Z (Qceiling (s * 32768))) in *. clearbody c.
    clear Hneg Hr.
    split; intros Hx; [split; lra | lra].
  - apply Qltb_false in Es.
    assert (Hpos : Qle_bool 0 (s * 32767) = true).
    { apply Qle_bool_iff. lra. }
    unfold ToInt16, Qtruncate. rewrite Hpos.
    pose proof (Qfloor_le (s * 32767)) as Hf1.
    pose proof (Qlt_floor (s * 32767)) as Hf2.
    assert (Hr : int16 (Qfloor (s * 32767))).
    { unfold int16. split.
      - assert (Qfloor 0 <= Qfloor (s * 32767)).
        { apply Qfloor_resp_le. lra. }
        change (Qfloor 0) with 0 in H. lia.
      - change (Qfloor (s * 32767) <= Qfloor 32767).
        apply Qfloor_resp_le. lra. }
    rewrite (wrap16_int16 _ Hr).
    rewrite inject_Z_plus in Hf2.
    change (inject_Z 1) with 1%Q in Hf2.
    set (c := inject_Z (Qfloor (s * 32767))) in *. clearbody c.
    clear Hpos Hr.
    split; intros Hx; [lra | split; lra].
Qed.

(** The quantization error of one sample. *)
Lemma pcm16_error x :
  (-1 <= x)%Q -> (x <= 1)%Q ->
  (Qabs (decoded (Audio.pcm16 x) - x) < 2 / 32768)%Q /\
  ((x <= 0)%Q -> (Qabs (decoded (Audio.pcm16 x) - x) < 1 / 32768)%Q).
Proof.
  intros Hlo Hhi.
  destruct (pcm16_spec x Hlo Hhi) as [_ [Hneg Hpos]].
  change (2 / 32768)%Q with (2 # 32768)%Q.
  change (1 / 32768)%Q with (1 # 32768)%Q.
  qconst.
  set (c := inject_Z (Audio.pcm16 x)) in *. clearbody c.
  destruct (Qlt_le_dec x 0) as [Hx|Hx].
  - destruct (Hneg Hx) as [H1 H2].
    split; [|intros _]; apply Qabs_case; intros; lra.
  - destruct (Hpos Hx) as [H1 H2].
    split; [|intros H0]; apply Qabs_case; intros; lra.
Qed.

Lemma pcm16_extremes : Audio.pcm16 1 = 32767 /\ Audio.pcm16 (-1) = -32768.
Proof. split; reflexivity. Qed.

Lemma int16_pair v :
  int16 v -> wrap16 ((v mod 65536) mod 256 + 256 * ((v mod 65536) / 256)) = v.
Proof.
  intros Hv. unfold int16 in Hv.
  replace ((v mod 65536) mod 256 + 256 * ((v mod 65536) / 256)) with (v mod 65536)
    by divmod.
  unfold wrap16. rewrite Zmod_mod.
  destruct (Z.ltb_spec (v mod 65536) 32768); divmod.
Qed.

Lemma int16_pairs_bytes (vs : list Z) :
  Forall int16 vs -> Audio.int16_pairs (flat_map Audio.int16_bytes vs) = vs.
Proof.
  induction 1 as [|v vs Hv _ IH].
  - reflexivity.
  - cbn [flat_map Audio.int16_bytes app Audio.int16_pairs].
    now rewrite IH, int16_pair.
Qed.

Lemma pcm16_int16 (samples : list Q) : Forall int16 (map Audio.pcm16 samples).
Proof.
  apply Forall_map, Forall_forall. intros x _. apply wrap16_range.
Qed.

(** The outbound chunk of a non-empty block, fed to the inbound decoder,
    gives one frame per sample: the value [createPcmBlob] stored, over
    32768. *)
Lemma encode_then_decode (samples : list Q) (rate : Q) :
  samples <> [] ->
  Audio.supportsRate rate = true ->
  exists blob,
    Audio.createPcmBlob samples = Ok blob /\
    Audio.decodeAudioData (Audio.data blob) rate =
      Ok (Audio.mkAudioBuffer rate
            (map (fun x => decoded (Audio.pcm16 x)) samples)).
Proof.
  intros Hne Hrate.
  destruct (createPcmBlob_bytes samples) as [blob [Hb Hd]].
  exists blob. split; [exact Hb|].
  unfold Audio.decodeAudioData. rewrite Hd.
  cbn [bind]. unfold Audio.Int16Array.
  rewrite int16_bytes_length, length_map.
  replace ((2 * length samples) mod 2 =? 0)%nat with true.
  2:{ symmetry. apply Nat.eqb_eq.
      rewrite Nat.mul_comm. apply Nat.Div0.mod_mul. }
  cbn [bind]. rewrite int16_pairs_bytes by apply pcm16_int16.
  rewrite length_map.
  destruct samples as [|x r]; [congruence|].
  cbn [length Audio.createBuffer Nat.eqb]. rewrite Hrate.
  cbn [bind]. rewrite map_map. reflexivity.
Qed.

(** C6, as the specification states it, fails: the sample [1 - 2^-17]
    (a 32-bit float) is encoded as 32766 and decoded as [32766 / 32768],
    which is [1.75 / 32768] away from it. *)
Lemma pcm_roundtrip_counterexample :
  let x := (131071 # 131072)%Q in
  unit_range x /\
  exists blob buf y,
    Audio.createPcmBlob [x] = Ok blob /\
    Audio.decodeAudioData (Audio.data blob) 24000 = Ok buf /\
    Audio.channelData buf = [y] /\
    ~ (Qabs (y - x) <= 1 / 32768)%Q.
Proof.
  intros x. split; [split; unfold x; lra|].
  destruct (encode_then_decode [x] 24000) as [blob [H1 H2]];
    [discriminate | reflexivity |].
  exists blob. eexists. exists (decoded (Audio.pcm16 x)).
  split; [exact H1|]. split; [exact H2|]. split; [reflexivity|].
  intros H. vm_compute in H. apply H. reflexivity.
Qed.

(** C6, amended.  A non-empty block of samples in [-1, 1] is reproduced by
    encoding then decoding within [2 / 32768] (within [1 / 32768] for the
    samples that are not positive); every encoded sample fits the signed
    16-bit range, [+1.0] becoming 32767 and [-1.0] becoming -32768. *)
Theorem pcm_roundtrip (samples : list Q) :
  samples <> [] ->
  Forall unit_range samples ->
  exists blob buf,
    Audio.createPcmBlob samples = Ok blob /\
    Audio.decodeAudioData (Audio.data blob) 24000 = Ok buf /\
    Forall2 (fun x y => (Qabs (y - x) < 2 / 32768)%Q /\
                        ((x <= 0)%Q -> (Qabs (y - x) < 1 / 32768)%Q))
            samples (Audio.channelData buf) /\
    Forall int16 (map Audio.pcm16 samples) /\
    Audio.pcm16 1 = 32767 /\ Audio.pcm16 (-1) = -32768.
Proof.
  intros Hne Hr.
  destruct (encode_then_decode samples 24000 Hne eq_refl) as [blob [H1 H2]].
  exists blob. eexists. split; [exact H1|]. split; [exact H2|].
  split; [|split; [apply pcm16_int16 | apply pcm16_extremes]].
  cbn [Audio.channelData]. clear Hne H1 H2.
  induction Hr as [|x r [Hlo Hhi] _ IH]; cbn [map]; constructor.
  - apply pcm16_error; assumption.
  - exact IH.
Qed.

Lemma pcm_roundtrip_witness :
  exists blob buf,
    Audio.createPcmBlob [1; -1; 131071 # 131072]%Q = Ok blob /\
    Audio.decodeAudioData (Audio.data blob) 24000 = Ok buf /\
    Forall2 (fun x y => (Qabs (y - x) < 2 / 32768)%Q /\
                        ((x <= 0)%Q -> (Qabs (y - x) < 1 / 32768)%Q))
            [1; -1; 131071 # 131072]%Q (Audio.channelData buf) /\
    Forall int16 (map Audio.pcm16 [1; -1; 131071 # 131072]%Q) /\
    Audio.pcm16 1 = 32767 /\ Audio.pcm16 (-1) = -32768.
Proof.
  apply (pcm_roundtrip [1; -1; 131071 # 131072]%Q).
  - discriminate.
  - repeat constructor; cbn; lra.
Defined.

(** ** Binary64 rounding *)

Lemma pow2_pos e : (0 < Float64.pow2 e)%Q.
Proof. apply Qpower_0_lt. reflexivity. Qed.

Lemma pow2_plus a b : (Float64.pow2 (a + b) == Float64.pow2 a * Float64.pow2 b)%Q.
Proof. apply Qpower_plus. discriminate. Qed.

Lemma pow2_le a b : a <= b -> (Float64.pow2 a <= Float64.pow2 b)%Q.
Proof. intros H. apply Qpower_le_compat_l; [exact H | discriminate]. Qed.

Lemma pow2_lt a b : a < b -> (Float64.pow2 a < Float64.pow2 b)%Q.
Proof. intros H. apply Qpower_lt_compat_l; [exact H | reflexivity]. Qed.

Lemma pow2_lt_inv a b : (Float64.pow2 a < Float64.pow2 b)%Q -> a < b.
Proof. intros H. apply (Qpower_lt_compat_l_inv 2); [exact H | reflexivity]. Qed.

Lemma pow2_Z e : 0 <= e -> (Float64.pow2 e == inject_Z (2 ^ e))%Q.
Proof. intros H. unfold Float64.pow2. now rewrite Zpower_Qpower. Qed.

Lemma pow2_opp e : (Float64.pow2 e * Float64.pow2 (- e) == 1)%Q.
Proof. rewrite <- pow2_plus. now replace (e + - e) with 0 by lia. Qed.

(** The Float64.binade of a positive number. *)
Lemma binade_spec q :
  (0 < q)%Q -> (Float64.pow2 (Float64.binade q) <= q)%Q /\ (q < Float64.pow2 (Float64.binade q + 1))%Q.
Proof.
  intros Hq. unfold Float64.binade.
  destruct q as [n d]. cbn [Qnum Qden].
  assert (Hn : 0 < n).
  { unfold Qlt in Hq. cbn in Hq. lia. }
  rewrite (Z.abs_eq n) by lia.
  rewrite (Qabs_pos (n # d)) by (apply Qlt_le_weak, Hq).
  set (ln := Z.log2 n). set (ld := Z.log2 (Z.pos d)).
  pose proof (Z.log2_spec n Hn) as [Hn1 Hn2]. fold ln in Hn1, Hn2.
  pose proof (Z.log2_spec (Z.pos d) eq_refl) as [Hd1 Hd2]. fold ld in Hd1, Hd2.
  assert (Hln : 0 <= ln) by apply Z.log2_nonneg.
  assert (Hld : 0 <= ld) by apply Z.log2_nonneg.
  assert (HN1 : (Float64.pow2 ln <= inject_Z n)%Q).
  { rewrite pow2_Z by exact Hln. now rewrite <- Zle_Qle. }
  assert (HN2 : (inject_Z n < Float64.pow2 (ln + 1))%Q).
  { rewrite pow2_Z by lia. now rewrite <- Zlt_Qlt. }
  assert (HD1 : (Float64.pow2 ld <= inject_Z (Z.pos d))%Q).
  { rewrite pow2_Z by exact Hld. now rewrite <- Zle_Qle. }
  assert (HD2 : (inject_Z (Z.pos d) < Float64.pow2 (ld + 1))%Q).
  { rewrite pow2_Z by lia. now rewrite <- Zlt_Qlt. }
  assert (Hq' : (n # d == inject_Z n / inject_Z (Z.pos d))%Q) by apply Qmake_Qdiv.
  assert (Hdpos : (0 < inject_Z (Z.pos d))%Q) by reflexivity.
  assert (Hup : (n # d < Float64.pow2 (ln - ld + 1))%Q).
  { rewrite Hq'. apply Qlt_shift_div_r; [exact Hdpos|].
    replace (ln - ld + 1) with ((ln + 1) + - ld) by lia.
    rewrite pow2_plus.
    pose proof (pow2_opp ld) as Ho.
    pose proof (pow2_pos (- ld)) as Hp1. pose proof (pow2_pos (ln + 1)) as Hp2.
    pose proof (pow2_pos ld) as Hp3.
    set (A := Float64.pow2 (ln + 1)) in *. set (B := Float64.pow2 (- ld)) in *.
    set (C := Float64.pow2 ld) in *. set (D := inject_Z (Z.pos d)) in *.
    set (N := inject_Z n) in *. clearbody A B C D N.
    assert (1 <= B * D)%Q by nra. nra. }
  assert (Hlow : (Float64.pow2 (ln - ld - 1) <= n # d)%Q).
  { rewrite Hq'. apply Qle_shift_div_l; [exact Hdpos|].
    replace (ln - ld - 1) with (ln + - (ld + 1)) by lia.
    rewrite pow2_plus.
    pose proof (pow2_opp (ld + 1)) as Ho.
    pose proof (pow2_pos (- (ld + 1))) as Hp1. pose proof (pow2_pos ln) as Hp2.
    pose proof (pow2_pos (ld + 1)) as Hp3.
    set (A := Float64.pow2 ln) in *. set (B := Float64.pow2 (- (ld + 1))) in *.
    set (C := Float64.pow2 (ld + 1)) in *. set (D := inject_Z (Z.pos d)) in *.
    set (N := inject_Z n) in *. clearbody A B C D N.
    assert (B * D <= 1)%Q by nra. nra. }
  destruct (Qle_bool (Float64.pow2 (ln - ld)) (n # d)) eqn:E.
  - apply Qle_bool_iff in E. split; [exact E | exact Hup].
  - assert (Hlt : (n # d < Float64.pow2 (ln - ld))%Q).
    { apply Qnot_le_lt. intros H. apply Qle_bool_iff in H. congruence. }
    split; [exact Hlow|]. now replace (ln - ld - 1 + 1) with (ln - ld) by lia.
Qed.

Lemma binade_unique q b :
  (Float64.pow2 b <= q)%Q -> (q < Float64.pow2 (b + 1))%Q -> Float64.binade q = b.
Proof.
  intros H1 H2.
  assert (Hq : (0 < q)%Q) by (pose proof (pow2_pos b); lra).
  destruct (binade_spec q Hq) as [H3 H4].
  assert (b < Float64.binade q + 1) by (apply pow2_lt_inv; lra).
  assert (Float64.binade q < b + 1) by (apply pow2_lt_inv; lra).
  lia.
Qed.

Lemma binade_ge q b : (Float64.pow2 b <= q)%Q -> b <= Float64.binade q.
Proof.
  intros H1.
  assert (Hq : (0 < q)%Q) by (pose proof (pow2_pos b); lra).
  destruct (binade_spec q Hq) as [H3 H4].
  assert (b < Float64.binade q + 1) by (apply pow2_lt_inv; lra). lia.
Qed.

Lemma binade_lt q b : (0 < q)%Q -> (q < Float64.pow2 b)%Q -> Float64.binade q < b.
Proof.
  intros Hq H1.
  destruct (binade_spec q Hq) as [H3 H4].
  apply pow2_lt_inv; lra.
Qed.

(** Rounding to the nearest integer, ties to even. *)
Lemma rne_bounds y : Qfloor y <= Float64.rne y <= Qfloor y + 1.
Proof.
  unfold Float64.rne. destruct (_ ?= _)%Q; [destruct (Z.even _)| |]; lia.
Qed.

Lemma rne_comp x y : (x == y)%Q -> Float64.rne x = Float64.rne y.
Proof.
  intros E. unfold Float64.rne. rewrite (Qfloor_comp _ _ E).
  assert (E2 : (x - inject_Z (Qfloor y) == y - inject_Z (Qfloor y))%Q)
    by (rewrite E; reflexivity).
  now rewrite E2.
Qed.

Lemma rne_Z z : Float64.rne (inject_Z z) = z.
Proof.
  unfold Float64.rne. rewrite Qfloor_Z.
  assert (E : (inject_Z z - inject_Z z == 0)%Q) by ring.
  rewrite E. reflexivity.
Qed.

Lemma rne_mono x y : (x <= y)%Q -> Float64.rne x <= Float64.rne y.
Proof.
  intros H.
  pose proof (Qfloor_resp_le _ _ H) as Hf.
  pose proof (rne_bounds x) as Hx. pose proof (rne_bounds y) as Hy.
  destruct (Z.eq_dec (Qfloor x) (Qfloor y)) as [E|N]; [|lia].
  unfold Float64.rne. rewrite E.
  destruct (Qcompare_spec (x - inject_Z (Qfloor y)) (1 # 2)) as [Hx1|Hx1|Hx1];
    destruct (Qcompare_spec (y - inject_Z (Qfloor y)) (1 # 2)) as [Hy1|Hy1|Hy1];
    try destruct (Z.even (Qfloor y)); try lia; exfalso; lra.
Qed.

Lemma rne_err y :
  (inject_Z (Float64.rne y) - (1 # 2) <= y)%Q /\ (y <= inject_Z (Float64.rne y) + (1 # 2))%Q.
Proof.
  pose proof (Qfloor_le y) as H1. pose proof (Qlt_floor y) as H2.
  rewrite inject_Z_plus in H2. change (inject_Z 1) with 1%Q in H2.
  unfold Float64.rne.
  destruct (Qcompare_spec (y - inject_Z (Qfloor y)) (1 # 2)) as [E|E|E];
    [destruct (Z.even (Qfloor y))| |];
    rewrite ?inject_Z_plus; change (inject_Z 1) with 1%Q; split; lra.
Qed.

(** Rounding to binary64. *)
Lemma round_nonneg y : (0 <= y)%Q -> (0 <= Float64.round y)%Q.
Proof.
  intros H. unfold Float64.round. destruct (Qeq_bool y 0) eqn:E; [lra|].
  assert (Hy : (0 < y)%Q).
  { apply Qeq_bool_neq in E. lra. }
  pose proof (pow2_pos (Z.max (Float64.binade y) (-1022) - 52)) as Hu. fold (Float64.ulp y) in Hu.
  assert (Hq : (0 <= y / Float64.ulp y)%Q).
  { apply Qle_shift_div_l; [exact Hu | lra]. }
  pose proof (rne_mono _ _ Hq) as Hr. change 0%Q with (inject_Z 0) in Hr.
  rewrite rne_Z in Hr.
  assert (0 <= inject_Z (Float64.rne (y / Float64.ulp y)))%Q.
  { change 0%Q with (inject_Z 0). now rewrite <- Zle_Qle. }
  nra.
Qed.

Lemma ulp_normal y : (1 <= y)%Q -> Float64.ulp y = Float64.pow2 (Float64.binade y - 52) /\ 0 <= Float64.binade y.
Proof.
  intros H. assert (Hb : 0 <= Float64.binade y) by (apply binade_ge; exact H).
  unfold Float64.ulp. split; [f_equal; lia | exact Hb].
Qed.

(** No rounding takes a number below an integer double it has reached. *)
Lemma round_ge_Z z y :
  0 <= z <= 2 ^ 53 -> (inject_Z z <= y)%Q -> (inject_Z z <= Float64.round y)%Q.
Proof.
  intros [Hz0 Hz] Hy.
  destruct (Z.eq_dec z 0) as [->|Hnz].
  { apply round_nonneg. exact Hy. }
  assert (H1 : (1 <= y)%Q).
  { assert (inject_Z 1 <= inject_Z z)%Q by (rewrite <- Zle_Qle; lia).
    change (inject_Z 1) with 1%Q in H. lra. }
  destruct (ulp_normal y H1) as [Eu Hb].
  unfold Float64.round. destruct (Qeq_bool y 0) eqn:E.
  { apply Qeq_bool_iff in E. lra. }
  rewrite Eu.
  assert (Hy0 : (0 < y)%Q) by lra.
  destruct (binade_spec y Hy0) as [Hb1 Hb2].
  set (b := Float64.binade y) in *.
  pose proof (pow2_pos (b - 52)) as Hu.
  destruct (Z_le_gt_dec b 52) as [Hle|Hgt].
  - assert (EK : (Float64.pow2 (52 - b) == inject_Z (2 ^ (52 - b)))%Q) by (apply pow2_Z; lia).
    assert (Ho : (Float64.pow2 (b - 52) * Float64.pow2 (52 - b) == 1)%Q).
    { rewrite <- pow2_plus. now replace (b - 52 + (52 - b)) with 0 by lia. }
    assert (Hq : (inject_Z (z * 2 ^ (52 - b)) <= y / Float64.pow2 (b - 52))%Q).
    { apply Qle_shift_div_l; [exact Hu|].
      rewrite inject_Z_mult, <- EK.
      set (u := Float64.pow2 (b - 52)) in *. set (k := Float64.pow2 (52 - b)) in *.
      set (zz := inject_Z z) in *. clearbody u k zz. nra. }
    pose proof (rne_mono _ _ Hq) as Hr. rewrite rne_Z in Hr.
    rewrite Zle_Qle, inject_Z_mult, <- EK in Hr.
    pose proof (pow2_pos (52 - b)) as Hk.
    set (m := inject_Z (Float64.rne (y / Float64.pow2 (b - 52)))) in *.
    set (u := Float64.pow2 (b - 52)) in *. set (k := Float64.pow2 (52 - b)) in *.
    set (zz := inject_Z z) in *. clearbody u k zz m.
    nra.
  - assert (Hq : (inject_Z (2 ^ 52) <= y / Float64.pow2 (b - 52))%Q).
    { apply Qle_shift_div_l; [exact Hu|].
      rewrite <- pow2_Z by lia. rewrite <- pow2_plus.
      now replace (52 + (b - 52)) with b by lia. }
    pose proof (rne_mono _ _ Hq) as Hr. rewrite rne_Z in Hr.
    rewrite Zle_Qle, <- pow2_Z in Hr by lia.
    assert (Hz' : (inject_Z z <= Float64.pow2 53)%Q).
    { rewrite pow2_Z by lia. now rewrite <- Zle_Qle. }
    assert (H53 : (Float64.pow2 53 <= Float64.pow2 b)%Q) by (apply pow2_le; lia).
    assert (Eb : (Float64.pow2 52 * Float64.pow2 (b - 52) == Float64.pow2 b)%Q).
    { rewrite <- pow2_plus. now replace (52 + (b - 52)) with b by lia. }
    set (m := inject_Z (Float64.rne (y / Float64.pow2 (b - 52)))) in *.
    set (u := Float64.pow2 (b - 52)) in *. set (k := Float64.pow2 52) in *.
    set (zz := inject_Z z) in *. set (B := Float64.pow2 b) in *. set (C := Float64.pow2 53) in *.
    clearbody u k zz m B C. nra.
Qed.

(** The integers up to 2^53 are doubles. *)
Lemma round_Z z : 0 <= z <= 2 ^ 53 -> (Float64.round (inject_Z z) == inject_Z z)%Q.
Proof.
  intros [Hz0 Hz1].
  destruct (Z.eq_dec z 0) as [->|Hnz]; [reflexivity|].
  destruct (Z.eq_dec z (2 ^ 53)) as [->|Hn53]; [vm_compute; reflexivity|].
  assert (Hz : z < 2 ^ 53) by lia.
  assert (H1 : (1 <= inject_Z z)%Q).
  { change 1%Q with (inject_Z 1). rewrite <- Zle_Qle. lia. }
  destruct (ulp_normal _ H1) as [Eu Hb].
  unfold Float64.round. destruct (Qeq_bool (inject_Z z) 0) eqn:E.
  { apply Qeq_bool_iff in E. lra. }
  rewrite Eu.
  assert (Hlt : Float64.binade (inject_Z z) < 53).
  { apply binade_lt; [lra|]. rewrite pow2_Z by lia. now rewrite <- Zlt_Qlt. }
  set (b := Float64.binade (inject_Z z)) in *.
  pose proof (pow2_pos (b - 52)) as Hu.
  assert (EK : (Float64.pow2 (52 - b) == inject_Z (2 ^ (52 - b)))%Q) by (apply pow2_Z; lia).
  assert (Ho : (Float64.pow2 (b - 52) * Float64.pow2 (52 - b) == 1)%Q).
  { rewrite <- pow2_plus. now replace (b - 52 + (52 - b)) with 0 by lia. }
  assert (Hq : (inject_Z z / Float64.pow2 (b - 52) == inject_Z (z * 2 ^ (52 - b)))%Q).
  { rewrite inject_Z_mult, <- EK. field_simplify_eq.
    - set (u := Float64.pow2 (b - 52)) in *. set (k := Float64.pow2 (52 - b)) in *.
      set (zz := inject_Z z) in *. clearbody u k zz. nra.
    - lra. }
  rewrite (rne_comp _ _ Hq), rne_Z, inject_Z_mult, <- EK.
  set (u := Float64.pow2 (b - 52)) in *. set (k := Float64.pow2 (52 - b)) in *.
  set (zz := inject_Z z) in *. clearbody u k zz. nra.
Qed.

(** ** The resampler *)

Lemma inject_Z_lt_succ a b : (inject_Z a < inject_Z b + 1)%Q -> a <= b.
Proof.
  intros H. change 1%Q with (inject_Z 1) in H.
  rewrite <- inject_Z_plus, <- Zlt_Qlt in H. lia.
Qed.

Lemma Qceiling_unique q z :
  (inject_Z z - 1 < q)%Q -> (q <= inject_Z z)%Q -> Qceiling q = z.
Proof.
  intros H1 H2.
  pose proof (Qle_ceiling q) as H3.
  pose proof (Qceiling_lt q) as H4.
  unfold Z.sub in H4. rewrite inject_Z_plus in H4.
  change (inject_Z (- (1))) with (-1)%Q in H4.
  assert (z <= Qceiling q) by (apply inject_Z_lt_succ; lra).
  assert (Qceiling q <= z) by (apply inject_Z_lt_succ; lra).
  lia.
Qed.

Lemma Qceiling_pred q : Qceiling (q - 1) = Qceiling q - 1.
Proof.
  apply Qceiling_unique.
  - pose proof (Qceiling_lt q) as H. lra.
  - pose proof (Qle_ceiling q) as H.
    unfold Z.sub. rewrite inject_Z_plus.
    change (inject_Z (- (1))) with (-1)%Q. lra.
Qed.

Lemma Qdiv_pos a r : (0 < a)%Q -> (0 < r)%Q -> (0 < a / r)%Q.
Proof. intros. apply Qlt_shift_div_l; lra. Qed.

Lemma Qdiv_nonpos a r : (a <= 0)%Q -> (0 < r)%Q -> (a / r <= 0)%Q.
Proof. intros. apply Qle_shift_div_r; lra. Qed.

Lemma Qdiv_step a r : (0 < r)%Q -> ((a - r) / r == a / r - 1)%Q.
Proof. intros. field. lra. Qed.

Lemma remaining_done len ratio i :
  (0 < ratio)%Q -> (inject_Z (Z.of_nat len) <= i)%Q -> remaining len ratio i = O.
Proof.
  intros Hr Hi. unfold remaining.
  assert (H : Qceiling ((inject_Z (Z.of_nat len) - i) / ratio) <= Qceiling 0).
  { apply Qceiling_resp_le, Qdiv_nonpos; lra. }
  change (Qceiling 0) with 0 in H. lia.
Qed.

Lemma remaining_step len ratio i :
  (0 < ratio)%Q -> (i < inject_Z (Z.of_nat len))%Q ->
  remaining len ratio i = S (remaining len ratio (i + ratio)).
Proof.
  intros Hr Hi. unfold remaining.
  set (L := inject_Z (Z.of_nat len)) in *.
  assert (E : ((L - (i + ratio)) / ratio == (L - i) / ratio - 1)%Q).
  { rewrite <- Qdiv_step by exact Hr.
    apply Qdiv_comp; [ring | reflexivity]. }
  rewrite E, Qceiling_pred.
  assert (H : Qceiling 0 < Qceiling ((L - i) / ratio)).
  { pose proof (Qle_ceiling ((L - i) / ratio)) as Hc.
    pose proof (Qdiv_pos (L - i) ratio) as Hp.
    change (Qceiling 0) with 0.
    apply Z.lt_le_trans with 1; [lia|].
    apply inject_Z_lt_succ.
    change (inject_Z 1) with 1%Q.
    assert (0 < (L - i) / ratio)%Q by (apply Hp; lra).
    lra. }
  change (Qceiling 0) with 0 in H. lia.
Qed.

Lemma store_length a i v : length (RecorderProcessor.store a i v) = length a.
Proof.
  revert i. induction a as [|x a IH]; intros [|i]; simpl; auto.
Qed.

Lemma extends_same p p' :
  RecorderProcessor.posted p' = RecorderProcessor.posted p -> extends p p'.
Proof. intros E. exists []. split; [now rewrite app_nil_r | constructor]. Qed.

Lemma extends_refl p : extends p p.
Proof. now apply extends_same. Qed.

Lemma extends_trans p q r : extends p q -> extends q r -> extends p r.
Proof.
  intros [n1 [E1 F1]] [n2 [E2 F2]]. exists (n1 ++ n2). split.
  - now rewrite E2, E1, app_assoc.
  - apply Forall_app. auto.
Qed.

Lemma list_sum_snoc l x : list_sum (l ++ [x]) = (list_sum l + x)%nat.
Proof. rewrite list_sum_app. simpl. lia. Qed.

(** One iteration inside the input copies exactly one sample. *)
Lemma step_spec channelData i p :
  (0 <= i)%Q -> (i < inject_Z (Z.of_nat (length channelData)))%Q ->
  RecorderProcessor.wf p ->
  let p' := RecorderProcessor.step channelData i p in
  RecorderProcessor.wf p' /\
  RecorderProcessor.emitted p' = S (RecorderProcessor.emitted p) /\
  extends p p'.
Proof.
  intros H0 Hi [Hlen Hidx] p'. subst p'. unfold RecorderProcessor.step.
  assert (Hfl : Qfloor i < Z.of_nat (length channelData)).
  { rewrite Zlt_Qlt. eapply Qle_lt_trans; [apply Qfloor_le | exact Hi]. }
  apply Z.ltb_lt in Hfl. rewrite Hfl.
  cbn [RecorderProcessor.bufferIndex].
  destruct (RecorderProcessor.bufferSize <=? S (RecorderProcessor.bufferIndex p))%nat
    eqn:Efull.
  - apply Nat.leb_le in Efull.
    assert (Eidx : S (RecorderProcessor.bufferIndex p) = RecorderProcessor.bufferSize)
      by lia.
    unfold RecorderProcessor.flush.
    cbn [RecorderProcessor.bufferIndex RecorderProcessor.buffer
         RecorderProcessor.posted].
    change (0 <? S (RecorderProcessor.bufferIndex p))%nat with true. cbv iota.
    assert (Hchunk : length (firstn (S (RecorderProcessor.bufferIndex p))
                               (RecorderProcessor.store (RecorderProcessor.buffer p)
                                  (RecorderProcessor.bufferIndex p)
                                  (nth (Z.to_nat (Qfloor i)) channelData 0%Q)))
                     = RecorderProcessor.bufferSize).
    { rewrite length_firstn, store_length, Hlen. lia. }
    repeat split.
    + cbn [RecorderProcessor.buffer]. now rewrite store_length.
    + cbn [RecorderProcessor.bufferIndex]. unfold RecorderProcessor.bufferSize. lia.
    + unfold RecorderProcessor.emitted.
      cbn [RecorderProcessor.bufferIndex RecorderProcessor.posted].
      rewrite map_app. cbn [map]. rewrite list_sum_snoc, Hchunk. lia.
    + eexists. split; [reflexivity|]. repeat constructor. exact Hchunk.
  - apply Nat.leb_gt in Efull. repeat split.
    + cbn [RecorderProcessor.buffer]. now rewrite store_length.
    + cbn [RecorderProcessor.bufferIndex]. exact Efull.
    + unfold RecorderProcessor.emitted.
      cbn [RecorderProcessor.bufferIndex RecorderProcessor.posted]. lia.
    + now apply extends_same.
Qed.

Lemma firstn_store a : forall i v,
  (i < length a)%nat ->
  firstn (S i) (RecorderProcessor.store a i v) = firstn i a ++ [v].
Proof.
  induction a as [|x a IH]; intros [|i] v Hi; cbn [length] in Hi;
    try lia.
  - reflexivity.
  - cbn [RecorderProcessor.store firstn app]. f_equal.
    apply IH. lia.
Qed.

Lemma step_stream channelData i p :
  (i < inject_Z (Z.of_nat (length channelData)))%Q ->
  RecorderProcessor.wf p ->
  stream (RecorderProcessor.step channelData i p)
  = stream p ++ [nth (Z.to_nat (Qfloor i)) channelData 0%Q].
Proof.
  intros Hi [Hlen Hidx]. unfold RecorderProcessor.step.
  assert (Hfl : Qfloor i < Z.of_nat (length channelData)).
  { rewrite Zlt_Qlt. eapply Qle_lt_trans; [apply Qfloor_le | exact Hi]. }
  apply Z.ltb_lt in Hfl. rewrite Hfl.
  cbn [RecorderProcessor.bufferIndex].
  set (v := nth (Z.to_nat (Qfloor i)) channelData 0%Q).
  assert (Hf : firstn (S (RecorderProcessor.bufferIndex p))
                 (RecorderProcessor.store (RecorderProcessor.buffer p)
                    (RecorderProcessor.bufferIndex p) v)
               = firstn (RecorderProcessor.bufferIndex p)
                   (RecorderProcessor.buffer p) ++ [v]).
  { apply firstn_store. rewrite Hlen. exact Hidx. }
  destruct (RecorderProcessor.bufferSize <=? S (RecorderProcessor.bufferIndex p))%nat.
  - unfold RecorderProcessor.flush, stream.
    cbn [RecorderProcessor.bufferIndex RecorderProcessor.buffer
         RecorderProcessor.posted].
    change (0 <? S (RecorderProcessor.bufferIndex p))%nat with true. cbv iota.
    cbn [RecorderProcessor.bufferIndex RecorderProcessor.buffer
         RecorderProcessor.posted].
    rewrite concat_app, Hf, firstn_O. cbn [concat].
    now rewrite !app_nil_r, app_assoc.
  - unfold stream.
    cbn [RecorderProcessor.bufferIndex RecorderProcessor.buffer
         RecorderProcessor.posted].
    now rewrite Hf, app_assoc.
Qed.

(** The index stays a number that is not negative. *)
Lemma add_nonneg i ratio :
  (0 <= i)%Q -> (0 <= ratio)%Q -> (0 <= Float64.add i ratio)%Q.
Proof. intros. apply round_nonneg. lra. Qed.

(** At a ratio of at least 1 each iteration moves on by a sample or more,
    whatever the rounding. *)
Lemma add_floor i ratio len :
  (0 <= i)%Q -> (1 <= ratio)%Q -> (i < inject_Z (Z.of_nat len))%Q ->
  Z.of_nat len <= 2 ^ 53 ->
  Qfloor i + 1 <= Qfloor (Float64.add i ratio).
Proof.
  intros H0 Hr Hi HL.
  assert (Hf0 : 0 <= Qfloor i).
  { change 0 with (Qfloor 0). apply Qfloor_resp_le. exact H0. }
  assert (Hf1 : Qfloor i < Z.of_nat len).
  { rewrite Zlt_Qlt. eapply Qle_lt_trans; [apply Qfloor_le | exact Hi]. }
  assert (Hz : (inject_Z (Qfloor i + 1) <= i + ratio)%Q).
  { rewrite inject_Z_plus. change (inject_Z 1) with 1%Q.
    pose proof (Qfloor_le i). lra. }
  assert (Hr53 : 0 <= Qfloor i + 1 <= 2 ^ 53) by lia.
  pose proof (round_ge_Z (Qfloor i + 1) (i + ratio) Hr53 Hz) as H.
  apply Qfloor_resp_le in H. now rewrite Qfloor_Z in H.
Qed.

(** What a run of the loop that returns has done, in terms of the indices
    it visited. *)
Lemma loop_visited channelData ratio :
  (0 <= ratio)%Q ->
  forall fuel i p p',
    (0 <= i)%Q -> RecorderProcessor.wf p ->
    RecorderProcessor.loop fuel channelData ratio i p = Some p' ->
    RecorderProcessor.wf p' /\
    extends p p' /\
    RecorderProcessor.emitted p' =
      (RecorderProcessor.emitted p
       + length (visited fuel (length channelData) ratio i))%nat /\
    stream p'
    = stream p
      ++ map (sample channelData) (visited fuel (length channelData) ratio i).
Proof.
  intros Hr. induction fuel as [|fuel IH]; intros i p p' H0 Hwf Hl;
    cbn [RecorderProcessor.loop visited] in *;
    destruct (Qltb i (inject_Z (Z.of_nat (length channelData)))) eqn:E;
    try discriminate.
  - injection Hl as <-. cbn [length map]. rewrite app_nil_r, Nat.add_0_r.
    repeat split; try apply Hwf. apply extends_refl.
  - apply Qltb_true in E.
    destruct (step_spec channelData i p H0 E Hwf) as [Hwf1 [Hem1 Hex1]].
    destruct (IH _ _ _ (add_nonneg i ratio H0 Hr) Hwf1 Hl)
      as [Hwf' [Hex' [Hem' Hs']]].
    split; [exact Hwf'|]. split; [eapply extends_trans; eassumption|].
    split.
    + rewrite Hem', Hem1. cbn [length]. lia.
    + rewrite Hs', (step_stream _ _ _ E Hwf). cbn [map].
      rewrite <- app_assoc. reflexivity.
  - injection Hl as <-. cbn [length map]. rewrite app_nil_r, Nat.add_0_r.
    repeat split; try apply Hwf. apply extends_refl.
Qed.

(** At a ratio of at least 1, on a block no longer than a typed array can
    be, the loop leaves through its test. *)
Lemma loop_returns channelData ratio :
  (1 <= ratio)%Q ->
  Z.of_nat (length channelData) <= 2 ^ 53 ->
  forall fuel i p,
    (0 <= i)%Q ->
    Z.of_nat (length channelData) - Qfloor i <= Z.of_nat fuel ->
    exists p', RecorderProcessor.loop fuel channelData ratio i p = Some p'.
Proof.
  intros Hr HL. induction fuel as [|fuel IH]; intros i p H0 Hfuel;
    cbn [RecorderProcessor.loop];
    destruct (Qltb i (inject_Z (Z.of_nat (length channelData)))) eqn:E;
    try (eexists; reflexivity).
  - apply Qltb_true in E.
    assert (Hf1 : Qfloor i < Z.of_nat (length channelData)).
    { rewrite Zlt_Qlt. eapply Qle_lt_trans; [apply Qfloor_le | exact E]. }
    lia.
  - apply Qltb_true in E.
    pose proof (add_floor i ratio _ H0 Hr E HL) as Hstep.
    apply IH; [apply add_nonneg; lra | lia].
Qed.

Lemma ascending_weaken len l : forall a b,
  a <= b -> ascending b len l -> ascending a len l.
Proof.
  destruct l as [|x r]; intros a b Hab H; [exact I|].
  cbn [ascending] in *. split; [lia | apply H].
Qed.

Lemma ascending_length len l : forall a,
  a <= len -> ascending a len l -> Z.of_nat (length l) <= len - a.
Proof.
  induction l as [|x r IH]; intros a Ha H; cbn [length ascending] in *.
  - lia.
  - destruct H as [Hx Hr]. specialize (IH (x + 1) ltac:(lia) Hr). lia.
Qed.

(** The positions visited go up, one sample or more at a time. *)
Lemma visited_ascending len ratio :
  (1 <= ratio)%Q ->
  Z.of_nat len <= 2 ^ 53 ->
  forall fuel i,
    (0 <= i)%Q ->
    ascending (Qfloor i) (Z.of_nat len) (map Qfloor (visited fuel len ratio i)).
Proof.
  intros Hr HL. induction fuel as [|fuel IH]; intros i H0; cbn [visited];
    destruct (Qltb i (inject_Z (Z.of_nat len))) eqn:E; try exact I.
  apply Qltb_true in E. cbn [map ascending].
  assert (Hf1 : Qfloor i < Z.of_nat len).
  { rewrite Zlt_Qlt. eapply Qle_lt_trans; [apply Qfloor_le | exact E]. }
  split; [lia|].
  apply (ascending_weaken _ _ _ (Qfloor (Float64.add i ratio))).
  - apply (add_floor i ratio len H0 Hr E HL).
  - apply IH. apply add_nonneg; lra.
Qed.

(** A number and a rational equal to it round alike. *)
Lemma round_comp_pos x y :
  (0 < x)%Q -> (x == y)%Q -> (Float64.round x == Float64.round y)%Q.
Proof.
  intros Hx E.
  assert (Hy : (0 < y)%Q) by lra.
  destruct (binade_spec y Hy) as [H1 H2].
  assert (Eb : Float64.binade x = Float64.binade y).
  { apply binade_unique; lra. }
  unfold Float64.round, Float64.ulp. rewrite Eb.
  destruct (Qeq_bool x 0) eqn:E1; [apply Qeq_bool_iff in E1; lra|].
  destruct (Qeq_bool y 0) eqn:E2; [apply Qeq_bool_iff in E2; lra|].
  set (u := Float64.pow2 _).
  assert (Eq : (x / u == y / u)%Q) by (rewrite E; reflexivity).
  now rewrite (rne_comp _ _ Eq).
Qed.

(** Sums of integers that stay below 2^53 are exact. *)
Lemma add_exact a b x y :
  0 <= a -> 1 <= b -> a + b <= 2 ^ 53 ->
  (x == inject_Z a)%Q -> (y == inject_Z b)%Q ->
  (Float64.add x y == inject_Z (a + b))%Q.
Proof.
  intros Ha Hb Hs Ex Ey. unfold Float64.add.
  assert (E : (x + y == inject_Z (a + b))%Q).
  { rewrite inject_Z_plus, Ex, Ey. reflexivity. }
  assert (Hp : (0 < x + y)%Q).
  { rewrite E. change 0%Q with (inject_Z 0). rewrite <- Zlt_Qlt. lia. }
  rewrite (round_comp_pos _ _ Hp E). apply round_Z. lia.
Qed.

Lemma remaining_comp len ratio i i' :
  (i == i')%Q -> remaining len ratio i = remaining len ratio i'.
Proof.
  intros E. unfold remaining. f_equal. apply Qceiling_comp.
  rewrite E. reflexivity.
Qed.

(** When the ratio is an integer the index is exact: the loop visits the
    multiples of the ratio below the block's length. *)
Lemma visited_multiples len n ratio :
  1 <= n ->
  Z.of_nat len + n <= 2 ^ 53 ->
  (ratio == inject_Z n)%Q ->
  forall fuel j i,
    (i == inject_Z (Z.of_nat j) * ratio)%Q ->
    (remaining len ratio i <= fuel)%nat ->
    Forall2 (fun x k => (x == inject_Z (Z.of_nat k) * ratio)%Q)
      (visited fuel len ratio i) (seq j (remaining len ratio i)).
Proof.
  intros Hn HL Er.
  assert (Hr : (0 < ratio)%Q).
  { rewrite Er. change 0%Q with (inject_Z 0). rewrite <- Zlt_Qlt. lia. }
  induction fuel as [|fuel IH]; intros j i Ei Hfuel; cbn [visited];
    destruct (Qltb i (inject_Z (Z.of_nat len))) eqn:E.
  - apply Qltb_true in E.
    rewrite (remaining_step _ _ _ Hr E) in Hfuel. lia.
  - apply Qltb_false in E. rewrite (remaining_done _ _ _ Hr E). constructor.
  - apply Qltb_true in E.
    assert (Ei' : (i == inject_Z (Z.of_nat j * n))%Q).
    { rewrite Ei, Er, inject_Z_mult. reflexivity. }
    assert (Hjn : Z.of_nat j * n < Z.of_nat len).
    { rewrite Zlt_Qlt, <- Ei'. exact E. }
    assert (Ea : (Float64.add i ratio == i + ratio)%Q).
    { rewrite (add_exact (Z.of_nat j * n) n i ratio); try lia; try assumption.
      rewrite inject_Z_plus, Ei', Er. reflexivity. }
    rewrite (remaining_step _ _ _ Hr E) in Hfuel |- *.
    rewrite <- (remaining_comp _ _ _ _ Ea) in Hfuel |- *.
    cbn [seq]. constructor; [exact Ei|].
    apply IH; [|lia].
    rewrite Ea, Ei, Nat2Z.inj_succ. unfold Z.succ. rewrite inject_Z_plus.
    change (inject_Z 1) with 1%Q. ring.
  - apply Qltb_false in E. rewrite (remaining_done _ _ _ Hr E). constructor.
Qed.

Lemma Forall2_map_eq {A B C : Type} (R : A -> B -> Prop) (f : A -> C)
    (g : B -> C) xs ks :
  (forall x k, R x k -> f x = g k) -> Forall2 R xs ks -> map f xs = map g ks.
Proof.
  intros H F. induction F as [|x k xs ks Hxk _ IH]; [reflexivity|].
  cbn [map]. now rewrite (H x k Hxk), IH.
Qed.

Lemma remaining_zero len ratio :
  remaining len ratio 0 = Z.to_nat (Qceiling (inject_Z (Z.of_nat len) / ratio)).
Proof.
  unfold remaining.
  assert (E : ((inject_Z (Z.of_nat len) - 0) / ratio
               == inject_Z (Z.of_nat len) / ratio)%Q).
  { apply Qdiv_comp; [ring | reflexivity]. }
  now rewrite E.
Qed.

Lemma selection_comp ratio ratio' channelData from count :
  (ratio == ratio')%Q ->
  selection ratio channelData from count
  = selection ratio' channelData from count.
Proof.
  intros E. unfold selection. apply map_ext. intros k.
  assert (E2 : (inject_Z (Z.of_nat k) * ratio == inject_Z (Z.of_nat k) * ratio')%Q)
    by (rewrite E; reflexivity).
  now rewrite (Qfloor_comp _ _ E2).
Qed.

(** The ratio of a rate of at least 16000 is at least 1 after rounding
    too. *)
Lemma div_ratio sampleRate :
  (16000 <= sampleRate)%Q ->
  (1 <= Float64.div sampleRate RecorderProcessor._targetSampleRate)%Q.
Proof.
  intros HR. unfold Float64.div, RecorderProcessor._targetSampleRate.
  apply (round_ge_Z 1); [lia|].
  change (inject_Z 1) with 1%Q. apply Qle_shift_div_l; lra.
Qed.

(** The ratio of a multiple of 16000 is exact. *)
Lemma div_exact sampleRate n :
  1 <= n <= 2 ^ 53 ->
  (sampleRate == 16000 * inject_Z n)%Q ->
  (Float64.div sampleRate RecorderProcessor._targetSampleRate == inject_Z n)%Q /\
  (sampleRate / 16000 == inject_Z n)%Q.
Proof.
  intros Hn E.
  assert (Eq : (sampleRate / 16000 == inject_Z n)%Q).
  { rewrite E. field. }
  split; [|exact Eq].
  unfold Float64.div, RecorderProcessor._targetSampleRate.
  assert (Hp : (0 < sampleRate / 16000)%Q).
  { rewrite Eq. change 0%Q with (inject_Z 0). rewrite <- Zlt_Qlt. lia. }
  rewrite (round_comp_pos _ _ Hp Eq). apply round_Z. lia.
Qed.

(** A call of [process] at a rate of at least 16000. *)
Lemma process_run sampleRate channelData channels inputs p :
  (16000 <= sampleRate)%Q ->
  Z.of_nat (length channelData) <= 2 ^ 53 ->
  RecorderProcessor.wf p ->
  let ratio := Float64.div sampleRate RecorderProcessor._targetSampleRate in
  let ids := visited (length channelData) (length channelData) ratio 0 in
  exists p',
    RecorderProcessor.process sampleRate ((channelData :: channels) :: inputs) p
      = Some p' /\
    RecorderProcessor.wf p' /\
    extends p p' /\
    RecorderProcessor.emitted p' = (RecorderProcessor.emitted p + length ids)%nat /\
    stream p' = stream p ++ map (sample channelData) ids /\
    ascending 0 (Z.of_nat (length channelData)) (map Qfloor ids).
Proof.
  intros HR HL Hwf ratio ids. cbn [RecorderProcessor.process]. fold ratio.
  pose proof (div_ratio sampleRate HR) as Hratio. fold ratio in Hratio.
  destruct (loop_returns channelData ratio Hratio HL (length channelData) 0%Q p
              (Qle_refl 0)) as [p' Hl].
  { change (Qfloor 0) with 0. lia. }
  assert (Hr0 : (0 <= ratio)%Q) by lra.
  destruct (loop_visited channelData ratio Hr0 _ _ _ _ (Qle_refl 0) Hwf Hl)
    as [Hwf' [Hex [Hem Hs]]].
  exists p'. split; [exact Hl|]. split; [exact Hwf'|]. split; [exact Hex|].
  split; [exact Hem|]. split; [exact Hs|].
  apply (visited_ascending (length channelData) ratio Hratio HL
           (length channelData) 0%Q (Qle_refl 0)).
Qed.

Lemma remaining_fuel len ratio :
  (1 <= ratio)%Q -> (remaining len ratio 0 <= len)%nat.
Proof.
  intros Hr. rewrite remaining_zero.
  assert (Hlen0 : (0 <= inject_Z (Z.of_nat len))%Q).
  { change 0%Q with (inject_Z 0). rewrite <- Zle_Qle. lia. }
  assert (H : Qceiling (inject_Z (Z.of_nat len) / ratio)
              <= Qceiling (inject_Z (Z.of_nat len))).
  { apply Qceiling_resp_le, Qle_shift_div_r; [lra|].
    generalize dependent (inject_Z (Z.of_nat len)).
    intros L HL'. nra. }
  rewrite Qceiling_Z in H. lia.
Qed.

(** The indices of a call of [process] at [n] times 16000. *)
Lemma process_multiples sampleRate n len :
  1 <= n ->
  Z.of_nat len + n <= 2 ^ 53 ->
  (sampleRate == 16000 * inject_Z n)%Q ->
  let ratio := Float64.div sampleRate RecorderProcessor._targetSampleRate in
  Forall2 (fun x k => (x == inject_Z (Z.of_nat k * n))%Q)
    (visited len len ratio 0) (seq 0 (ceiling_count sampleRate len)).
Proof.
  intros Hn HL E ratio.
  destruct (div_exact sampleRate n ltac:(lia) E) as [Er Eq]. fold ratio in Er.
  assert (Hr : (1 <= ratio)%Q).
  { rewrite Er. change 1%Q with (inject_Z 1). rewrite <- Zle_Qle. lia. }
  assert (Hc : remaining len ratio 0 = ceiling_count sampleRate len).
  { rewrite remaining_zero. unfold ceiling_count. f_equal.
    apply Qceiling_comp. rewrite Er, Eq. reflexivity. }
  rewrite <- Hc.
  eapply Forall2_impl;
    [|apply (visited_multiples len n ratio Hn HL Er len 0%nat 0%Q)].
  - intros x k Hx. cbn beta in Hx. rewrite Hx, Er, inject_Z_mult. reflexivity.
  - change (inject_Z (Z.of_nat 0)) with 0%Q. ring.
  - apply remaining_fuel, Hr.
Qed.

(** A call of [process] at a multiple of 16000. *)
Lemma process_exact sampleRate n channelData :
  1 <= n ->
  Z.of_nat (length channelData) + n <= 2 ^ 53 ->
  (sampleRate == 16000 * inject_Z n)%Q ->
  let ratio := Float64.div sampleRate RecorderProcessor._targetSampleRate in
  map (sample channelData)
    (visited (length channelData) (length channelData) ratio 0)
  = selection (sampleRate / 16000) channelData 0
      (ceiling_count sampleRate (length channelData)).
Proof.
  intros Hn HL E ratio.
  destruct (div_exact sampleRate n ltac:(lia) E) as [_ Eq].
  unfold selection.
  apply (Forall2_map_eq (fun x k => (x == inject_Z (Z.of_nat k * n))%Q));
    [|apply (process_multiples sampleRate n _ Hn HL E)].
  intros x k Hx. unfold sample.
  assert (E2 : (inject_Z (Z.of_nat k) * (sampleRate / 16000)
                == inject_Z (Z.of_nat k * n))%Q).
  { rewrite Eq, inject_Z_mult. reflexivity. }
  now rewrite (Qfloor_comp _ _ Hx), (Qfloor_comp _ _ E2).
Qed.

Lemma positions_exact sampleRate n len :
  1 <= n ->
  Z.of_nat len + n <= 2 ^ 53 ->
  (sampleRate == 16000 * inject_Z n)%Q ->
  let ratio := Float64.div sampleRate RecorderProcessor._targetSampleRate in
  map Qfloor (visited len len ratio 0)
  = map (fun k => Z.of_nat k * n) (seq 0 (ceiling_count sampleRate len)).
Proof.
  intros Hn HL E ratio.
  apply (Forall2_map_eq (fun x k => (x == inject_Z (Z.of_nat k * n))%Q));
    [|apply (process_multiples sampleRate n len Hn HL E)].
  intros x k Hx. now rewrite (Qfloor_comp _ _ Hx), Qfloor_Z.
Qed.

Lemma pow2_m52 : (Float64.pow2 (-52) == 1 # 4503599627370496)%Q.
Proof. vm_compute. reflexivity. Qed.

(** Rounding a number of the normal range moves it by at most one part in
    2^53. *)
Lemma round_err y :
  (1 <= y)%Q ->
  (y - y * roundoff <= Float64.round y)%Q /\ (Float64.round y <= y + y * roundoff)%Q.
Proof.
  intros H1.
  destruct (ulp_normal y H1) as [Eu Hb].
  assert (Hy0 : (0 < y)%Q) by lra.
  destruct (binade_spec y Hy0) as [Hb1 _].
  unfold Float64.round. destruct (Qeq_bool y 0) eqn:E.
  { apply Qeq_bool_iff in E. lra. }
  rewrite Eu. set (b := Float64.binade y) in *.
  pose proof (pow2_pos (b - 52)) as Hu.
  assert (Eub : (Float64.pow2 (b - 52) == Float64.pow2 b * Float64.pow2 (-52))%Q).
  { rewrite <- pow2_plus. reflexivity. }
  rewrite pow2_m52 in Eub.
  destruct (rne_err (y / Float64.pow2 (b - 52))) as [Hr1 Hr2].
  assert (Ey : (y / Float64.pow2 (b - 52) * Float64.pow2 (b - 52) == y)%Q).
  { field. lra. }
  unfold roundoff.
  set (m := inject_Z (Float64.rne (y / Float64.pow2 (b - 52)))) in *.
  set (q := (y / Float64.pow2 (b - 52))%Q) in *.
  set (u := Float64.pow2 (b - 52)) in *. set (B := Float64.pow2 b) in *.
  clearbody m q u B. split; nra.
Qed.

(** The rounding errors of the index add up to at most [eps] an
    iteration: the index of the [k]-th iteration is within [k * eps] of
    [k * ratio]. *)
Lemma visited_bounds len ratio eps :
  (1 <= ratio)%Q -> Z.of_nat len <= 2 ^ 53 ->
  ((inject_Z (Z.of_nat len) + ratio) * roundoff <= eps)%Q ->
  forall fuel i a b,
    (0 <= i)%Q -> (b - a <= i)%Q -> (i <= b + a)%Q ->
    Z.of_nat len - Qfloor i <= Z.of_nat fuel ->
    let N := inject_Z (Z.of_nat (length (visited fuel len ratio i))) in
    (inject_Z (Z.of_nat len) <= b + a + N * (ratio + eps))%Q /\
    (visited fuel len ratio i <> [] ->
     (b - a + (N - 1) * (ratio - eps) < inject_Z (Z.of_nat len))%Q).
Proof.
  intros Hr HL He. induction fuel as [|fuel IH]; intros i a b H0 Hlo Hhi Hfuel;
    cbn [visited]; destruct (Qltb i (inject_Z (Z.of_nat len))) eqn:E.
  - apply Qltb_true in E.
    assert (Hf1 : Qfloor i < Z.of_nat len).
    { rewrite Zlt_Qlt. eapply Qle_lt_trans; [apply Qfloor_le | exact E]. }
    lia.
  - apply Qltb_false in E. cbn [length]. change (inject_Z (Z.of_nat 0)) with 0%Q.
    split; [lra | congruence].
  - apply Qltb_true in E.
    pose proof (add_floor i ratio len H0 Hr E HL) as Hstep.
    assert (Hy : (1 <= i + ratio)%Q) by lra.
    destruct (round_err (i + ratio) Hy) as [He1 He2].
    fold (Float64.add i ratio) in He1, He2.
    assert (Hd : (0 < roundoff)%Q) by reflexivity.
    assert (Hyd : ((i + ratio) * roundoff <= eps)%Q).
    { eapply Qle_trans; [|exact He].
      set (L := inject_Z (Z.of_nat len)) in *. clearbody L.
      set (d := roundoff) in *. clearbody d. nra. }
    destruct (IH (Float64.add i ratio) (a + eps)%Q (b + ratio)%Q) as [IH1 IH2].
    + apply add_nonneg; lra.
    + lra.
    + lra.
    + lia.
    + cbn [length]. rewrite Nat2Z.inj_succ. unfold Z.succ.
      rewrite inject_Z_plus. change (inject_Z 1) with 1%Q.
      set (N' := inject_Z (Z.of_nat (length (visited fuel len ratio (Float64.add i ratio))))) in *.
      split.
      * assert (Ex : ((N' + 1) * (ratio + eps) == N' * (ratio + eps) + (ratio + eps))%Q) by ring.
        rewrite Ex. lra.
      * intros _.
        assert (Ex : ((N' + 1 - 1) * (ratio - eps) == N' * (ratio - eps))%Q) by ring.
        rewrite Ex.
        destruct (visited fuel len ratio (Float64.add i ratio)) as [|v vs] eqn:Ev.
        -- cbn [length] in N'. change (inject_Z (Z.of_nat 0)) with 0%Q in N'.
           subst N'. lra.
        -- assert (Hne : v :: vs <> []) by discriminate.
           specialize (IH2 Hne).
           assert (Ex2 : ((N' - 1) * (ratio - eps) == N' * (ratio - eps) - (ratio - eps))%Q) by ring.
           rewrite Ex2 in IH2. lra.
  - apply Qltb_false in E. cbn [length]. change (inject_Z (Z.of_nat 0)) with 0%Q.
    split; [lra | congruence].
Qed.

Lemma mult_nonneg a b : (0 <= a)%Q -> (0 <= b)%Q -> (0 <= a * b)%Q.
Proof. apply Qmult_le_0_compat. Qed.

Lemma count_arith (x rho eps L N C : Q) :
  (1 <= x)%Q -> (x <= 16777216)%Q -> (0 <= L)%Q -> (L <= 16777216)%Q ->
  (x - x * roundoff <= rho)%Q -> (rho <= x + x * roundoff)%Q ->
  (eps == (L + rho) * roundoff)%Q ->
  (L <= C * x)%Q -> ((C - 1) * x < L)%Q ->
  (0 <= N)%Q ->
  (L <= N * (rho + eps))%Q ->
  ((1 <= N)%Q -> ((N - 1) * (rho - eps) < L)%Q) ->
  ~ (C + 2 <= N)%Q /\ ~ (N <= C - 2)%Q.
Proof.
  intros Hx1 HxM HL0 HLM Hr1 Hr2 Ee HC1 HC2 HN0 HA HB.
  unfold roundoff in *.
  set (d := (1 # 9007199254740992)%Q) in *.
  assert (Hd : (d == 1 # 9007199254740992)%Q) by reflexivity.
  clearbody d.
  set (K := (x * d + eps)%Q).
  assert (HC0 : (0 <= C)%Q).
  { destruct (Qlt_le_dec C 0) as [Hn|Hp]; [|exact Hp].
    exfalso. assert (C * x <= C * 1)%Q by nra. lra. }
  assert (HCM : (C <= 16777217)%Q).
  { destruct (Qlt_le_dec 16777217 C) as [Hn|Hp]; [|exact Hp].
    exfalso. assert (0 <= (C - 1) * (x - 1))%Q by (apply mult_nonneg; lra). lra. }
  assert (Hrho : (rho <= 2 * x)%Q) by nra.
  assert (HK0 : (0 <= K)%Q).
  { unfold K. rewrite Ee. nra. }
  assert (HK : (K <= 1 # 134217728)%Q).
  { unfold K. rewrite Ee.
    assert (x * d <= 16777216 * d)%Q by nra.
    assert ((L + rho) * d <= (3 * 16777216) * d)%Q by nra.
    lra. }
  assert (HCK : ((C + 1) * K <= 1 # 4)%Q).
  { assert (0 <= (16777218 - (C + 1)) * K)%Q by (apply mult_nonneg; lra).
    assert (0 <= 16777218 * ((1 # 134217728) - K))%Q by lra.
    lra. }
  assert (HCK2 : (0 <= C * K)%Q) by (apply mult_nonneg; lra).
  split.
  - intros Hn.
    assert (HN1 : (1 <= N)%Q) by lra.
    specialize (HB HN1).
    assert (Hre : (x - K <= rho - eps)%Q) by (unfold K; lra).
    assert (Hpos : (0 <= rho - eps)%Q) by lra.
    assert (H1 : (0 <= (N - 1 - (C + 1)) * (rho - eps))%Q)
      by (apply mult_nonneg; lra).
    assert (H2 : (0 <= (C + 1) * (rho - eps - (x - K)))%Q)
      by (apply mult_nonneg; lra).
    lra.
  - intros Hn.
    assert (Hre : (rho + eps <= x + K)%Q) by (unfold K; lra).
    assert (Hpos : (0 <= rho + eps)%Q).
    { rewrite Ee. nra. }
    assert (H1 : (0 <= (C - 2 - N) * (rho + eps))%Q)
      by (apply mult_nonneg; lra).
    assert (H2 : (0 <= (C - 2) * (x + K - (rho + eps)))%Q)
      by (apply mult_nonneg; lra).
    assert (H3 : (0 <= 3 * K)%Q) by lra.
    lra.
Qed.

(** For rates and blocks of any realistic size the rounding changes the
    number of samples taken by at most one. *)
Lemma count_within_one sampleRate len :
  (16000 <= sampleRate)%Q -> (sampleRate <= 16000 * 16777216)%Q ->
  Z.of_nat len <= 16777216 ->
  let n := length (visited len len
                     (Float64.div sampleRate RecorderProcessor._targetSampleRate) 0) in
  (ceiling_count sampleRate len <= n + 1)%nat /\
  (n <= ceiling_count sampleRate len + 1)%nat.
Proof.
  intros HR1 HR2 HL n.
  unfold Float64.div, RecorderProcessor._targetSampleRate in n.
  set (x := (sampleRate / 16000)%Q) in *.
  assert (Hx1 : (1 <= x)%Q) by (unfold x; apply Qle_shift_div_l; lra).
  assert (HxM : (x <= 16777216)%Q) by (unfold x; apply Qle_shift_div_r; lra).
  destruct (round_err x Hx1) as [Hr1 Hr2].
  set (rho := Float64.round x) in *.
  assert (Hrho : (1 <= rho)%Q).
  { apply (round_ge_Z 1); [lia | exact Hx1]. }
  set (Lq := inject_Z (Z.of_nat len)).
  assert (HL0 : (0 <= Lq)%Q).
  { unfold Lq. change 0%Q with (inject_Z 0). rewrite <- Zle_Qle. lia. }
  assert (HLM : (Lq <= 16777216)%Q).
  { unfold Lq. change 16777216%Q with (inject_Z 16777216). rewrite <- Zle_Qle. lia. }
  assert (HL53 : Z.of_nat len <= 2 ^ 53).
  { etransitivity; [exact HL | vm_compute; discriminate]. }
  destruct (visited_bounds len rho ((Lq + rho) * roundoff) Hrho HL53
              (Qle_refl _) len 0%Q 0%Q 0%Q (Qle_refl 0)) as [HA HB];
    [lra | lra | idtac |].
  { assert (E0 : Qfloor 0 = 0) by reflexivity. rewrite E0. lia. }
  fold n in HA, HB. fold Lq in HA, HB.
  set (N := inject_Z (Z.of_nat n)) in *.
  assert (HN0 : (0 <= N)%Q).
  { unfold N. change 0%Q with (inject_Z 0). rewrite <- Zle_Qle. lia. }
  set (c := Qceiling (Lq / x)).
  assert (HC1 : (Lq <= inject_Z c * x)%Q).
  { pose proof (Qle_ceiling (Lq / x)) as H. fold c in H.
    assert (E : (Lq / x * x == Lq)%Q) by (field; lra).
    rewrite <- E. apply Qmult_le_compat_r; lra. }
  assert (HC2 : ((inject_Z c - 1) * x < Lq)%Q).
  { pose proof (Qceiling_lt (Lq / x)) as H. fold c in H.
    unfold Z.sub in H. rewrite inject_Z_plus in H.
    change (inject_Z (- (1))) with (-1)%Q in H.
    assert (E : (Lq / x * x == Lq)%Q) by (field; lra).
    rewrite <- E. apply Qmult_lt_compat_r; lra. }
  destruct (count_arith x rho ((Lq + rho) * roundoff) Lq N (inject_Z c)
              Hx1 HxM HL0 HLM Hr1 Hr2 (Qeq_refl _) HC1 HC2 HN0) as [H1 H2].
  - lra.
  - intros HN1.
    assert (Hne : visited len len rho 0 <> []).
    { intros E. unfold N, n in HN1. rewrite E in HN1.
      vm_compute in HN1. apply HN1. reflexivity. }
    specialize (HB Hne). lra.
  - assert (Hc0 : 0 <= c).
    { unfold c. change 0 with (Qceiling 0). apply Qceiling_resp_le.
      apply Qle_shift_div_l; lra. }
    assert (Hz1 : Z.of_nat n < c + 2).
    { apply Z.lt_nge. intros H. apply H1. unfold N.
      change 2%Q with (inject_Z 2). rewrite <- inject_Z_plus, <- Zle_Qle. exact H. }
    assert (Hz2 : c - 2 < Z.of_nat n).
    { apply Z.lt_nge. intros H. apply H2. unfold N.
      change 2%Q with (inject_Z 2). unfold Qminus.
      change (- inject_Z 2)%Q with (inject_Z (-2)).
      rewrite <- inject_Z_plus, <- Zle_Qle. lia. }
    unfold ceiling_count. fold x. fold Lq. fold c. lia.
Qed.

(** C5, as the specification states it, fails: at 48 kHz a block of 128
    samples is sampled at the indices 0, 3, ..., 126, which are 43 samples,
    and [floor (128 / 3)] is 42. *)
Lemma resample_count_counterexample :
  (16000 <= 48000)%Q /\
  RecorderProcessor.wf RecorderProcessor.init /\
  exists p',
    RecorderProcessor.process 48000 [[repeat 0%Q 128]] RecorderProcessor.init
      = Some p' /\
    RecorderProcessor.emitted p' = 43%nat /\
    floor_count 48000 128 = 42%nat /\
    RecorderProcessor.emitted p' <>
      (RecorderProcessor.emitted RecorderProcessor.init + floor_count 48000 128)%nat.
Proof.
  split; [lra|]. split; [split; [reflexivity | vm_compute; lia]|].
  eexists. split; [vm_compute; reflexivity|].
  split; [reflexivity|]. split; [reflexivity|]. vm_compute. discriminate.
Qed.

(** C5, amended.  For a capture rate of at least 16000 and a block of [L]
    samples, [process] returns and every chunk it posts holds exactly the
    2048 samples of the buffer's capacity.  The samples it takes (those
    posted in chunks and those left in the accumulation buffer) number at
    most [L], and at least one when the block is not empty.  When the rate
    is a multiple of 16000 the index arithmetic is exact and they number
    [ceiling (L / (R / T))]; at any rate up to 2^24 times 16000, on a block
    of up to 2^24 samples, they number [ceiling (L / (R / T))] or one more
    or one less, the rounding of the index deciding. *)
Theorem resample_chunking (sampleRate : Q) (channelData : list Q)
    (channels : list (list Q)) (inputs : list (list (list Q)))
    (p : RecorderProcessor.t) :
  (16000 <= sampleRate)%Q ->
  Z.of_nat (length channelData) <= 2 ^ 53 ->
  RecorderProcessor.wf p ->
  exists p',
    RecorderProcessor.process sampleRate ((channelData :: channels) :: inputs) p
      = Some p' /\
    (exists new,
        RecorderProcessor.posted p' = RecorderProcessor.posted p ++ new /\
        Forall (fun c => length c = 2048%nat) new) /\
    RecorderProcessor.wf p' /\
    (RecorderProcessor.emitted p <= RecorderProcessor.emitted p'
       <= RecorderProcessor.emitted p + length channelData)%nat /\
    (channelData <> [] ->
     (RecorderProcessor.emitted p < RecorderProcessor.emitted p')%nat) /\
    (forall n,
        1 <= n -> Z.of_nat (length channelData) + n <= 2 ^ 53 ->
        (sampleRate == 16000 * inject_Z n)%Q ->
        RecorderProcessor.emitted p' =
          (RecorderProcessor.emitted p
           + ceiling_count sampleRate (length channelData))%nat) /\
    ((sampleRate <= 16000 * 16777216)%Q ->
     Z.of_nat (length channelData) <= 16777216 ->
     (RecorderProcessor.emitted p + ceiling_count sampleRate (length channelData)
        <= RecorderProcessor.emitted p' + 1 /\
      RecorderProcessor.emitted p'
        <= RecorderProcessor.emitted p
           + ceiling_count sampleRate (length channelData) + 1)%nat).
Proof.
  intros HR HL Hwf.
  destruct (process_run sampleRate channelData channels inputs p HR HL Hwf)
    as [p' [Hp [Hwf' [Hex [Hem [_ Ha]]]]]].
  exists p'. split; [exact Hp|]. split; [exact Hex|]. split; [exact Hwf'|].
  pose proof (ascending_length _ _ 0 (Nat2Z.is_nonneg _) Ha) as Hlen.
  rewrite length_map in Hlen.
  split; [lia|]. split.
  - intros Hne. rewrite Hem.
    destruct channelData as [|x r]; [congruence|].
    cbn [visited length]. 
    change (Qltb 0 (inject_Z (Z.of_nat (S (length r))))) with true.
    cbn [length]. lia.
  - split.
    + intros n Hn HLn E. rewrite Hem. f_equal.
      rewrite <- (length_map (sample channelData)).
      rewrite (process_exact sampleRate n channelData Hn HLn E).
      unfold selection. now rewrite length_map, length_seq.
    + intros HR2 HL2.
      destruct (count_within_one sampleRate (length channelData) HR HR2 HL2)
        as [H1 H2].
      rewrite Hem. lia.
Qed.

Lemma resample_chunking_witness :
  exists p',
    RecorderProcessor.process 48000 [[[1; 2; 3; 4; 5; 6; 7]%Q]]
      RecorderProcessor.init = Some p' /\
    RecorderProcessor.emitted p' =
      (RecorderProcessor.emitted RecorderProcessor.init
       + ceiling_count 48000 (length [1; 2; 3; 4; 5; 6; 7]%Q))%nat /\
    RecorderProcessor.wf p'.
Proof.
  destruct (resample_chunking 48000 [1; 2; 3; 4; 5; 6; 7]%Q [] []
              RecorderProcessor.init) as [p' [H1 [_ [H2 [_ [_ [H3 _]]]]]]].
  - lra.
  - vm_compute. discriminate.
  - split; [reflexivity | vm_compute; lia].
  - exists p'. split; [exact H1|]. split; [|exact H2].
    apply (H3 3); [lia | vm_compute; discriminate | reflexivity].
Defined.

(** ** Teardown: pending text and idempotence *)

Lemma savePending_committed now t prev :
  savePending now t prev =
    prev ++ committed now "-saved-input" "-saved-output"
              (currentTurnInputRef t) (currentTurnOutputRef t).
Proof.
  unfold savePending, committed, finalItem.
  destruct (truthy (trim (currentTurnInputRef t)));
    destruct (truthy (trim (currentTurnOutputRef t))); cbn [orb app].
  - now rewrite <- app_assoc.
  - reflexivity.
  - reflexivity.
  - now rewrite app_nil_r.
Qed.



Lemma clearTimer_idem r : clearTimer (clearTimer r) = clearTimer r.
Proof.
  unfold clearTimer. destruct (reconnectTimeoutRef r) eqn:E.
  - reflexivity.
  - now rewrite E.
Qed.

Lemma releaseCapture_idem c : releaseCapture (releaseCapture c) = releaseCapture c.
Proof.
  unfold releaseCapture.
  cbn [globalAudioContextRef sessionRef mediaStreamRef workletNodeRef
       sourceNodeRef calls callIf app].
  rewrite app_nil_r.
  destruct (globalAudioContextRef c) as [[| |]|]; reflexivity.
Qed.

Lemma stopOutputAudio_idem p : stopOutputAudio (stopOutputAudio p) = stopOutputAudio p.
Proof. reflexivity. Qed.

(** C9.  [stopSession] is idempotent: a second run right after the first
    changes nothing, whatever the state and the clock; it appends no
    transcript item, stops no node, makes no call on the capture graph and
    leaves the timer, the live set and the next start time as the first run
    left them.  With different flags the two runs amount to one run with
    their disjunction. *)
Theorem stopSession_idempotent (full1 full2 : bool) (now1 now2 : Z) (s : State) :
  stopSession full1 now2 (stopSession full1 now1 s) = stopSession full1 now1 s /\
  stopSession full2 now2 (stopSession full1 now1 s)
    = stopSession (full1 || full2) now1 s /\
  transcripts (ui (stopSession full2 now2 (stopSession full1 now1 s)))
    = transcripts (ui (stopSession full1 now1 s)) /\
  calls (capture (stopSession full2 now2 (stopSession full1 now1 s)))
    = calls (capture (stopSession full1 now1 s)) /\
  nodes (playback (stopSession full2 now2 (stopSession full1 now1 s)))
    = nodes (playback (stopSession full1 now1 s)) /\
  audioSourcesRef (playback (stopSession full1 now1 s)) = [] /\
  nextStartTimeRef (playback (stopSession full1 now1 s)) = 0%Q /\
  reconnectTimeoutRef (reconnect (stopSession full1 now1 s)) = None.
Proof.
  assert (G : forall f1 f2,
             stopSession f2 now2 (stopSession f1 now1 s)
             = stopSession (f1 || f2) now1 s).
  { intros f1 f2. unfold stopSession.
    cbn [ui capture playback turn reconnect status transcripts currentInput
         currentOutput errorMsg].
    rewrite releaseCapture_idem, clearTimer_idem.
    f_equal. f_equal. destruct f1, f2; reflexivity. }
  split; [rewrite G; now rewrite orb_diag|].
  split; [apply G|].
  rewrite G.
  repeat split.
  - unfold stopSession, clearTimer. cbn [reconnect].
    destruct (reconnectTimeoutRef (reconnect s)) eqn:E; [reflexivity | exact E].
Qed.

(** ** Flushing the playback schedule *)

Lemma update_length ns i n : length (update ns i n) = length ns.
Proof.
  revert i. induction ns as [|x ns IH]; intros [|i]; simpl; auto.
Qed.

Lemma update_nth ns i n j :
  nth_error (update ns i n) j =
    if Nat.eqb j i then option_map (fun _ => n) (nth_error ns j)
    else nth_error ns j.
Proof.
  revert i j. induction ns as [|x ns IH]; intros [|i] [|j]; simpl; auto;
    destruct (Nat.eqb j i); reflexivity.
Qed.

Lemma tryStop_length ns i : length (tryStop ns i) = length ns.
Proof.
  unfold tryStop. destruct (nth_error ns i) as [n|]; [|reflexivity].
  destruct (stop n); [apply update_length | reflexivity].
Qed.

Lemma tryStop_nth ns i j :
  nth_error (tryStop ns i) j =
    if Nat.eqb j i then option_map halted (nth_error ns j)
    else nth_error ns j.
Proof.
  unfold tryStop. destruct (nth_error ns i) as [n|] eqn:E.
  - unfold stop. destruct (stopped n) eqn:Es.
    + destruct (Nat.eqb_spec j i) as [->|]; [|reflexivity].
      rewrite E. cbn [option_map]. f_equal.
      destruct n as [st b sp]. cbn in Es. subst sp. reflexivity.
    + rewrite update_nth.
      destruct (Nat.eqb_spec j i) as [->|]; [|reflexivity].
      now rewrite E.
  - destruct (Nat.eqb_spec j i) as [->|]; [|reflexivity].
    now rewrite E.
Qed.

Lemma halted_twice n : halted (halted n) = halted n.
Proof. reflexivity. Qed.

(** After the [forEach], a node is stopped when it was in the live set and
    is otherwise as it was. *)
Lemma stopAll_nth live : forall ns j,
  nth_error (fold_left tryStop live ns) j =
    if existsb (Nat.eqb j) live then option_map halted (nth_error ns j)
    else nth_error ns j.
Proof.
  induction live as [|i live IH]; intros ns j; cbn [fold_left existsb].
  - reflexivity.
  - rewrite IH, tryStop_nth.
    destruct (Nat.eqb j i), (existsb (Nat.eqb j) live); cbn [orb];
      try reflexivity.
    destruct (nth_error ns j); reflexivity.
Qed.

Lemma stopAll_length live : forall ns, length (fold_left tryStop live ns) = length ns.
Proof.
  induction live as [|i live IH]; intros ns; cbn [fold_left].
  - reflexivity.
  - now rewrite IH, tryStop_length.
Qed.

(** C8, as the specification states it, fails: a buffer is scheduled when
    the output clock reads 5 and an interruption arrives when it reads 7;
    the flush leaves the next start time at 0, not at 7. *)
Lemma flush_resets_to_now_counterexample :
  let s0 := withPlayback resumeOutput initial in
  let s1 := onmessage (mkMessage None None false false (Some (str "AAAAAA=="))) 1000 5 s0 in
  let s2 := onmessage (mkMessage None None false true None) 2000 7 s1 in
  audioSourcesRef (playback s1) = [0%nat] /\
  audioSourcesRef (playback s2) = [] /\
  nextStartTimeRef (playback s2) = 0%Q /\
  ~ (nextStartTimeRef (playback s2) == 7)%Q.
Proof.
  cbv zeta. split; [vm_compute; reflexivity|].
  split; [reflexivity|]. split; [reflexivity|].
  intros H. vm_compute in H. discriminate.
Qed.

(** C8, amended.  The flush shared by teardown and interruption stops
    every node of the live set (an exception of [stop()] is swallowed),
    leaves the other nodes as they were, empties the set and sets the next
    start time to 0, so that the next buffer scheduled starts at the output
    clock's reading; a second flush, or a flush of an empty schedule,
    changes nothing more. *)
Theorem flush_idempotent (p : Playback) :
  let p' := stopOutputAudio p in
  audioSourcesRef p' = [] /\
  nextStartTimeRef p' = 0%Q /\
  length (nodes p') = length (nodes p) /\
  (forall i n, nth_error (nodes p) i = Some n ->
     nth_error (nodes p') i =
       Some (if existsb (Nat.eqb i) (audioSourcesRef p) then halted n else n)) /\
  stopOutputAudio p' = p' /\
  (audioSourcesRef p = [] -> nodes p' = nodes p) /\
  (forall currentTime : Q,
      (0 <= currentTime)%Q -> (Qmax (nextStartTimeRef p') currentTime == currentTime)%Q) /\
  (forall m now s,
      interrupted m = true ->
      playback (onMessageReceived m now s) = stopOutputAudio (playback s)) /\
  (forall full now s,
      playback (stopSession full now s) = stopOutputAudio (playback s)).
Proof.
  cbv zeta. unfold stopOutputAudio.
  cbn [audioSourcesRef nextStartTimeRef nodes fold_left].
  split; [reflexivity|]. split; [reflexivity|].
  split; [apply stopAll_length|].
  split.
  { intros i n Hn. rewrite stopAll_nth, Hn.
    destruct (existsb (Nat.eqb i) (audioSourcesRef p)); reflexivity. }
  split; [reflexivity|].
  split; [intros E; now rewrite E|].
  split; [intros t Ht; apply Q.max_r; exact Ht|].
  split; [|reflexivity].
  intros m now s Hi. unfold onMessageReceived. rewrite Hi.
  unfold interrupt, withPlayback. cbn [playback].
  assert (Hp : forall m s, playback (receiveText m s) = playback s).
  { intros m0 s0. unfold receiveText.
    destruct (inputTranscription m0) as [x|];
      destruct (outputTranscription m0) as [y|];
      repeat match goal with
             | |- context [truthy ?z] => destruct (truthy z)
             end; reflexivity. }
  assert (Hc : forall now s, playback (completeTurn now s) = playback s).
  { intros n0 s0. unfold completeTurn.
    repeat match goal with
           | |- context [truthy ?z] => destruct (truthy z)
           end; reflexivity. }
  destruct (turnComplete m); cbn [playback turn ui withUi withTurn];
    rewrite ?Hc, ?Hp; reflexivity.
Qed.

(** ** Turn accumulation *)

Lemma receiveText_ui m s :
  transcripts (ui (receiveText m s)) = transcripts (ui s).
Proof.
  unfold receiveText.
  destruct (inputTranscription m) as [x|];
    destruct (outputTranscription m) as [y|];
    repeat match goal with
           | |- context [truthy ?z] => destruct (truthy z)
           end; reflexivity.
Qed.

Lemma receiveText_input m s :
  inputTranscription m = None ->
  currentTurnInputRef (turn (receiveText m s)) = currentTurnInputRef (turn s).
Proof.
  intros E. unfold receiveText. rewrite E.
  destruct (outputTranscription m) as [y|];
    repeat match goal with
           | |- context [truthy ?z] => destruct (truthy z)
           end; reflexivity.
Qed.

Lemma completeTurn_spec now s :
  let input := currentTurnInputRef (turn s) in
  let output := currentTurnOutputRef (turn s) in
  let s' := completeTurn now s in
  transcripts (ui s') =
    transcripts (ui s) ++ committed now "-user" "-model" input output /\
  currentTurnInputRef (turn s') = (if truthy (trim input) then [] else input) /\
  currentTurnOutputRef (turn s') = (if truthy (trim output) then [] else output).
Proof.
  cbv zeta. unfold completeTurn, committed, finalItem.
  destruct (truthy (trim (currentTurnInputRef (turn s))));
    destruct (truthy (trim (currentTurnOutputRef (turn s))));
    cbn [ui turn transcripts withUi withTurn setTranscripts setCurrentInput
         setCurrentOutput setTurnInput setTurnOutput currentTurnInputRef
         currentTurnOutputRef app];
    rewrite <- ?app_assoc, ?app_nil_r; repeat split; reflexivity.
Qed.

Lemma receiveText_turn m s :
  turn (receiveText m s)
  = mkTurn (currentTurnInputRef (turn s) ++ textOf (inputTranscription m))
           (currentTurnOutputRef (turn s) ++ textOf (outputTranscription m)).
Proof.
  unfold receiveText, textOf.
  destruct (inputTranscription m) as [[|x xs]|];
    destruct (outputTranscription m) as [[|y ys]|];
    cbn [truthy turn withUi withTurn setTurnInput setTurnOutput
         currentTurnInputRef currentTurnOutputRef];
    rewrite ?app_nil_r; destruct (turn s); reflexivity.
Qed.

Lemma onMessageReceived_playback m now s :
  playback (onMessageReceived m now s)
  = if interrupted m then stopOutputAudio (playback s) else playback s.
Proof.
  unfold onMessageReceived, interrupt, completeTurn, receiveText.
  destruct (inputTranscription m) as [x|];
    destruct (outputTranscription m) as [y|];
    destruct (turnComplete m); destruct (interrupted m);
    repeat match goal with
           | |- context [truthy ?z] => destruct (truthy z)
           end; reflexivity.
Qed.

(** C4, as the specification states it, fails: on a message that carries
    both [interrupted] and [turnComplete] the commit runs first, so the
    model-side text is appended to the history before the interrupt empties
    the buffer. *)
Lemma interrupt_archives_counterexample :
  let s := mkState (mkUi CONNECTED [] (str "hi ") (str "partial answ") None)
             (mkCapture (Some running) (Some 0%nat) (Some 0%nat) (Some 1%nat)
                (Some 2%nat) [])
             (mkPlayback (Some running) (3 # 2)
                [0%nat] [mkNode 1 (Audio.mkAudioBuffer 24000 [0%Q; 0%Q]) false])
             (mkTurn (str "hi ") (str "partial answ"))
             (mkReconnect None 0 [] 0) in
  let m := mkMessage None None true true None in
  let s' := onMessageReceived m 10 s in
  interrupted m = true /\
  currentTurnOutputRef (turn s) = str "partial answ" /\
  currentTurnOutputRef (turn s') = [] /\
  transcripts (ui s) = [] /\
  transcripts (ui s') =
    [ mkItem (str "10-user") user (str "hi") None true 10;
      mkItem (str "10-model") model (str "partial answ") None true 10 ] /\
  transcripts (ui s') <> transcripts (ui s).
Proof.
  cbv zeta. repeat split; try reflexivity. discriminate.
Qed.

(** C4, amended.  A message first adds the text it carries to the two
    buffers.  If it is interrupted, the model-side buffer and the partial
    text shown for it end empty and playback is flushed: every node of the
    live set is stopped, the other nodes are as they were, the set is empty
    and the next start time is 0; if it is not also turn-complete, the
    history is as it was, so the discarded text is not archived, and the
    user-side buffer is as the message's text left it, unchanged when the
    message carries none.  If it is
    turn-complete, interrupted or not, exactly one finalized turn is
    appended for each direction whose trimmed buffer is not empty, the
    user's first, and that direction's buffer is emptied; a direction whose
    trimmed buffer is empty appends nothing.  A message that is not
    interrupted leaves playback as it was. *)
Theorem turn_commit_exclusivity (m : LiveServerMessage) (now : Z) (s : State) :
  let input := currentTurnInputRef (turn s) ++ textOf (inputTranscription m) in
  let output := currentTurnOutputRef (turn s) ++ textOf (outputTranscription m) in
  let s' := onMessageReceived m now s in
  (interrupted m = true ->
     currentTurnOutputRef (turn s') = [] /\
     currentOutput (ui s') = [] /\
     outputAudioContextRef (playback s') = outputAudioContextRef (playback s) /\
     audioSourcesRef (playback s') = [] /\
     nextStartTimeRef (playback s') = 0%Q /\
     length (nodes (playback s')) = length (nodes (playback s)) /\
     (forall i n, nth_error (nodes (playback s)) i = Some n ->
        nth_error (nodes (playback s')) i =
          Some (if existsb (Nat.eqb i) (audioSourcesRef (playback s))
                then halted n else n)) /\
     (turnComplete m = false ->
        transcripts (ui s') = transcripts (ui s) /\
        currentTurnInputRef (turn s') = input /\
        (inputTranscription m = None ->
         currentTurnInputRef (turn s') = currentTurnInputRef (turn s)))) /\
  (turnComplete m = true ->
     transcripts (ui s') =
       transcripts (ui s)
       ++ (if truthy (trim input)
           then [mkItem (numberToString now ++ str "-user") user (trim input)
                   None true now]
           else [])
       ++ (if truthy (trim output)
           then [mkItem (numberToString now ++ str "-model") model (trim output)
                   None true now]
           else []) /\
     currentTurnInputRef (turn s') = (if truthy (trim input) then [] else input) /\
     currentTurnOutputRef (turn s') =
       (if interrupted m then []
        else if truthy (trim output) then [] else output)) /\
  (interrupted m = false -> playback s' = playback s).
Proof.
  cbv zeta.
  pose proof (receiveText_turn m s) as Ht.
  pose proof (onMessageReceived_playback m now s) as Hp.
  assert (Hin : currentTurnInputRef (turn (receiveText m s))
                = currentTurnInputRef (turn s) ++ textOf (inputTranscription m))
    by now rewrite Ht.
  assert (Hout : currentTurnOutputRef (turn (receiveText m s))
                 = currentTurnOutputRef (turn s) ++ textOf (outputTranscription m))
    by now rewrite Ht.
  destruct (completeTurn_spec now (receiveText m s)) as [H1 [H2 H3]].
  rewrite receiveText_ui, Hin, Hout in H1. rewrite Hin in H2. rewrite Hout in H3.
  split; [|split].
  - intros Hi. rewrite Hi in Hp. rewrite Hp.
    unfold stopOutputAudio at 1 2 3 4 5.
    cbn [outputAudioContextRef audioSourcesRef nextStartTimeRef nodes].
    split.
    { unfold onMessageReceived. rewrite Hi. reflexivity. }
    split.
    { unfold onMessageReceived. rewrite Hi. reflexivity. }
    split; [reflexivity|]. split; [reflexivity|]. split; [reflexivity|].
    split; [apply stopAll_length|].
    split.
    { intros i n Hn. rewrite stopAll_nth, Hn.
      destruct (existsb (Nat.eqb i) (audioSourcesRef (playback s))); reflexivity. }
    intros Hc. unfold onMessageReceived. rewrite Hi, Hc.
    unfold interrupt.
    cbn [ui turn withUi withTurn withPlayback transcripts currentTurnInputRef].
    split; [apply receiveText_ui|]. split; [exact Hin|].
    apply receiveText_input.
  - intros Hc. unfold onMessageReceived. rewrite Hc.
    destruct (interrupted m); unfold interrupt;
      cbn [ui turn withUi withTurn withPlayback transcripts setCurrentOutput
           setTurnOutput currentTurnInputRef currentTurnOutputRef];
      (split; [exact H1 | split; [exact H2 | first [exact H3 | reflexivity]]]).
  - intros Hi. rewrite Hi in Hp. exact Hp.
Qed.

Lemma turn_commit_exclusivity_witness :
  let s := mkState (mkUi CONNECTED [] (str "hi ") (str "partial answ") None)
             (mkCapture (Some running) (Some 0%nat) (Some 0%nat) (Some 1%nat)
                (Some 2%nat) [])
             (mkPlayback (Some running) (3 # 2)
                [0%nat] [mkNode 1 (Audio.mkAudioBuffer 24000 [0%Q; 0%Q]) false])
             (mkTurn (str "hi ") (str "partial answ"))
             (mkReconnect None 0 [] 0) in
  let irq := mkMessage (Some (str "you")) None false true None in
  let done := mkMessage (Some (str "there")) None true false None in
  (transcripts (ui (onMessageReceived irq 10 s)) = [] /\
   turn (onMessageReceived irq 10 s) = mkTurn (str "hi you") [] /\
   nth_error (nodes (playback (onMessageReceived irq 10 s))) 0
     = Some (mkNode 1 (Audio.mkAudioBuffer 24000 [0%Q; 0%Q]) true)) /\
  (transcripts (ui (onMessageReceived done 10 s)) =
     [ mkItem (str "10-user") user (str "hi there") None true 10;
       mkItem (str "10-model") model (str "partial answ") None true 10 ] /\
   turn (onMessageReceived done 10 s) = mkTurn [] [] /\
   playback (onMessageReceived done 10 s) = playback s).
Proof.
  intros s irq done. split.
  - destruct (proj1 (turn_commit_exclusivity irq 10 s) eq_refl)
      as [_ [_ [_ [_ [_ [_ [Hn Hh]]]]]]].
    destruct (Hh eq_refl) as [H1 _].
    split; [exact H1|]. split; [reflexivity|].
    exact (Hn 0%nat _ eq_refl).
  - destruct (turn_commit_exclusivity done 10 s) as [_ [Hc Hp]].
    destruct (Hc eq_refl) as [H1 _].
    split; [exact H1|]. split; [reflexivity | exact (Hp eq_refl)].
Defined.

(** ** Playback scheduling *)

Lemma playAudio_scheduled b64 currentTime p buf :
  outputAudioContextRef p <> None ->
  truthy b64 = true ->
  Audio.decodeAudioData b64 24000 = Ok buf ->
  playAudio (Some b64) currentTime p =
    scheduleBuffer (Qmax (nextStartTimeRef p) currentTime) buf p.
Proof.
  intros Hc Ht Hd. unfold playAudio.
  destruct (outputAudioContextRef p); [|congruence].
  now rewrite Ht, Hd.
Qed.







(** ** Decode failures *)

(** C7, as the specification states it, fails: the payload [" "] is truthy
    and decodes to zero bytes, a multiple of 2, yet [decodeAudioData] fails
    on it, [createBuffer] refusing a length of zero.  The decoding also
    fails, with no decoded bytes to speak of, on a payload that is not
    base64, such as ["!"]. *)
Lemma decode_failure_counterexample :
  truthy (str " ") = true /\
  Audio.base64ToArrayBuffer (str " ") = Ok [] /\
  (length (@nil Z) mod 2 = 0)%nat /\
  Audio.decodeAudioData (str " ") 24000 = Throw NotSupportedError /\
  ~ (isOk (Audio.decodeAudioData (str " ") 24000) = false <->
     (length (@nil Z) mod 2 <> 0)%nat) /\
  Audio.base64ToArrayBuffer (str "!") = Throw InvalidCharacterError /\
  Audio.decodeAudioData (str "!") 24000 = Throw InvalidCharacterError.
Proof.
  split; [reflexivity|]. split; [reflexivity|]. split; [reflexivity|].
  split; [reflexivity|].
  split; [|split; reflexivity].
  intros [H _]. apply H; reflexivity.
Qed.

Lemma decodeAudioData_cases b64 rate :
  match Audio.base64ToArrayBuffer b64 with
  | Throw e => Audio.decodeAudioData b64 rate = Throw e
  | Ok bytes =>
      if (length bytes mod 2 =? 0)%nat then
        if (length bytes =? 0)%nat
        then Audio.decodeAudioData b64 rate = Throw NotSupportedError
        else if Audio.supportsRate rate
             then isOk (Audio.decodeAudioData b64 rate) = true
             else Audio.decodeAudioData b64 rate = Throw NotSupportedError
      else Audio.decodeAudioData b64 rate = Throw RangeError
  end.
Proof.
  unfold Audio.decodeAudioData.
  destruct (Audio.base64ToArrayBuffer b64) as [bytes|e]; [|reflexivity].
  cbn [bind]. unfold Audio.Int16Array.
  destruct (length bytes mod 2 =? 0)%nat eqn:Eeven; [|reflexivity].
  cbn [bind].
  destruct bytes as [|lo [|hi r]].
  - reflexivity.
  - discriminate.
  - cbn [Audio.int16_pairs length Nat.eqb Audio.createBuffer].
    destruct (Audio.supportsRate rate); reflexivity.
Qed.

(** C7, amended.  The decoding of an inbound frame, which is done at
    24000 Hz, fails exactly when the payload is not valid base64 or the
    bytes it decodes to are odd in number or none; a frame whose decoding
    fails leaves the playback state as it was, so the valid frames after it
    are decoded and scheduled as if it had not arrived. *)
Theorem decode_error_isolation (bad : jsstring) (currentTime : Q) (p : Playback) :
  isOk (Audio.decodeAudioData bad 24000) = false ->
  (forall b64,
      isOk (Audio.decodeAudioData b64 24000) = false <->
      match Audio.base64ToArrayBuffer b64 with
      | Throw _ => True
      | Ok bytes => (length bytes mod 2 <> 0)%nat \/ length bytes = 0%nat
      end) /\
  playAudio (Some bad) currentTime p = p /\
  (forall frames,
      playAll ((bad, currentTime) :: frames) p = playAll frames p) /\
  (forall good t buf,
      outputAudioContextRef p <> None ->
      truthy good = true ->
      Audio.decodeAudioData good 24000 = Ok buf ->
      nodes (playAll [(bad, currentTime); (good, t)] p)
        = nodes p ++ [mkNode (Qmax (nextStartTimeRef p) t) buf false]).
Proof.
  intros Hbad.
  assert (Hskip : playAudio (Some bad) currentTime p = p).
  { unfold playAudio. destruct (outputAudioContextRef p); [|reflexivity].
    destruct (truthy bad); [|reflexivity].
    destruct (Audio.decodeAudioData bad 24000); [discriminate | reflexivity]. }
  split.
  { intros b64. pose proof (decodeAudioData_cases b64 24000) as H.
    change (Audio.supportsRate 24000) with true in H. cbv iota in H.
    destruct (Audio.base64ToArrayBuffer b64) as [bytes|e].
    - destruct (length bytes mod 2 =? 0)%nat eqn:Eeven.
      + apply Nat.eqb_eq in Eeven.
        destruct (length bytes =? 0)%nat eqn:Ezero.
        * apply Nat.eqb_eq in Ezero. rewrite H. cbn [isOk]. tauto.
        * apply Nat.eqb_neq in Ezero. rewrite H.
          split; [discriminate | intros [?|?]; contradiction].
      + apply Nat.eqb_neq in Eeven. rewrite H. cbn [isOk]. tauto.
    - rewrite H. cbn [isOk]. tauto. }
  split; [exact Hskip|].
  split.
  { intros frames. cbn [playAll]. now rewrite Hskip. }
  intros good t buf Hc Ht Hd. cbn [playAll]. rewrite Hskip.
  now rewrite (playAudio_scheduled good t p buf Hc Ht Hd).
Qed.

Lemma decode_error_isolation_witness :
  let p := mkPlayback (Some running) 0%Q [] [] in
  Audio.decodeAudioData (str "AAAA") 24000 = Throw RangeError /\
  playAudio (Some (str "AAAA")) 5 p = p /\
  length (nodes (playAll [(str "AAAA", 5%Q); (str "AAA=", 6%Q)] p)) = 1%nat.
Proof.
  intros p.
  destruct (decode_error_isolation (str "AAAA") 5 p eq_refl) as [_ [H1 [H2 _]]].
  split; [reflexivity|]. split; [exact H1|].
  rewrite H2. reflexivity.
Defined.

(** ** Bounded reconnection *)

Lemma clearTimer_tracked r :
  tracked r ->
  clearTimer r = mkReconnect None (retryCountRef r) [] (timersSet r).
Proof.
  intros H. unfold clearTimer, tracked in *.
  destruct r as [ref n ts k]. cbn in *.
  destruct ref as [t|].
  - f_equal. induction ts as [|x ts IH]; [reflexivity|].
    cbn [filter].
    assert (Hx : Some t = Some (timerId x)) by (apply H; now left).
    injection Hx as ->. rewrite Nat.eqb_refl. cbn [negb].
    apply IH. intros y Hy. apply H. now right.
  - destruct ts as [|x ts]; [reflexivity|].
    specialize (H x (or_introl eq_refl)). discriminate.
Qed.

Lemma stopSession_reconnect full now s :
  reconnect (stopSession full now s) = clearTimer (reconnect s).
Proof. reflexivity. Qed.

Lemma stopSession_status full now s :
  status (ui (stopSession full now s))
  = if full then DISCONNECTED else status (ui s).
Proof. reflexivity. Qed.

Lemma stopSession_errorMsg full now s :
  errorMsg (ui (stopSession full now s)) = errorMsg (ui s).
Proof. reflexivity. Qed.

(** An error while retries remain. *)
Lemma onerror_retry err now s :
  tracked (reconnect s) ->
  retryCountRef (reconnect s) < MAX_RETRIES ->
  let s' := onerror err now s in
  status (ui s') = CONNECTING /\
  errorMsg (ui s') =
    Some (str "Connection lost. Reconnecting ("
            ++ numberToString (retryCountRef (reconnect s) + 1)
            ++ str "/" ++ numberToString MAX_RETRIES ++ str ")...") /\
  reconnect s' =
    mkReconnect (Some (timersSet (reconnect s)))
      (retryCountRef (reconnect s) + 1)
      [mkTimer (timersSet (reconnect s)) 2000]
      (S (timersSet (reconnect s))).
Proof.
  intros Ht Hlt. cbv zeta. unfold onerror.
  apply Z.ltb_lt in Hlt. rewrite Hlt.
  split; [reflexivity|]. split; [reflexivity|].
  transitivity (setTimeout 2000
                  (clearTimer (setRetryCount (retryCountRef (reconnect s) + 1)
                                 (reconnect s)))); [reflexivity|].
  rewrite clearTimer_tracked.
  - reflexivity.
  - intros t Hin. apply (Ht t Hin).
Qed.

(** An error once the retries are used up. *)
Lemma onerror_exhausted err now s :
  tracked (reconnect s) ->
  MAX_RETRIES <= retryCountRef (reconnect s) ->
  let s' := onerror err now s in
  status (ui s') = ERROR /\
  errorMsg (ui s') = Some (errorText err ++ str " (Max retries reached)") /\
  reconnect s' =
    mkReconnect None (retryCountRef (reconnect s)) [] (timersSet (reconnect s)).
Proof.
  intros Ht Hge. cbv zeta. unfold onerror.
  apply Z.ltb_ge in Hge. rewrite Hge.
  split; [reflexivity|]. split; [reflexivity|].
  transitivity (clearTimer (reconnect s)); [reflexivity|].
  now apply clearTimer_tracked.
Qed.

Lemma startSession_reconnect API o now s :
  tracked (reconnect s) ->
  reconnect (startSession API o now s) = reconnect s \/
  reconnect (startSession API o now s)
    = mkReconnect None (retryCountRef (reconnect s)) [] (timersSet (reconnect s)).
Proof.
  intros Ht. unfold startSession.
  destruct API as [[|c k]|]; [now left | | now left].
  destruct o as [a b c0|msg]; [now left|].
  right. transitivity (clearTimer (reconnect s)); [reflexivity|].
  now apply clearTimer_tracked.
Qed.

(** A timer firing changes neither the retry counter nor the number of
    timers armed, and leaves at most the timers that were pending. *)
Lemma timerFired_reconnect API t o now s :
  tracked (reconnect s) ->
  let r := reconnect s in
  let r' := reconnect (timerFired API t o now s) in
  retryCountRef r' = retryCountRef r /\ timersSet r' = timersSet r /\
  tracked r' /\ (timers r = [] -> timers r' = []).
Proof.
  intros Ht. cbv zeta. unfold timerFired.
  destruct (existsb (fun x => (timerId x =? t)%nat) (timers (reconnect s))) eqn:E.
  - set (s1 := withReconnect _ s).
    assert (Ht1 : tracked (reconnect s1)).
    { unfold s1, tracked. cbn [reconnect withReconnect timers reconnectTimeoutRef].
      intros x Hx. apply filter_In in Hx. apply Ht, Hx. }
    destruct (startSession_reconnect API o now s1 Ht1) as [H|H]; rewrite H.
    + unfold s1. cbn [reconnect withReconnect retryCountRef timersSet timers].
      repeat split; try exact Ht1.
      intros E0. rewrite E0 in E. discriminate.
    + cbn [retryCountRef timersSet timers]. repeat split.
      intros x [].
  - repeat split; auto.
Qed.

Lemma tracked_single ref n k ms : tracked (mkReconnect (Some k) n [mkTimer k ms] ref).
Proof.
  intros t [<-|[]]. reflexivity.
Qed.

Lemma tracked_none ref n k : tracked (mkReconnect ref n [] k).
Proof. intros t []. Qed.

Lemma tracked_initial : tracked (reconnect initial).
Proof. apply tracked_none. Qed.

Lemma clearTimer_keeps r : tracked r -> tracked (clearTimer r).
Proof.
  intros H. rewrite (clearTimer_tracked r H). apply tracked_none.
Qed.

(** Every handler keeps the pending timers tracked. *)
Lemma tracked_handle API e now s :
  tracked (reconnect s) -> tracked (reconnect (handle API e now s)).
Proof.
  intros H. destruct e; cbn [handle].
  - exact H.
  - assert (E : reconnect (onmessage m now currentTime s) = reconnect s).
    { unfold onmessage, onMessageReceived, interrupt, completeTurn, receiveText.
      destruct (inputTranscription m) as [x|];
        destruct (outputTranscription m) as [y|];
        destruct (turnComplete m); destruct (interrupted m);
        repeat match goal with
               | |- context [truthy ?z] => destruct (truthy z)
               end; reflexivity. }
    rewrite E. exact H.
  - unfold onclose. destruct captured; try exact H;
      rewrite stopSession_reconnect; now apply clearTimer_keeps.
  - destruct (Z.ltb_spec (retryCountRef (reconnect s)) MAX_RETRIES) as [Hlt|Hge].
    + destruct (onerror_retry err now s H Hlt) as [_ [_ E]].
      rewrite E. apply tracked_single.
    + destruct (onerror_exhausted err now s H Hge) as [_ [_ E]].
      rewrite E. apply tracked_none.
  - apply (timerFired_reconnect API t o now s H).
  - exact H.
  - destruct (startSession_reconnect API o now s H) as [E|E]; rewrite E;
      [exact H | apply tracked_none].
  - unfold handleDisconnect. rewrite stopSession_reconnect.
    apply clearTimer_keeps. exact H.
Qed.

(** In every state the page reaches, the pending timers are tracked. *)
Lemma tracked_run API evs : forall s,
  tracked (reconnect s) -> tracked (reconnect (run API evs s)).
Proof.
  induction evs as [|[e now] evs IH]; intros s H; cbn [run].
  - exact H.
  - apply IH, tracked_handle, H.
Qed.

(** One more turn of the retry loop: the pending timer fires or not, then
    an error arrives while retries remain. *)
Lemma retry_round API t o err now1 now2 s n k ref ts :
  reconnect s = mkReconnect ref n ts k ->
  tracked (reconnect s) ->
  n < MAX_RETRIES ->
  let s' := onerror err now2 (timerFired API t o now1 s) in
  status (ui s') = CONNECTING /\
  reconnect s' = mkReconnect (Some k) (n + 1) [mkTimer k 2000] (S k).
Proof.
  intros Hr Ht Hn. cbv zeta.
  destruct (timerFired_reconnect API t o now1 s Ht) as [H1 [H2 [H3 _]]].
  rewrite Hr in H1, H2. cbn [retryCountRef timersSet] in H1, H2.
  destruct (onerror_retry err now2 (timerFired API t o now1 s) H3) as [Hs [_ Hc]].
  - rewrite H1. exact Hn.
  - split; [exact Hs|]. rewrite Hc, H1, H2. reflexivity.
Qed.

(** Once the retries are used up and no timer is pending, errors and stale
    timers arm nothing. *)
Lemma exhausted_forever API more : forall s n k,
  Forall retrying more ->
  reconnect s = mkReconnect None n [] k -> MAX_RETRIES <= n ->
  status (ui s) = ERROR ->
  reconnect (run API more s) = mkReconnect None n [] k /\
  status (ui (run API more s)) = ERROR.
Proof.
  induction more as [|[e now] more IH]; intros s n k Hm Hr Hn Hs.
  - split; assumption.
  - inversion Hm as [|? ? He Hm']; subst. cbn [run].
    destruct e; cbn in He; try contradiction; cbn [handle].
    + destruct (onerror_exhausted err now s) as [H1 [_ H3]].
      * rewrite Hr. apply tracked_none.
      * rewrite Hr. exact Hn.
      * rewrite Hr in H3. cbn [retryCountRef timersSet] in H3.
        apply (IH _ n k Hm' H3 Hn H1).
    + assert (E : timerFired API t o now s = s).
      { unfold timerFired. rewrite Hr. reflexivity. }
      rewrite E. apply (IH _ n k Hm' Hr Hn Hs).
Qed.

(** C2.  After a successful connect the retry counter is 0.  Four errors
    in a row, the timers between them firing or not, take the session to
    [CONNECTING] three times, each time adding one to the counter and arming
    one restart 2000 ms later, and the fourth takes it to [ERROR] with the
    error's message followed by [" (Max retries reached)"] and no restart
    pending; three restarts were armed in all, and no error or timer after
    that arms another. *)
Theorem retry_bound (API : option jsstring) (s : State) (sess : nat)
    (e1 e2 e3 e4 : option jsstring) (t1 t2 t3 : nat) (o1 o2 o3 : StartOutcome)
    (n1 n2 n3 n4 n5 n6 n7 : Z) :
  tracked (reconnect s) ->
  let k := timersSet (reconnect s) in
  let s0 := onopen sess s in
  let s1 := onerror e1 n1 s0 in
  let s2 := onerror e2 n3 (timerFired API t1 o1 n2 s1) in
  let s3 := onerror e3 n5 (timerFired API t2 o2 n4 s2) in
  let s4 := onerror e4 n7 (timerFired API t3 o3 n6 s3) in
  (status (ui s0) = CONNECTED /\ retryCountRef (reconnect s0) = 0) /\
  (status (ui s1) = CONNECTING /\
   reconnect s1 = mkReconnect (Some k) 1 [mkTimer k 2000] (S k)) /\
  (status (ui s2) = CONNECTING /\
   reconnect s2 = mkReconnect (Some (S k)) 2 [mkTimer (S k) 2000] (S (S k))) /\
  (status (ui s3) = CONNECTING /\
   reconnect s3 =
     mkReconnect (Some (S (S k))) 3 [mkTimer (S (S k)) 2000] (S (S (S k)))) /\
  (status (ui s4) = ERROR /\
   errorMsg (ui s4) = Some (errorText e4 ++ str " (Max retries reached)") /\
   reconnect s4 = mkReconnect None 3 [] (S (S (S k)))) /\
  (forall more,
      Forall retrying more ->
      reconnect (run API more s4) = mkReconnect None 3 [] (S (S (S k))) /\
      status (ui (run API more s4)) = ERROR).
Proof.
  intros Ht k s0 s1 s2 s3 s4.
  assert (H0 : status (ui s0) = CONNECTED /\ retryCountRef (reconnect s0) = 0)
    by (split; reflexivity).
  assert (Ht0 : tracked (reconnect s0)) by exact Ht.
  assert (Hk0 : timersSet (reconnect s0) = k) by reflexivity.
  destruct (onerror_retry e1 n1 s0 Ht0) as [Hs1 [_ Hr1]];
    [unfold MAX_RETRIES; rewrite (proj2 H0); lia|].
  rewrite (proj2 H0), Hk0 in Hr1. fold s1 in Hs1, Hr1.
  change (0 + 1) with 1 in Hr1.
  destruct (retry_round API t1 o1 e2 n2 n3 s1 _ _ _ _ Hr1) as [Hs2 Hr2];
    [rewrite Hr1; apply tracked_single | unfold MAX_RETRIES; lia |].
  fold s2 in Hs2, Hr2. change (1 + 1) with 2 in Hr2.
  destruct (retry_round API t2 o2 e3 n4 n5 s2 _ _ _ _ Hr2) as [Hs3 Hr3];
    [rewrite Hr2; apply tracked_single | unfold MAX_RETRIES; lia |].
  fold s3 in Hs3, Hr3. change (2 + 1) with 3 in Hr3.
  assert (Ht3 : tracked (reconnect s3)) by (rewrite Hr3; apply tracked_single).
  destruct (timerFired_reconnect API t3 o3 n6 s3 Ht3) as [Hc [Hn [Ht3' _]]].
  rewrite Hr3 in Hc, Hn. cbn [retryCountRef timersSet] in Hc, Hn.
  destruct (onerror_exhausted e4 n7 (timerFired API t3 o3 n6 s3) Ht3')
    as [Hs4 [Hm4 Hr4]]; [rewrite Hc; unfold MAX_RETRIES; lia|].
  rewrite Hc, Hn in Hr4. fold s4 in Hs4, Hm4, Hr4.
  split; [exact H0|]. split; [split; assumption|].
  split; [split; assumption|]. split; [split; assumption|].
  split; [repeat split; assumption|].
  intros more Hmore.
  apply (exhausted_forever API more s4 3 (S (S (S k))) Hmore Hr4);
    [unfold MAX_RETRIES; lia | exact Hs4].
Qed.

Lemma retry_bound_witness :
  let key := Some (str "key") in
  let s := startSession key (Wired 0 1 2) 0 initial in
  let s4 :=
    onerror None 7
      (timerFired key 2 (Wired 6 7 8) 6
         (onerror None 5
            (timerFired key 1 (Wired 3 4 5) 4
               (onerror None 3
                  (timerFired key 0 (Wired 0 1 2) 2
                     (onerror None 1 (onopen 0 s))))))) in
  tracked (reconnect s) /\
  status (ui s4) = ERROR /\
  errorMsg (ui s4) = Some (str "Connection lost (Max retries reached)") /\
  reconnect s4 = mkReconnect None 3 [] 3.
Proof.
  intros key s s4.
  assert (Ht : tracked (reconnect s)) by (intros t []).
  split; [exact Ht|].
  destruct (retry_bound key s 0 None None None None 0 1 2
              (Wired 0 1 2) (Wired 3 4 5) (Wired 6 7 8) 1 2 3 4 5 6 7 Ht)
    as [_ [_ [_ [_ [[H1 [H2 H3]] _]]]]].
  split; [exact H1|]. split; [exact H2 | exact H3].
Defined.

(* ================================================================== *)
(** * Further properties of the sources *)
(* ================================================================== *)

(** ** The quantizer of [createPcmBlob] *)

Lemma Qtruncate_mono a b : (a <= b)%Q -> Qtruncate a <= Qtruncate b.
Proof.
  intros H. unfold Qtruncate.
  destruct (Qle_bool 0 a) eqn:Ea; destruct (Qle_bool 0 b) eqn:Eb.
  - now apply Qfloor_resp_le.
  - apply Qle_bool_iff in Ea.
    assert (~ (0 <= b)%Q) by (rewrite <- Qle_bool_iff; congruence). lra.
  - assert (Ha : ~ (0 <= a)%Q) by (rewrite <- Qle_bool_iff; congruence).
    apply Qle_bool_iff in Eb.
    apply Z.le_trans with 0.
    + change 0 with (Qceiling 0). apply Qceiling_resp_le. lra.
    + change 0 with (Qfloor 0). now apply Qfloor_resp_le.
  - now apply Qceiling_resp_le.
Qed.

Lemma Qtruncate_Z z : Qtruncate (inject_Z z) = z.
Proof.
  unfold Qtruncate. destruct (Qle_bool 0 (inject_Z z));
    [apply Qfloor_Z | apply Qceiling_Z].
Qed.

(** The clamp of any number lies in [-1, 1] and is monotone. *)
Lemma clamp_range x :
  (-1 <= Qmax (-1) (Qmin 1 x))%Q /\ (Qmax (-1) (Qmin 1 x) <= 1)%Q.
Proof.
  split.
  - apply Q.le_max_l.
  - apply Q.max_lub; [lra | apply Q.le_min_l].
Qed.

Lemma clamp_mono x y :
  (x <= y)%Q -> (Qmax (-1) (Qmin 1 x) <= Qmax (-1) (Qmin 1 y))%Q.
Proof.
  intros H. apply Q.max_le_compat_l. apply Q.min_le_compat_l. exact H.
Qed.

Lemma Qtruncate_comp a b : (a == b)%Q -> Qtruncate a = Qtruncate b.
Proof.
  intros E. apply Z.le_antisymm; apply Qtruncate_mono; rewrite E; apply Qle_refl.
Qed.

Lemma Qtruncate_between lo hi q :
  (inject_Z lo <= q)%Q -> (q <= inject_Z hi)%Q -> lo <= Qtruncate q <= hi.
Proof.
  intros H1 H2. split.
  - rewrite <- (Qtruncate_Z lo). now apply Qtruncate_mono.
  - rewrite <- (Qtruncate_Z hi). now apply Qtruncate_mono.
Qed.

(** The number [pcm16] hands to the [Int16Array], before the store. *)
Lemma scaled_range s :
  (-1 <= s)%Q -> (s <= 1)%Q ->
  int16 (Qtruncate (if Qltb s 0 then s * 32768 else s * 32767)%Q).
Proof.
  intros Hlo Hhi. unfold int16.
  apply Qtruncate_between.
  - change (inject_Z (-32768)) with (-32768)%Q.
    destruct (Qltb s 0) eqn:E;
      [apply Qltb_true in E | apply Qltb_false in E]; lra.
  - change (inject_Z 32767) with 32767%Q.
    destruct (Qltb s 0) eqn:E;
      [apply Qltb_true in E | apply Qltb_false in E]; lra.
Qed.

Lemma pcm16_truncates x :
  Audio.pcm16 x =
    Qtruncate (if Qltb (Qmax (-1) (Qmin 1 x)) 0
               then Qmax (-1) (Qmin 1 x) * 32768
               else Qmax (-1) (Qmin 1 x) * 32767)%Q.
Proof.
  unfold Audio.pcm16, ToInt16. apply wrap16_int16.
  apply scaled_range; apply clamp_range.
Qed.

Lemma scaled_mono s t :
  (s <= t)%Q ->
  ((if Qltb s 0 then s * 32768 else s * 32767)
   <= (if Qltb t 0 then t * 32768 else t * 32767))%Q.
Proof.
  intros H.
  destruct (Qltb s 0) eqn:Es; destruct (Qltb t 0) eqn:Et;
    try apply Qltb_true in Es; try apply Qltb_false in Es;
    try apply Qltb_true in Et; try apply Qltb_false in Et; lra.
Qed.

(** X1.  The quantizer of [createPcmBlob] is defined on every finite
    sample: its value always fits 16 bits, it never decreases when the
    sample increases, and samples outside [-1, 1] saturate at 32767 and
    -32768. *)
Theorem pcm16_monotone_saturating (x y : Q) :
  (x <= y)%Q ->
  int16 (Audio.pcm16 x) /\ int16 (Audio.pcm16 y) /\
  Audio.pcm16 x <= Audio.pcm16 y /\
  ((1 <= y)%Q -> Audio.pcm16 y = 32767) /\
  ((x <= -1)%Q -> Audio.pcm16 x = -32768).
Proof.
  intros H.
  split; [apply wrap16_range|]. split; [apply wrap16_range|].
  split.
  { rewrite !pcm16_truncates. apply Qtruncate_mono, scaled_mono, clamp_mono, H. }
  split.
  - intros Hy. rewrite pcm16_truncates.
    assert (E : (Qmax (-1) (Qmin 1 y) == 1)%Q).
    { rewrite Q.min_l by exact Hy. apply Q.max_r. lra. }
    destruct (Qltb (Qmax (-1) (Qmin 1 y)) 0) eqn:Ey.
    + apply Qltb_true in Ey. lra.
    + rewrite <- (Qtruncate_Z 32767). apply Qtruncate_comp.
      rewrite E. reflexivity.
  - intros Hx. rewrite pcm16_truncates.
    assert (E : (Qmax (-1) (Qmin 1 x) == -1)%Q).
    { rewrite Q.max_l; [reflexivity|].
      eapply Qle_trans; [apply Q.le_min_r | exact Hx]. }
    destruct (Qltb (Qmax (-1) (Qmin 1 x)) 0) eqn:Ex.
    + rewrite <- (Qtruncate_Z (-32768)). apply Qtruncate_comp.
      rewrite E. reflexivity.
    + apply Qltb_false in Ex. lra.
Qed.

Lemma pcm16_monotone_saturating_witness :
  Audio.pcm16 (1 # 3) <= Audio.pcm16 (7 # 2) /\ Audio.pcm16 (7 # 2) = 32767.
Proof.
  assert (H : (1 # 3 <= 7 # 2)%Q) by lra.
  destruct (pcm16_monotone_saturating (1 # 3) (7 # 2) H) as [_ [_ [H1 [H2 _]]]].
  split; [exact H1 | apply H2; lra].
Defined.

(** ** The decoder *)

Lemma mod2_step n : (S (S n) mod 2 = n mod 2)%nat.
Proof.
  change (S (S n)) with (2 + n)%nat.
  rewrite Nat.add_comm. apply (Nat.Div0.mod_add n 1 2).
Qed.

Lemma int16_pairs_length bytes :
  (length bytes mod 2 = 0)%nat ->
  (2 * length (Audio.int16_pairs bytes) = length bytes)%nat.
Proof.
  assert (H : forall n bs, (length bs <= n)%nat -> (length bs mod 2 = 0)%nat ->
                           (2 * length (Audio.int16_pairs bs) = length bs)%nat).
  { induction n as [|n IH]; intros bs Hn He.
    - destruct bs; [reflexivity | cbn in Hn; lia].
    - destruct bs as [|lo [|hi r]].
      + reflexivity.
      + discriminate.
      + cbn [Audio.int16_pairs length]. cbn [length] in Hn, He.
        rewrite mod2_step in He.
        assert (Hr : (2 * length (Audio.int16_pairs r) = length r)%nat)
          by (apply IH; [lia | exact He]).
        lia. }
  intros He. apply (H (length bytes)); [lia | exact He].
Qed.

Lemma int16_pairs_range bytes : Forall int16 (Audio.int16_pairs bytes).
Proof.
  assert (H : forall n bs, (length bs <= n)%nat -> Forall int16 (Audio.int16_pairs bs)).
  { induction n as [|n IH]; intros bs Hn.
    - destruct bs; [constructor | cbn in Hn; lia].
    - destruct bs as [|lo [|hi r]]; try constructor.
      + apply wrap16_range.
      + apply IH. cbn [length] in Hn. lia. }
  apply (H (length bytes)). lia.
Qed.

Lemma decoded_range v : int16 v -> (-1 <= decoded v)%Q /\ (decoded v < 1)%Q.
Proof.
  unfold int16. intros [Hlo Hhi].
  assert (H1 : (inject_Z (-32768) <= inject_Z v)%Q) by (rewrite <- Zle_Qle; lia).
  assert (H2 : (inject_Z v <= inject_Z 32767)%Q) by (rewrite <- Zle_Qle; lia).
  change (inject_Z (-32768)) with (-32768)%Q in H1.
  change (inject_Z 32767) with 32767%Q in H2.
  qconst. set (c := inject_Z v) in *. clearbody c. split; lra.
Qed.

Lemma supportsRate_true rate :
  (8000 <= rate)%Q -> (rate <= 96000)%Q -> Audio.supportsRate rate = true.
Proof.
  intros H1 H2. unfold Audio.supportsRate.
  apply andb_true_intro. split; apply Qle_bool_iff; assumption.
Qed.

(** X2.  At a sample rate every browser supports (8000 to 96000, which
    holds the 24000 the page asks for), a payload that decodes to a
    non-empty, even number of bytes gives a buffer at that rate with one
    frame per two bytes, the frame being the signed little-endian 16-bit
    number they hold over 32768; every frame lies in [-1, 1), and the
    buffer lasts [bytes / (2 * rate)] seconds. *)
Theorem decodeAudioData_frames (b64 : jsstring) (rate : Q) (bytes : list Z) :
  (8000 <= rate)%Q -> (rate <= 96000)%Q ->
  Audio.base64ToArrayBuffer b64 = Ok bytes ->
  (length bytes mod 2 = 0)%nat ->
  bytes <> [] ->
  exists buf,
    Audio.decodeAudioData b64 rate = Ok buf /\
    Audio.sampleRate buf = rate /\
    Audio.channelData buf = map decoded (Audio.int16_pairs bytes) /\
    (2 * length (Audio.channelData buf) = length bytes)%nat /\
    Forall (fun y => (-1 <= y)%Q /\ (y < 1)%Q) (Audio.channelData buf) /\
    (Audio.duration buf == inject_Z (Z.of_nat (length bytes)) / (2 * rate))%Q.
Proof.
  intros Hlo Hhi Hb He Hne.
  pose proof (int16_pairs_length bytes He) as Hlen.
  unfold Audio.decodeAudioData. rewrite Hb. cbn [bind].
  unfold Audio.Int16Array. rewrite (proj2 (Nat.eqb_eq _ _) He). cbn [bind].
  destruct (Audio.int16_pairs bytes) as [|v vs] eqn:Ep.
  { destruct bytes; [congruence | cbn in Hlen; lia]. }
  cbn [length Audio.createBuffer Nat.eqb].
  rewrite (supportsRate_true rate Hlo Hhi). cbn [bind].
  eexists. split; [reflexivity|].
  cbn [Audio.sampleRate Audio.channelData].
  split; [reflexivity|]. split; [reflexivity|].
  split; [rewrite length_map; exact Hlen|].
  split.
  - apply Forall_map. rewrite <- Ep.
    eapply Forall_impl; [|apply int16_pairs_range].
    intros w Hw. apply decoded_range, Hw.
  - unfold Audio.duration. cbn [Audio.sampleRate Audio.channelData].
    rewrite length_map, <- Hlen.
    rewrite Nat2Z.inj_mul, inject_Z_mult.
    change (inject_Z (Z.of_nat 2)) with 2%Q.
    field. lra.
Qed.

Lemma decodeAudioData_frames_witness :
  exists buf,
    Audio.decodeAudioData (str "AIAAQP9/") 24000 = Ok buf /\
    Audio.channelData buf = map decoded [-32768; 16384; 32767] /\
    (Audio.duration buf == 6 / (2 * 24000))%Q.
Proof.
  destruct (decodeAudioData_frames (str "AIAAQP9/") 24000 [0; 128; 0; 64; 255; 127])
    as [buf [H1 [_ [H2 [_ [_ H3]]]]]];
    [lra | lra | reflexivity | reflexivity | discriminate |].
  exists buf. split; [exact H1|]. split; [exact H2|]. exact H3.
Defined.

Lemma reencode_decoded (v : Z) :
  int16 v -> Audio.pcm16 (decoded v) = reencoded v.
Proof.
  intros Hv.
  destruct (decoded_range v Hv) as [Hlo Hhi].
  destruct (pcm16_spec (decoded v) Hlo (Qlt_le_weak _ _ Hhi)) as [_ [Hneg Hpos]].
  unfold reencoded.
  assert (Hd : (decoded v * 32768 == inject_Z v)%Q).
  { unfold decoded. field. }
  destruct (Z.ltb_spec 0 v) as [Hp|Hn].
  - assert (H0 : (0 <= decoded v)%Q).
    { assert (inject_Z 0 < inject_Z v)%Q by (rewrite <- Zlt_Qlt; lia).
      change (inject_Z 0) with 0%Q in H. lra. }
    destruct (Hpos H0) as [H1 H2].
    assert (Hv0 : (0 < inject_Z v)%Q).
    { change 0%Q with (inject_Z 0). rewrite <- Zlt_Qlt. lia. }
    assert (Ha : Audio.pcm16 (decoded v) <= v - 1).
    { apply inject_Z_lt_succ. unfold Z.sub. rewrite inject_Z_plus.
      change (inject_Z (- (1))) with (-1)%Q.
      set (c := inject_Z (Audio.pcm16 (decoded v))) in *. clearbody c.
      set (d := decoded v) in *. clearbody d.
      set (w := inject_Z v) in *. clearbody w.
      assert (d * 32767 == w - d)%Q by lra. lra. }
    assert (Hb : v - 1 <= Audio.pcm16 (decoded v)).
    { apply inject_Z_lt_succ. unfold Z.sub. rewrite inject_Z_plus.
      change (inject_Z (- (1))) with (-1)%Q.
      set (c := inject_Z (Audio.pcm16 (decoded v))) in *. clearbody c.
      set (d := decoded v) in *. clearbody d.
      set (w := inject_Z v) in *. clearbody w.
      assert (w < 32768)%Q by lra. lra. }
    lia.
  - destruct (Z.eq_dec v 0) as [->|Hnz]; [reflexivity|].
    assert (H0 : (decoded v < 0)%Q).
    { assert (inject_Z v < inject_Z 0)%Q by (rewrite <- Zlt_Qlt; lia).
      change (inject_Z 0) with 0%Q in H. lra. }
    destruct (Hneg H0) as [H1 H2].
    assert (Ha : Audio.pcm16 (decoded v) <= v).
    { apply inject_Z_lt_succ. lra. }
    assert (Hb : v <= Audio.pcm16 (decoded v)).
    { apply inject_Z_lt_succ. lra. }
    lia.
Qed.

(** X3.  Encoding is not undone by decoding on positive samples: a 16-bit
    sample that is decoded (divided by 32768) and encoded again, as the
    WAV rendering of a decoded buffer does, comes back unchanged when it
    is negative or zero and one less when it is positive. *)
Theorem pcm16_of_decoded (v : Z) :
  int16 v -> Audio.pcm16 (decoded v) = reencoded v.
Proof. apply reencode_decoded. Qed.

Lemma pcm16_of_decoded_witness :
  map (fun v => Audio.pcm16 (decoded v)) [-32768; -1; 0; 1; 2; 32767]
  = [-32768; -1; 0; 0; 1; 32766] /\
  Audio.pcm16 (decoded 12345) = reencoded 12345.
Proof.
  split; [reflexivity|].
  apply pcm16_of_decoded. unfold int16. lia.
Defined.

(** ** The WAV rendering *)

Lemma put_at pre mid post bytes :
  length mid = length bytes ->
  Wav.put (pre ++ mid ++ post) (length pre) bytes = Ok (pre ++ bytes ++ post).
Proof.
  intros Hm. unfold Wav.put.
  assert (Hfit : (length pre + length bytes <=? length (pre ++ mid ++ post))%nat = true).
  { apply Nat.leb_le. rewrite !length_app. lia. }
  rewrite Hfit. f_equal.
  rewrite firstn_app, firstn_all, Nat.sub_diag, firstn_O, app_nil_r.
  f_equal. f_equal.
  rewrite skipn_app, skipn_all2 by lia. cbn [app].
  replace (length pre + length bytes - length pre)%nat with (length mid) by lia.
  rewrite skipn_app, skipn_all, Nat.sub_diag. reflexivity.
Qed.

Lemma le_length n v : length (Wav.le n v) = n.
Proof.
  revert v. induction n as [|n IH]; intros v; cbn [Wav.le length]; auto.
Qed.

Lemma le_byte n v : Forall byte (Wav.le n v).
Proof.
  revert v. induction n as [|n IH]; intros v; cbn [Wav.le]; constructor.
  - unfold byte. divmod.
  - apply IH.
Qed.

Lemma le2_int16_bytes v : Wav.le 2 v = Audio.int16_bytes v.
Proof.
  unfold Audio.int16_bytes. cbn [Wav.le]. f_equal; [divmod|]. f_equal. divmod.
Qed.

(** The sample loop fills the buffer from [offset] on with two bytes per
    sample. *)
Lemma writeSamples_spec samples : forall pre mid post,
  length mid = (2 * length samples)%nat ->
  Wav.writeSamples (pre ++ mid ++ post) (length pre) samples
  = Ok (pre ++ flat_map Audio.int16_bytes (map Audio.pcm16 samples) ++ post).
Proof.
  induction samples as [|x r IH]; intros pre mid post Hm.
  - destruct mid; [reflexivity | discriminate].
  - destruct mid as [|m1 [|m2 mid]]; try (cbn in Hm; lia).
    cbn [Wav.writeSamples]. unfold Wav.setInt16.
    change (m1 :: m2 :: mid) with ([m1; m2] ++ mid).
    rewrite <- (app_assoc [m1; m2] mid post).
    rewrite put_at by (now rewrite le_length).
    cbn [bind].
    change (ToInt16 (if Qltb (Qmax (-1) (Qmin 1 x)) 0
                     then Qmax (-1) (Qmin 1 x) * 32768
                     else Qmax (-1) (Qmin 1 x) * 32767)%Q)
      with (Audio.pcm16 x).
    rewrite le2_int16_bytes.
    replace (length pre + 2)%nat with (length (pre ++ Audio.int16_bytes (Audio.pcm16 x)))
      by (rewrite length_app; reflexivity).
    rewrite (app_assoc pre).
    rewrite IH by (cbn in Hm; lia).
    cbn [map flat_map]. now rewrite <- !app_assoc.
Qed.

Lemma audioBufferToWavArrayBuffer_eq (b : Audio.AudioBuffer) :
  Wav.audioBufferToWavArrayBuffer b =
    Ok (wavHeader (Audio.sampleRate b) (length (Audio.channelData b))
        ++ flat_map Audio.int16_bytes (map Audio.pcm16 (Audio.channelData b))).
Proof.
  unfold Wav.audioBufferToWavArrayBuffer. cbv zeta.
  set (n := length (Audio.channelData b)).
  change (1 * 16 / 8)%nat with 2%nat.
  replace (Z.of_nat (44 + n * 2) - 8) with (36 + 2 * Z.of_nat n) by lia.
  replace (Z.of_nat (n * 2)) with (2 * Z.of_nat n) by lia.
  change (inject_Z (Z.of_nat 2)) with 2%Q.
  change (Z.of_nat 1) with 1. change (Z.of_nat 2) with 2.
  change (Z.of_nat 16) with 16.
  rewrite repeat_app, <- (app_nil_r (repeat 0 (n * 2))).
  change (str "RIFF") with [82; 73; 70; 70].
  change (str "WAVE") with [87; 65; 86; 69].
  change (str "fmt ") with [102; 109; 116; 32].
  change (str "data") with [100; 97; 116; 97].
  change (repeat 0 44)
    with [0;0;0;0; 0;0;0;0; 0;0;0;0; 0;0;0;0; 0;0;0;0; 0;0;0;0; 0;0;0;0;
          0;0;0;0; 0;0;0;0; 0;0;0;0; 0;0;0;0].
  cbn [Wav.writeString Wav.setUint8 Wav.setUint16 Wav.setUint32 Wav.put
       Wav.le bind length app firstn skipn Nat.add Nat.leb].
  change (82 mod 256) with 82. change (73 mod 256) with 73.
  change (70 mod 256) with 70. change (87 mod 256) with 87.
  change (65 mod 256) with 65. change (86 mod 256) with 86.
  change (69 mod 256) with 69. change (102 mod 256) with 102.
  change (109 mod 256) with 109. change (116 mod 256) with 116.
  change (32 mod 256) with 32. change (100 mod 256) with 100.
  change (97 mod 256) with 97.
  change (Wav.writeSamples
            (wavHeader (Audio.sampleRate b) n ++ repeat 0 (n * 2) ++ [])
            (length (wavHeader (Audio.sampleRate b) n)) (Audio.channelData b)
          = Ok (wavHeader (Audio.sampleRate b) n
                ++ flat_map Audio.int16_bytes
                     (map Audio.pcm16 (Audio.channelData b)))).
  rewrite writeSamples_spec by (rewrite repeat_length; unfold n; lia).
  rewrite app_nil_r. reflexivity.
Qed.

(** X4.  The sequence of [DataView] stores of [audioBufferToWavArrayBuffer]
    never leaves the buffer and produces exactly a 44-byte header followed
    by the samples, clamped and quantized as [createPcmBlob] does, two
    little-endian bytes each. *)
Theorem wav_layout (b : Audio.AudioBuffer) :
  Wav.audioBufferToWavArrayBuffer b =
    Ok (wavHeader (Audio.sampleRate b) (length (Audio.channelData b))
        ++ flat_map Audio.int16_bytes (map Audio.pcm16 (Audio.channelData b))) /\
  length (wavHeader (Audio.sampleRate b) (length (Audio.channelData b))) = 44%nat.
Proof.
  split; [apply audioBufferToWavArrayBuffer_eq | reflexivity].
Qed.

Lemma fromLe_le4 v : 0 <= v < 4294967296 -> fromLe (Wav.le 4 v) = v.
Proof.
  intros H. cbn [Wav.le fromLe]. divmod.
Qed.

Lemma fromLe_le2 v : 0 <= v < 65536 -> fromLe (Wav.le 2 v) = v.
Proof.
  intros H. cbn [Wav.le fromLe]. divmod.
Qed.

(** X5.  The header fields agree with the file: when the sizes fit 32
    bits, the RIFF size read back is the file length less 8, the data size
    is the number of sample bytes that follow the header, and the format
    fields read PCM, one channel, the buffer's integer rate, twice that as
    the byte rate, 2 bytes per frame and 16 bits per sample. *)
Theorem wav_header_fields (b : Audio.AudioBuffer) (r : Z) :
  Audio.sampleRate b = inject_Z r ->
  0 <= r -> 2 * r < 4294967296 ->
  36 + 2 * Z.of_nat (length (Audio.channelData b)) < 4294967296 ->
  exists file,
    Wav.audioBufferToWavArrayBuffer b = Ok file /\
    Z.of_nat (length file) = 44 + 2 * Z.of_nat (length (Audio.channelData b)) /\
    firstn 4 file = str "RIFF" /\
    field file 4 4 = Z.of_nat (length file) - 8 /\
    firstn 8 (skipn 8 file) = str "WAVEfmt " /\
    field file 16 4 = 16 /\
    field file 20 2 = 1 /\
    field file 22 2 = 1 /\
    field file 24 4 = r /\
    field file 28 4 = 2 * r /\
    field file 32 2 = 2 /\
    field file 34 2 = 16 /\
    firstn 4 (skipn 36 file) = str "data" /\
    field file 40 4 = Z.of_nat (length file) - 44.
Proof.
  intros Hrate Hr0 Hr Hn.
  eexists. split; [apply audioBufferToWavArrayBuffer_eq|].
  set (n := length (Audio.channelData b)) in *.
  assert (Hlen : Z.of_nat (length (wavHeader (Audio.sampleRate b) n
                   ++ flat_map Audio.int16_bytes
                        (map Audio.pcm16 (Audio.channelData b))))
                 = 44 + 2 * Z.of_nat n).
  { rewrite length_app, int16_bytes_length, length_map.
    change (length (wavHeader (Audio.sampleRate b) n)) with 44%nat.
    fold n. lia. }
  split; [exact Hlen|].
  unfold field. rewrite Hlen.
  assert (Hbr : Qtruncate (Audio.sampleRate b * 2) = 2 * r).
  { rewrite Hrate. rewrite <- (Qtruncate_Z (2 * r)). apply Qtruncate_comp.
    rewrite inject_Z_mult. change (inject_Z 2) with 2%Q. ring. }
  assert (Hsr : Qtruncate (Audio.sampleRate b) = r).
  { rewrite Hrate. apply Qtruncate_Z. }
  unfold wavHeader. rewrite Hbr, Hsr.
  change (str "RIFF") with [82; 73; 70; 70].
  change (str "WAVE") with [87; 65; 86; 69].
  change (str "fmt ") with [102; 109; 116; 32].
  change (str "data") with [100; 97; 116; 97].
  change (str "WAVEfmt ") with [87; 65; 86; 69; 102; 109; 116; 32].
  cbn [Wav.le app firstn skipn].
  split; [reflexivity|].
  split; [cbn [fromLe]; divmod|].
  split; [reflexivity|].
  split; [reflexivity|]. split; [reflexivity|]. split; [reflexivity|].
  split; [cbn [fromLe]; divmod|].
  split; [cbn [fromLe]; divmod|].
  split; [reflexivity|]. split; [reflexivity|]. split; [reflexivity|].
  cbn [fromLe]. divmod.
Qed.

Lemma wav_header_fields_witness :
  exists file,
    Wav.audioBufferToWavArrayBuffer
      (Audio.mkAudioBuffer 24000 [0; 1 # 2; -1]%Q) = Ok file /\
    length file = 50%nat /\
    field file 4 4 = 42 /\ field file 24 4 = 24000 /\ field file 40 4 = 6.
Proof.
  destruct (wav_header_fields (Audio.mkAudioBuffer 24000 [0; 1 # 2; -1]%Q) 24000
              eq_refl) as [file [H1 [H2 [_ [H3 [_ [_ [_ [_ [H4 [_ [_ [_ [_ H5]]]]]]]]]]]]]];
    try (cbn; lia).
  exists file. cbn [length Audio.channelData] in H2.
  split; [exact H1|]. split; [lia|].
  split; [rewrite H3; lia|]. split; [exact H4 | rewrite H5; lia].
Defined.

Lemma str_byte (s : string) : Forall byte (str s).
Proof.
  induction s as [|c s IH]; cbn [str]; constructor; [|exact IH].
  unfold byte. pose proof (N_ascii_bounded c). lia.
Qed.

Lemma wav_file_byte rate n vs :
  Forall byte (wavHeader rate n ++ flat_map Audio.int16_bytes vs).
Proof.
  unfold wavHeader.
  repeat (apply Forall_app; split);
    try apply str_byte; try apply le_byte; apply int16_bytes_byte.
Qed.

Lemma wav_base64_roundtrip_aux (b : Audio.AudioBuffer) :
  exists text, Wav.audioBufferToWavBase64 b true = Ok text.
Proof.
  destruct (base64_bytes_roundtrip _
              (wav_file_byte (Audio.sampleRate b) (length (Audio.channelData b))
                 (map Audio.pcm16 (Audio.channelData b))))
    as [text [H1 _]].
  unfold Wav.audioBufferToWavBase64.
  rewrite audioBufferToWavArrayBuffer_eq. cbn [bind]. rewrite H1. cbn [bind].
  eexists. reflexivity.
Qed.

(** X6.  [audioBufferToWavBase64] never throws: for every buffer it
    returns a text, with the [data:audio/wav;base64,] prefix when asked
    for, and the text after the prefix decodes back to the very bytes of
    the WAV file. *)
Theorem wav_base64_roundtrip (b : Audio.AudioBuffer) :
  exists file text,
    Wav.audioBufferToWavArrayBuffer b = Ok file /\
    Wav.audioBufferToWavBase64 b false = Ok text /\
    Wav.audioBufferToWavBase64 b true
      = Ok (str "data:audio/wav;base64," ++ text) /\
    Audio.base64ToArrayBuffer text = Ok file.
Proof.
  destruct (base64_bytes_roundtrip _
              (wav_file_byte (Audio.sampleRate b) (length (Audio.channelData b))
                 (map Audio.pcm16 (Audio.channelData b))))
    as [text [H1 H2]].
  eexists. exists text.
  split; [apply audioBufferToWavArrayBuffer_eq|].
  unfold Wav.audioBufferToWavBase64.
  rewrite audioBufferToWavArrayBuffer_eq. cbn [bind]. rewrite H1. cbn [bind].
  repeat split; [exact H2].
Qed.

(** X7.  The [console.log] inside [decodeAudioData] cannot make it fail:
    with the logging, the call fails on the same payloads with the same
    exception and returns the same buffer; the text logged is the WAV of
    that buffer, whose samples are the received ones, each positive one
    reduced by one. *)
Theorem decodeAudioData_logging (b64 : jsstring) (rate : Q) :
  match Wav.decodeAudioDataLogged b64 rate with
  | Throw e => Audio.decodeAudioData b64 rate = Throw e
  | Ok (buf, logged) =>
      Audio.decodeAudioData b64 rate = Ok buf /\
      exists bytes text,
        Audio.base64ToArrayBuffer b64 = Ok bytes /\
        Wav.audioBufferToWavBase64 buf true = Ok text /\
        logged = str "Base64=" ++ text /\
        Wav.audioBufferToWavArrayBuffer buf
          = Ok (wavHeader rate (length (Audio.int16_pairs bytes))
                ++ flat_map Audio.int16_bytes
                     (map reencoded (Audio.int16_pairs bytes)))
  end.
Proof.
  unfold Wav.decodeAudioDataLogged, Audio.decodeAudioData.
  destruct (Audio.base64ToArrayBuffer b64) as [bytes|e]; [|reflexivity].
  cbn [bind].
  destruct (Audio.Int16Array bytes) as [vs|e] eqn:Ei; [|reflexivity].
  cbn [bind].
  destruct (Audio.createBuffer (length vs) rate) as [u|e]; [|reflexivity].
  cbn [bind].
  set (buf := Audio.mkAudioBuffer rate (map (fun v => (inject_Z v / 32768)%Q) vs)).
  destruct (wav_base64_roundtrip_aux buf) as [text Ht].
  rewrite Ht. cbn [bind].
  split; [reflexivity|].
  exists bytes, text. split; [reflexivity|]. split; [exact Ht|].
  split; [reflexivity|].
  assert (Hvs : vs = Audio.int16_pairs bytes).
  { unfold Audio.Int16Array in Ei.
    destruct (length bytes mod 2 =? 0)%nat;
      [injection Ei as <-; reflexivity | discriminate Ei]. }
  rewrite audioBufferToWavArrayBuffer_eq.
  unfold buf. cbn [Audio.sampleRate Audio.channelData].
  rewrite length_map, map_map, <- Hvs. do 3 f_equal.
  apply map_ext_in. intros v Hv.
  apply reencode_decoded.
  subst vs. eapply Forall_forall; [apply int16_pairs_range | exact Hv].
Qed.

(** ** The resampler's output stream *)

Lemma map_nth_seq (l : list Q) :
  map (fun k => nth k l 0%Q) (seq 0 (length l)) = l.
Proof.
  induction l as [|x l IH]; [reflexivity|].
  cbn [length seq map nth]. f_equal.
  rewrite <- seq_shift, map_map. exact IH.
Qed.

(** At a ratio of 1 the selection is the block itself. *)
Lemma selection_unit ratio channelData :
  (ratio == 1)%Q ->
  selection ratio channelData 0
    (Z.to_nat (Qceiling (inject_Z (Z.of_nat (length channelData)) / ratio)))
  = channelData.
Proof.
  intros E. unfold selection.
  assert (E1 : (inject_Z (Z.of_nat (length channelData)) / ratio
                == inject_Z (Z.of_nat (length channelData)))%Q).
  { rewrite E. field. }
  rewrite (Qceiling_comp _ _ E1), Qceiling_Z, Nat2Z.id.
  rewrite <- (map_nth_seq channelData) at 2.
  apply map_ext. intros k.
  assert (E2 : (inject_Z (Z.of_nat k) * ratio == inject_Z (Z.of_nat k))%Q).
  { rewrite E. ring. }
  now rewrite (Qfloor_comp _ _ E2), Qfloor_Z, Nat2Z.id.
Qed.

Lemma sample_floor channelData ids :
  map (sample channelData) ids
  = map (fun k => nth (Z.to_nat k) channelData 0%Q) (map Qfloor ids).
Proof. rewrite map_map. reflexivity. Qed.

(** X8.  The resampler neither reorders nor repeats samples: at a capture
    rate of at least 16000, a call of [process] appends to the stream of
    samples taken so far (posted chunks, then the pending part of the
    buffer) the samples of the block at positions that go strictly up,
    the first being the block's first sample.  When the rate is [n] times
    16000 the positions are exactly [0, n, 2n, ...] below the block's
    length, and at 16000 Hz the block is appended unchanged. *)
Theorem resample_selection (sampleRate : Q) (channelData : list Q)
    (channels : list (list Q)) (inputs : list (list (list Q)))
    (p : RecorderProcessor.t) :
  (16000 <= sampleRate)%Q ->
  Z.of_nat (length channelData) <= 2 ^ 53 ->
  RecorderProcessor.wf p ->
  exists p' positions,
    RecorderProcessor.process sampleRate ((channelData :: channels) :: inputs) p
      = Some p' /\
    stream p'
    = stream p ++ map (fun k => nth (Z.to_nat k) channelData 0%Q) positions /\
    ascending 0 (Z.of_nat (length channelData)) positions /\
    (channelData <> [] -> exists r, positions = 0 :: r) /\
    (forall n,
        1 <= n -> Z.of_nat (length channelData) + n <= 2 ^ 53 ->
        (sampleRate == 16000 * inject_Z n)%Q ->
        positions
        = map (fun k => Z.of_nat k * n)
            (seq 0 (ceiling_count sampleRate (length channelData))) /\
        stream p'
        = stream p
          ++ selection (sampleRate / 16000) channelData 0
               (ceiling_count sampleRate (length channelData))) /\
    ((sampleRate == 16000)%Q ->
     Z.of_nat (length channelData) < 2 ^ 53 ->
     stream p' = stream p ++ channelData).
Proof.
  intros HR HL Hwf.
  destruct (process_run sampleRate channelData channels inputs p HR HL Hwf)
    as [p' [Hp [_ [_ [_ [Hs Ha]]]]]].
  set (ratio := Float64.div sampleRate RecorderProcessor._targetSampleRate) in *.
  set (ids := visited (length channelData) (length channelData) ratio 0) in *.
  exists p', (map Qfloor ids).
  split; [exact Hp|]. split; [now rewrite <- sample_floor|].
  split; [exact Ha|].
  assert (Hexact : forall n,
             1 <= n -> Z.of_nat (length channelData) + n <= 2 ^ 53 ->
             (sampleRate == 16000 * inject_Z n)%Q ->
             map Qfloor ids
             = map (fun k => Z.of_nat k * n)
                 (seq 0 (ceiling_count sampleRate (length channelData))) /\
             stream p'
             = stream p
               ++ selection (sampleRate / 16000) channelData 0
                    (ceiling_count sampleRate (length channelData))).
  { intros n Hn HLn E. split.
    - apply (positions_exact sampleRate n _ Hn HLn E).
    - rewrite Hs. f_equal.
      apply (process_exact sampleRate n channelData Hn HLn E). }
  split.
  { intros Hne. destruct channelData as [|x r]; [congruence|].
    unfold ids. cbn [visited length].
    change (Qltb 0 (inject_Z (Z.of_nat (S (length r))))) with true.
    cbn [map]. eexists. reflexivity. }
  split; [exact Hexact|].
  intros E H53.
  destruct (Hexact 1) as [_ H]; [lia | lia | rewrite E; reflexivity |].
  rewrite H. f_equal. unfold ceiling_count. apply selection_unit.
  rewrite E. reflexivity.
Qed.

Lemma resample_selection_witness :
  exists p',
    RecorderProcessor.process 48000
      [[[10; 11; 12; 13; 14; 15; 16; 17; 18; 19]%Q]] RecorderProcessor.init
      = Some p' /\
    stream p' = [10; 13; 16; 19]%Q.
Proof.
  destruct (resample_selection 48000 [10; 11; 12; 13; 14; 15; 16; 17; 18; 19]%Q
              [] [] RecorderProcessor.init) as [p' [ps [H1 [_ [_ [_ [H2 _]]]]]]].
  - lra.
  - vm_compute. discriminate.
  - split; [reflexivity | vm_compute; lia].
  - exists p'. split; [exact H1|].
    destruct (H2 3) as [_ H]; [lia | vm_compute; discriminate | reflexivity |].
    rewrite H. vm_compute. reflexivity.
Defined.

(** Calls of [process] on one block after another. *)
Lemma processAll_run sampleRate blocks :
  (16000 <= sampleRate)%Q ->
  Forall (fun b => Z.of_nat (length b) <= 2 ^ 53) blocks ->
  forall p, RecorderProcessor.wf p ->
  exists p',
    processAll sampleRate blocks p = Some p' /\
    RecorderProcessor.wf p' /\ extends p p' /\
    (forall n,
        1 <= n ->
        Forall (fun b => Z.of_nat (length b) + n <= 2 ^ 53) blocks ->
        (sampleRate == 16000 * inject_Z n)%Q ->
        stream p'
        = stream p
          ++ flat_map (fun channelData =>
                         selection (sampleRate / 16000) channelData 0
                           (ceiling_count sampleRate (length channelData)))
               blocks).
Proof.
  intros HR HL. induction HL as [|channelData r Hb _ IH]; intros p Hwf.
  - exists p. split; [reflexivity|]. split; [exact Hwf|].
    split; [apply extends_refl|]. intros n _ _ _. cbn [flat_map].
    now rewrite app_nil_r.
  - destruct (process_run sampleRate channelData [] [] p HR Hb Hwf)
      as [p1 [H1 [Hwf1 [Hex1 [_ [Hs1 _]]]]]].
    destruct (IH p1 Hwf1) as [p' [H2 [Hwf' [Hex' Hs']]]].
    exists p'. cbn [processAll]. rewrite H1.
    split; [exact H2|]. split; [exact Hwf'|].
    split; [exact (extends_trans _ _ _ Hex1 Hex')|].
    intros n Hn Hall E. inversion Hall as [|? ? Hb1 Hr1]; subst.
    rewrite (Hs' n Hn Hr1 E), Hs1.
    rewrite (process_exact sampleRate n channelData Hn Hb1 E).
    cbn [flat_map]. now rewrite app_assoc.
Qed.

(** X9.  Over any sequence of blocks the calls of [process] compose: at a
    capture rate of at least 16000 all return, every chunk posted along
    the way holds exactly 2048 samples and fewer than 2048 samples are
    left pending; when the rate is [n] times 16000 the stream is the one
    before followed by every [n]-th sample of each block in order, each
    block being sampled afresh from its first sample. *)
Theorem resample_blocks (sampleRate : Q) (blocks : list (list Q))
    (p : RecorderProcessor.t) :
  (16000 <= sampleRate)%Q ->
  Forall (fun b => Z.of_nat (length b) <= 2 ^ 53) blocks ->
  RecorderProcessor.wf p ->
  exists p',
    processAll sampleRate blocks p = Some p' /\
    RecorderProcessor.wf p' /\
    (exists new,
        RecorderProcessor.posted p' = RecorderProcessor.posted p ++ new /\
        Forall (fun c => length c = 2048%nat) new) /\
    (forall n,
        1 <= n ->
        Forall (fun b => Z.of_nat (length b) + n <= 2 ^ 53) blocks ->
        (sampleRate == 16000 * inject_Z n)%Q ->
        stream p'
        = stream p
          ++ flat_map (fun channelData =>
                         selection (sampleRate / 16000) channelData 0
                           (ceiling_count sampleRate (length channelData)))
               blocks).
Proof.
  intros HR HL Hwf.
  destruct (processAll_run sampleRate blocks HR HL p Hwf)
    as [p' [H1 [H2 [H3 H4]]]].
  exists p'. split; [exact H1|]. split; [exact H2|]. split; [exact H3 | exact H4].
Qed.

Lemma resample_blocks_witness :
  exists p',
    processAll 48000 [[1; 2; 3; 4]%Q; [5; 6; 7]%Q; []; [8]%Q]
      RecorderProcessor.init = Some p' /\
    stream p' = [1; 4; 5; 8]%Q.
Proof.
  destruct (resample_blocks 48000 [[1; 2; 3; 4]%Q; [5; 6; 7]%Q; []; [8]%Q]
              RecorderProcessor.init) as [p' [H1 [_ [_ H2]]]].
  - lra.
  - repeat constructor; vm_compute; discriminate.
  - split; [reflexivity | vm_compute; lia].
  - exists p'. split; [exact H1|].
    rewrite (H2 3); [vm_compute; reflexivity | lia | | reflexivity].
    repeat constructor; vm_compute; discriminate.
Defined.

(** ** The transcript history *)

Lemma noLead_trimStart s : noLead (trimStart s).
Proof.
  induction s as [|c s IH]; cbn [trimStart]; [exact I|].
  destruct (isWhiteSpace c) eqn:E; [exact IH | exact E].
Qed.

Lemma trimStart_noLead s : noLead s -> trimStart s = s.
Proof.
  destruct s as [|c s]; [reflexivity|]. cbn [noLead trimStart].
  now intros ->.
Qed.

(** [trimStart] removes a prefix. *)
Lemma trimStart_suffix s : exists pre, s = pre ++ trimStart s.
Proof.
  induction s as [|c s [pre IH]]; [now exists []|].
  cbn [trimStart]. destruct (isWhiteSpace c).
  - exists (c :: pre). cbn [app]. now f_equal.
  - now exists [].
Qed.

Lemma trim_clean s : noLead (trim s) /\ noLead (rev (trim s)).
Proof.
  unfold trim, trimEnd.
  set (a := trimStart s).
  set (b := trimStart (rev a)).
  split; [|rewrite rev_involutive; apply noLead_trimStart].
  destruct (trimStart_suffix (rev a)) as [pre Hpre]. fold b in Hpre.
  assert (Ha : a = rev b ++ rev pre).
  { rewrite <- rev_app_distr, <- Hpre. now rewrite rev_involutive. }
  pose proof (noLead_trimStart s) as Hn. fold a in Hn.
  destruct (rev b) as [|c r]; [exact I|].
  rewrite Ha in Hn. exact Hn.
Qed.

Lemma trim_idem s : trim (trim s) = trim s.
Proof.
  destruct (trim_clean s) as [H1 H2].
  unfold trim at 1. unfold trimEnd.
  rewrite (trimStart_noLead _ H1), (trimStart_noLead _ H2).
  apply rev_involutive.
Qed.

Lemma committed_final now a b input output :
  Forall finalTurn (committed now a b input output).
Proof.
  unfold committed.
  destruct (truthy (trim input)) eqn:Ei; destruct (truthy (trim output)) eqn:Eo;
    cbn [app]; repeat constructor; cbn [isFinal text];
    auto using trim_idem.
Qed.

Lemma stopSession_history full now s :
  transcripts (ui (stopSession full now s))
  = transcripts (ui s)
    ++ committed now "-saved-input" "-saved-output"
         (currentTurnInputRef (turn s)) (currentTurnOutputRef (turn s)).
Proof. unfold stopSession. cbn [ui transcripts]. apply savePending_committed. Qed.

Lemma onMessageReceived_history m now s :
  exists new,
    transcripts (ui (onMessageReceived m now s)) = transcripts (ui s) ++ new /\
    Forall finalTurn new.
Proof.
  unfold onMessageReceived.
  assert (Hi : forall s0, transcripts (ui (interrupt s0)) = transcripts (ui s0))
    by reflexivity.
  destruct (completeTurn_spec now (receiveText m s)) as [Hc _].
  rewrite receiveText_ui in Hc.
  destruct (turnComplete m); destruct (interrupted m); rewrite ?Hi.
  - eexists. split; [exact Hc | apply committed_final].
  - eexists. split; [exact Hc | apply committed_final].
  - exists []. rewrite receiveText_ui, app_nil_r. split; [reflexivity | constructor].
  - exists []. rewrite receiveText_ui, app_nil_r. split; [reflexivity | constructor].
Qed.

Lemma startSession_history API o now s :
  exists new,
    transcripts (ui (startSession API o now s)) = transcripts (ui s) ++ new /\
    Forall finalTurn new.
Proof.
  unfold startSession.
  destruct API as [[|c k]|];
    try (exists []; rewrite app_nil_r; split; [reflexivity | constructor]).
  destruct o as [a b c0|msg].
  - exists []. rewrite app_nil_r. split; [reflexivity | constructor].
  - eexists. rewrite stopSession_history. split; [reflexivity|].
    apply committed_final.
Qed.

Lemma handle_history API e now s :
  exists new,
    transcripts (ui (handle API e now s)) = transcripts (ui s) ++ new /\
    Forall finalTurn new.
Proof.
  destruct e; cbn [handle].
  - exists []. rewrite app_nil_r. split; [reflexivity | constructor].
  - apply onMessageReceived_history.
  - unfold onclose. destruct captured;
      try (eexists; rewrite stopSession_history; split;
           [reflexivity | apply committed_final]).
    exists []. rewrite app_nil_r. split; [reflexivity | constructor].
  - unfold onerror.
    destruct (retryCountRef (reconnect s) <? MAX_RETRIES).
    + eexists. unfold withReconnect at 1. cbn [ui].
      rewrite stopSession_history. split; [reflexivity | apply committed_final].
    + eexists. rewrite stopSession_history.
      split; [reflexivity | apply committed_final].
  - unfold timerFired.
    destruct (existsb _ _).
    + match goal with
      | |- context [startSession API o now ?x] =>
          destruct (startSession_history API o now x) as [new [H F]]
      end.
      exists new. split; [exact H | exact F].
    + exists []. rewrite app_nil_r. split; [reflexivity | constructor].
  - exists []. rewrite app_nil_r. split; [reflexivity | constructor].
  - apply startSession_history.
  - unfold handleDisconnect. eexists. rewrite stopSession_history.
    split; [reflexivity | apply committed_final].
Qed.

(** X10.  No session event removes or rewrites a turn: whatever the
    events (open, a message handled in one piece, close, error, timer,
    playback end, start, stop),
    the history afterwards is the history before followed by new turns, and
    every new turn is final with a text that is not empty and carries no
    white space at either end. *)
Theorem history_append_only (API : option jsstring) (evs : list (Event * Z))
    (s : State) :
  exists new,
    transcripts (ui (run API evs s)) = transcripts (ui s) ++ new /\
    Forall finalTurn new.
Proof.
  revert s. induction evs as [|[e now] evs IH]; intros s; cbn [run].
  - exists []. rewrite app_nil_r. split; [reflexivity | constructor].
  - destruct (handle_history API e now s) as [n1 [H1 F1]].
    destruct (IH (handle API e now s)) as [n2 [H2 F2]].
    exists (n1 ++ n2). rewrite H2, H1, app_assoc.
    split; [reflexivity | apply Forall_app; auto].
Qed.

(** ** Accumulating a turn *)


Lemma receiveAll_textOnly ms : forall s,
  Forall (fun x => textOnly (fst x)) ms ->
  turn (receiveAll ms s)
  = mkTurn (currentTurnInputRef (turn s) ++ inputTexts ms)
           (currentTurnOutputRef (turn s) ++ outputTexts ms) /\
  transcripts (ui (receiveAll ms s)) = transcripts (ui s).
Proof.
  unfold inputTexts, outputTexts.
  induction ms as [|[m now] ms IH]; intros s H.
  - cbn [receiveAll map concat]. rewrite !app_nil_r.
    destruct (turn s); split; reflexivity.
  - inversion H as [|? ? [Hc Hi] H']; subst. cbn [fst] in Hc, Hi.
    cbn [receiveAll map concat fst].
    assert (E : onMessageReceived m now s = receiveText m s).
    { unfold onMessageReceived. now rewrite Hc, Hi. }
    rewrite E. destruct (IH (receiveText m s) H') as [H1 H2].
    rewrite H1, H2, receiveText_turn, receiveText_ui.
    cbn [currentTurnInputRef currentTurnOutputRef].
    now rewrite <- !app_assoc.
Qed.

(** X11.  The text committed at the end of a turn is the whole of the
    partial text received since the buffers were last emptied: after any
    sequence of messages that only carry partial text, followed by a
    turn-complete message, the history gains one final turn per direction,
    holding the trimmed concatenation, in arrival order, of the pending
    text and of every partial text received, the last message's included. *)
Theorem turn_text_accumulates (ms : list (LiveServerMessage * Z))
    (m : LiveServerMessage) (now : Z) (s : State) :
  Forall (fun x => textOnly (fst x)) ms ->
  turnComplete m = true ->
  transcripts (ui (receiveAll (ms ++ [(m, now)]) s))
  = transcripts (ui s)
    ++ committed now "-user" "-model"
         (currentTurnInputRef (turn s) ++ inputTexts (ms ++ [(m, now)]))
         (currentTurnOutputRef (turn s) ++ outputTexts (ms ++ [(m, now)])).
Proof.
  intros Hms Hc.
  assert (Hsplit : forall a b s0, receiveAll (a ++ b) s0 = receiveAll b (receiveAll a s0)).
  { induction a as [|[m0 n0] a IH]; intros b s0; cbn [receiveAll app];
      [reflexivity | apply IH]. }
  rewrite Hsplit. cbn [receiveAll].
  destruct (receiveAll_textOnly ms s Hms) as [Ht Hh].
  set (s1 := receiveAll ms s) in *.
  assert (Hm : transcripts (ui (onMessageReceived m now s1))
               = transcripts (ui (completeTurn now (receiveText m s1)))).
  { unfold onMessageReceived. rewrite Hc.
    destruct (interrupted m); reflexivity. }
  rewrite Hm.
  destruct (completeTurn_spec now (receiveText m s1)) as [H1 _].
  rewrite H1, receiveText_ui, Hh, receiveText_turn, Ht.
  cbn [currentTurnInputRef currentTurnOutputRef].
  unfold inputTexts, outputTexts.
  rewrite !map_app, !concat_app. cbn [map concat fst].
  now rewrite !app_nil_r, <- !app_assoc.
Qed.

Lemma turn_text_accumulates_witness :
  let text t := mkMessage (Some (str t)) None false false None in
  let reply t := mkMessage None (Some (str t)) false false None in
  let done := mkMessage None (Some (str "ay. ")) true false None in
  transcripts
    (ui (receiveAll [(text " good"%string, 1); (reply "d"%string, 2);
                     (text " day "%string, 3); (done, 4)] App.initial))
  = [ mkItem (str "4-user") user (str "good day") None true 4;
      mkItem (str "4-model") model (str "day.") None true 4 ].
Proof.
  intros text reply done.
  refine (eq_trans
            (turn_text_accumulates
               [(text " good"%string, 1); (reply "d"%string, 2);
                (text " day "%string, 3)] done 4 App.initial _ eq_refl) _).
  - repeat constructor.
  - reflexivity.
Defined.

(** ** Invariants of the page *)

Lemma onmessage_reconnect m now currentTime s :
  reconnect (onmessage m now currentTime s) = reconnect s.
Proof.
  unfold onmessage, onMessageReceived, interrupt, completeTurn, receiveText.
  destruct (inputTranscription m) as [x|];
    destruct (outputTranscription m) as [y|];
    destruct (turnComplete m); destruct (interrupted m);
    repeat match goal with
           | |- context [truthy ?z] => destruct (truthy z)
           end; reflexivity.
Qed.

(** The pieces of a message with image calls. *)
Lemma imageRequested_frame API prompt now s :
  historyOnly s (match Tools.generateImageBegin API prompt now s with
                 | Some s' => s'
                 | None => s
                 end).
Proof.
  destruct API as [[|c k]|]; cbn [Tools.generateImageBegin]; repeat split.
Qed.

Lemma imageAnswered_frame prompt g now s :
  historyOnly s (fst (Tools.generateImageEnd prompt g now s)).
Proof.
  unfold Tools.generateImageEnd.
  destruct g as [parts|]; [destruct (Tools.firstInline parts) as [[|c r]|]|];
    repeat split.
Qed.

Lemma afterToolCalls_eq m now s :
  Tools.afterToolCalls m now s
  = onMessageReceived
      (mkMessage None None (turnComplete m) (interrupted m) None) now s.
Proof. reflexivity. Qed.

(** The handlers of [App] are the schedules in which nothing comes between a
    call of [stopSession] and what follows its [await]. *)
Lemma stopSession_split full now s :
  stopSession full now s = Live.stopSessionEnd full now (Live.stopSessionBegin s).
Proof. reflexivity. Qed.

Lemma onerror_split err now s :
  onerror err now s
  = Live.settle (snd (Live.onerrorBegin err s)) now
      (Live.stopSessionBegin (fst (Live.onerrorBegin err s))).
Proof.
  unfold onerror, Live.onerrorBegin.
  destruct (retryCountRef (reconnect s) <? MAX_RETRIES); reflexivity.
Qed.

Lemma handleDisconnect_split now s :
  handleDisconnect now s
  = Live.settle (Live.mkPending true false) now
      (Live.stopSessionBegin (withReconnect (setRetryCount 0) s)).
Proof. reflexivity. Qed.

Lemma boundedRetry_clearTimer r : boundedRetry r -> boundedRetry (clearTimer r).
Proof.
  intros [H1 H2]. unfold clearTimer.
  destruct (reconnectTimeoutRef r); [|split; assumption].
  split; [exact H1|]. cbn [timers timersSet].
  apply Forall_forall. intros x Hx. apply filter_In in Hx.
  rewrite Forall_forall in H2. apply H2, Hx.
Qed.

Lemma boundedRetry_setTimeout r : boundedRetry r -> boundedRetry (setTimeout 2000 r).
Proof.
  intros [H1 H2]. split; [exact H1|]. cbn [setTimeout timers timersSet].
  apply Forall_app. split.
  - eapply Forall_impl; [|exact H2]. intros t [Hd Hi]. split; [exact Hd | lia].
  - repeat constructor.
Qed.

Lemma boundedRetry_setRetryCount v r :
  0 <= v <= MAX_RETRIES -> boundedRetry r -> boundedRetry (setRetryCount v r).
Proof. intros Hv [_ H2]. split; assumption. Qed.

Lemma boundedRetry_filter f r :
  boundedRetry r ->
  boundedRetry (mkReconnect (reconnectTimeoutRef r) (retryCountRef r)
                  (filter f (timers r)) (timersSet r)).
Proof.
  intros [H1 H2]. split; [exact H1|]. cbn [timers timersSet].
  apply Forall_forall. intros x Hx. apply filter_In in Hx.
  rewrite Forall_forall in H2. apply H2, Hx.
Qed.

Lemma boundedRetry_startSession API o now s :
  boundedRetry (reconnect s) -> boundedRetry (reconnect (startSession API o now s)).
Proof.
  intros H. unfold startSession.
  destruct API as [[|c k]|]; try exact H.
  destruct o as [a b c0|msg]; [exact H|].
  apply boundedRetry_clearTimer. exact H.
Qed.

Lemma boundedRetry_handle API e now s :
  boundedRetry (reconnect s) -> boundedRetry (reconnect (handle API e now s)).
Proof.
  intros H. destruct e; cbn [handle].
  - apply (boundedRetry_setRetryCount 0); [unfold MAX_RETRIES; lia | exact H].
  - rewrite onmessage_reconnect. exact H.
  - unfold onclose. destruct captured; try exact H;
      apply boundedRetry_clearTimer; exact H.
  - unfold onerror.
    destruct (Z.ltb_spec (retryCountRef (reconnect s)) MAX_RETRIES) as [Hlt|Hge].
    + apply boundedRetry_setTimeout, boundedRetry_clearTimer.
      apply boundedRetry_setRetryCount; [destruct H; lia | exact H].
    + apply boundedRetry_clearTimer. exact H.
  - unfold timerFired. destruct (existsb _ _); [|exact H].
    apply boundedRetry_startSession. apply boundedRetry_filter. exact H.
  - exact H.
  - apply boundedRetry_startSession. exact H.
  - apply boundedRetry_clearTimer.
    apply (boundedRetry_setRetryCount 0); [unfold MAX_RETRIES; lia | exact H].
Qed.

Lemma boundedRetry_page API e now p :
  boundedRetry (reconnect (Page.session p)) ->
  boundedRetry (reconnect (Page.session (Page.handle API e now p))).
Proof.
  intros H. destruct e; cbn [Page.handle Page.session].
  - now apply boundedRetry_handle.
  - unfold Page.handleLanguageChange. cbn [Page.session].
    destruct (status (ui (Page.session p))); try exact H.
    apply (boundedRetry_handle API StopClicked now _ H).
  - exact H.
  - exact H.
  - destruct (imageRequested_frame API prompt now (Page.session p))
      as (_ & _ & _ & E & _). now rewrite E.
  - destruct (imageAnswered_frame prompt g now (Page.session p))
      as (_ & _ & _ & E & _). now rewrite E.
  - rewrite afterToolCalls_eq.
    rewrite <- (onmessage_reconnect
                  (mkMessage None None (turnComplete m) (interrupted m) None)
                  now 0%Q (Page.session p)) in H.
    exact H.
Qed.

Lemma boundedRetry_settle k now s :
  boundedRetry (reconnect s) -> boundedRetry (reconnect (Live.settle k now s)).
Proof.
  intros H. unfold Live.settle. destruct (Live.armsRestart k); [|exact H].
  apply boundedRetry_setTimeout. exact H.
Qed.

Lemma boundedRetry_stopping k now s l :
  boundedRetry (reconnect s) ->
  boundedRetry (reconnect (Live.session (Live.stopping k now s l))).
Proof.
  intros H. unfold Live.stopping.
  destruct (Live.awaits s); cbn [Live.session Live.page Live.setSession Page.session].
  - apply boundedRetry_clearTimer. exact H.
  - apply boundedRetry_settle. apply boundedRetry_clearTimer. exact H.
Qed.

Lemma boundedRetry_live API e now l :
  boundedRetry (reconnect (Live.session l)) ->
  boundedRetry (reconnect (Live.session (Live.handle API e now l))).
Proof.
  intros H. destruct e; cbn [Live.handle].
  - apply boundedRetry_page. exact H.
  - destruct (Live.onerrorBegin err (Live.session l)) as [s k] eqn:E.
    apply boundedRetry_stopping.
    unfold Live.onerrorBegin in E.
    destruct (Z.ltb_spec (retryCountRef (reconnect (Live.session l))) MAX_RETRIES)
      as [Hlt|Hge]; injection E as <- <-.
    + apply boundedRetry_setRetryCount; [destruct H; lia | exact H].
    + exact H.
  - destruct captured; try exact H; apply boundedRetry_stopping; exact H.
  - apply boundedRetry_stopping.
    apply (boundedRetry_setRetryCount 0); [unfold MAX_RETRIES; lia | exact H].
  - destruct (Live.teardowns l) as [|k r]; [exact H|].
    apply boundedRetry_settle. exact H.
Qed.

(** X12.  In every state the page reaches, whatever the events and their
    order (tasks that run to their end, errors, closes and manual stops cut
    at the [await] of their teardown, and [suspend()] settling in between),
    the retry counter lies between 0 and 3 and every pending restart timer
    is set for 2000 ms. *)
Theorem retry_counter_bounded (API : option jsstring)
    (evs : list (Live.Event * Z)) :
  let r := reconnect (Live.session (Live.run API evs Live.initial)) in
  0 <= retryCountRef r <= 3 /\
  Forall (fun t => delay t = 2000 /\ (timerId t < timersSet r)%nat) (timers r).
Proof.
  assert (H : forall l, boundedRetry (reconnect (Live.session l)) ->
                        boundedRetry (reconnect (Live.session (Live.run API evs l)))).
  { induction evs as [|[e now] evs IH]; intros l Hl; cbn [Live.run].
    - exact Hl.
    - apply IH, boundedRetry_live, Hl. }
  apply H. split; [cbn; unfold MAX_RETRIES; lia | constructor].
Qed.

(** ** The live set of playback nodes *)

Lemma liveOk_flush p : liveOk (stopOutputAudio p).
Proof.
  split; cbn [stopOutputAudio audioSourcesRef]; [constructor | intros i []].
Qed.

Lemma liveOk_same p p' :
  audioSourcesRef p' = audioSourcesRef p -> nodes p' = nodes p ->
  liveOk p -> liveOk p'.
Proof. unfold liveOk. intros -> ->. auto. Qed.

Lemma liveOk_schedule start b p : liveOk p -> liveOk (scheduleBuffer start b p).
Proof.
  intros [Hnd Hin]. unfold scheduleBuffer, liveOk.
  cbn [audioSourcesRef nodes].
  assert (Hfresh : ~ In (length (nodes p)) (audioSourcesRef p)).
  { intros Hi. destruct (Hin _ Hi) as [n [Hn _]].
    assert (Hnone : nth_error (nodes p) (length (nodes p)) = None)
      by (apply nth_error_None; lia).
    congruence. }
  assert (Hadd : setAdd (length (nodes p)) (audioSourcesRef p)
                 = audioSourcesRef p ++ [length (nodes p)]).
  { unfold setAdd.
    destruct (existsb (Nat.eqb (length (nodes p))) (audioSourcesRef p)) eqn:E;
      [|reflexivity].
    apply existsb_exists in E. destruct E as [x [Hx Ex]].
    apply Nat.eqb_eq in Ex. subst x. contradiction. }
  rewrite Hadd. split.
  - apply NoDup_app; [exact Hnd | repeat constructor; intros [] |].
    intros x Hx [<-|[]]. contradiction.
  - intros i Hi. apply in_app_or in Hi. destruct Hi as [Hi|[<-|[]]].
    + destruct (Hin i Hi) as [n [Hn Hs]]. exists n. split; [|exact Hs].
      rewrite nth_error_app1; [exact Hn|].
      apply nth_error_Some. congruence.
    + exists (mkNode start b false).
      rewrite nth_error_app2, Nat.sub_diag by lia. split; reflexivity.
Qed.

Lemma liveOk_playAudio b64 currentTime p :
  liveOk p -> liveOk (playAudio b64 currentTime p).
Proof.
  intros H. unfold playAudio.
  destruct b64 as [x|]; [|exact H].
  destruct (outputAudioContextRef p); [|exact H].
  destruct (truthy x); [|exact H].
  destruct (Audio.decodeAudioData x 24000); [|exact H].
  now apply liveOk_schedule.
Qed.

Lemma liveOk_onended i p : liveOk p -> liveOk (onended i p).
Proof.
  intros [Hnd Hin]. unfold onended, liveOk, setDelete.
  cbn [audioSourcesRef nodes]. split.
  - now apply NoDup_filter.
  - intros j Hj. apply filter_In in Hj. apply Hin, Hj.
Qed.


Lemma liveOk_startSession API o now s :
  liveOk (playback s) -> liveOk (playback (startSession API o now s)).
Proof.
  intros H. unfold startSession.
  destruct API as [[|c k]|]; try exact H.
  destruct o as [a b c0|msg].
  - exact H.
  - apply liveOk_flush.
Qed.

Lemma liveOk_handle API e now s :
  liveOk (playback s) -> liveOk (playback (handle API e now s)).
Proof.
  intros H. destruct e; cbn [handle].
  - exact H.
  - unfold onmessage, withPlayback. cbn [playback].
    apply liveOk_playAudio. rewrite onMessageReceived_playback.
    destruct (interrupted m); [apply liveOk_flush | exact H].
  - unfold onclose. destruct captured; try exact H; apply liveOk_flush.
  - unfold onerror.
    destruct (retryCountRef (reconnect s) <? MAX_RETRIES); apply liveOk_flush.
  - unfold timerFired. destruct (existsb _ _); [|exact H].
    apply liveOk_startSession. exact H.
  - now apply liveOk_onended.
  - now apply liveOk_startSession.
  - apply liveOk_flush.
Qed.

Lemma liveOk_page API e now p :
  liveOk (playback (Page.session p)) ->
  liveOk (playback (Page.session (Page.handle API e now p))).
Proof.
  intros H. destruct e; cbn [Page.handle Page.session].
  - now apply liveOk_handle.
  - unfold Page.handleLanguageChange. cbn [Page.session].
    destruct (status (ui (Page.session p))); try exact H. apply liveOk_flush.
  - exact H.
  - exact H.
  - destruct (imageRequested_frame API prompt now (Page.session p))
      as (_ & E & _). now rewrite E.
  - destruct (imageAnswered_frame prompt g now (Page.session p))
      as (_ & E & _). now rewrite E.
  - rewrite afterToolCalls_eq, onMessageReceived_playback. cbn [interrupted].
    destruct (interrupted m); [apply liveOk_flush | exact H].
Qed.

(** X14.  In every state the page reaches, the live set holds no handle
    twice, and every handle in it is a node that was created, started and
    not stopped since; so the [stop()] of a flush never meets a node that
    was already stopped, and its [catch] is never entered. *)
Theorem live_set_invariant (API : option jsstring)
    (evs : list (Page.Event * Z)) :
  let p := playback (Page.session (Page.run API evs Page.initial)) in
  NoDup (audioSourcesRef p) /\
  (forall i, In i (audioSourcesRef p) ->
     exists n, nth_error (nodes p) i = Some n /\ stopped n = false /\
               stop n = Ok (halted n)).
Proof.
  cbv zeta.
  assert (H : forall p, liveOk (playback (Page.session p)) ->
                        liveOk (playback (Page.session (Page.run API evs p)))).
  { induction evs as [|[e now] evs IH]; intros p Hp; cbn [Page.run].
    - exact Hp.
    - apply IH, liveOk_page, Hp. }
  destruct (H Page.initial) as [Hnd Hin].
  { split; [constructor | intros i []]. }
  split; [exact Hnd|].
  intros i Hi. destruct (Hin i Hi) as [n [Hn Hs]].
  exists n. split; [exact Hn|]. split; [exact Hs|].
  unfold stop. now rewrite Hs.
Qed.

(** ** The partial text on screen *)

Lemma partialsOk_stopSession full now s : partialsOk (stopSession full now s).
Proof. split; left; reflexivity. Qed.

Lemma partialsOk_onMessageReceived m now s :
  partialsOk s -> partialsOk (onMessageReceived m now s).
Proof.
  unfold partialsOk, onMessageReceived, interrupt, completeTurn, receiveText.
  intros [[H1|H1] [H2|H2]];
    destruct (inputTranscription m) as [x|];
    destruct (outputTranscription m) as [y|];
    destruct (turnComplete m); destruct (interrupted m);
    repeat match goal with
           | |- context [truthy ?z] => destruct (truthy z)
           end;
    cbn [ui turn withUi withTurn withPlayback currentInput currentOutput
         currentTurnInputRef currentTurnOutputRef setTranscripts
         setCurrentInput setCurrentOutput setTurnInput setTurnOutput];
    split; auto.
Qed.

Lemma partialsOk_startSession API o now s :
  partialsOk s -> partialsOk (startSession API o now s).
Proof.
  intros H. unfold startSession.
  destruct API as [[|c k]|]; try exact H.
  destruct o as [a b c0|msg]; [exact H | apply partialsOk_stopSession].
Qed.

Lemma partialsOk_handle API e now s :
  partialsOk s -> partialsOk (handle API e now s).
Proof.
  intros H. destruct e; cbn [handle].
  - exact H.
  - apply (partialsOk_onMessageReceived m now s H).
  - unfold onclose. destruct captured; try exact H; apply partialsOk_stopSession.
  - unfold onerror.
    destruct (retryCountRef (reconnect s) <? MAX_RETRIES);
      [split; left; reflexivity | apply partialsOk_stopSession].
  - unfold timerFired. destruct (existsb _ _); [|exact H].
    apply partialsOk_startSession. exact H.
  - exact H.
  - now apply partialsOk_startSession.
  - apply partialsOk_stopSession.
Qed.

Lemma partialsOk_frame s s' : historyOnly s s' -> partialsOk s -> partialsOk s'.
Proof.
  intros (_ & _ & Et & _ & _ & Ei & Eo & _). unfold partialsOk.
  now rewrite Et, Ei, Eo.
Qed.

Lemma mirrored_onMessageReceived m now s :
  currentInput (ui s) = currentTurnInputRef (turn s) /\
  currentOutput (ui s) = currentTurnOutputRef (turn s) ->
  currentInput (ui (onMessageReceived m now s))
    = currentTurnInputRef (turn (onMessageReceived m now s)) /\
  currentOutput (ui (onMessageReceived m now s))
    = currentTurnOutputRef (turn (onMessageReceived m now s)).
Proof.
  unfold onMessageReceived, interrupt, completeTurn, receiveText.
  intros [H1 H2];
    destruct (inputTranscription m) as [x|];
    destruct (outputTranscription m) as [y|];
    destruct (turnComplete m); destruct (interrupted m);
    repeat match goal with
           | |- context [truthy ?z] => destruct (truthy z)
           end;
    cbn [ui turn withUi withTurn withPlayback currentInput currentOutput
         currentTurnInputRef currentTurnOutputRef setTranscripts
         setCurrentInput setCurrentOutput setTurnInput setTurnOutput];
    split; auto.
Qed.

Lemma mirrored_handle API e now s :
  currentInput (ui s) = currentTurnInputRef (turn s) /\
  currentOutput (ui s) = currentTurnOutputRef (turn s) ->
  currentInput (ui (handle API e now s))
    = currentTurnInputRef (turn (handle API e now s)) /\
  currentOutput (ui (handle API e now s))
    = currentTurnOutputRef (turn (handle API e now s)).
Proof.
  intros H. destruct e; cbn [handle].
  - exact H.
  - apply (mirrored_onMessageReceived m now s H).
  - unfold onclose. destruct captured; try exact H; split; reflexivity.
  - unfold onerror.
    destruct (retryCountRef (reconnect s) <? MAX_RETRIES); split; reflexivity.
  - unfold timerFired. destruct (existsb _ _); [|exact H].
    unfold startSession.
    destruct API as [[|c k]|]; try exact H.
    destruct o as [a b c0|msg]; [exact H | split; reflexivity].
  - exact H.
  - unfold startSession.
    destruct API as [[|c k]|]; try exact H.
    destruct o as [a b c0|msg]; [exact H | split; reflexivity].
  - split; reflexivity.
Qed.

(** X15.  In every state the page reaches, the partial text shown for a
    direction is either nothing or exactly the uncommitted buffer of that
    direction; and as long as the Clear button is not used the two are
    equal. *)
Theorem partial_text_shown (API : option jsstring) :
  (forall evs : list (Page.Event * Z),
      partialsOk (Page.session (Page.run API evs Page.initial))) /\
  (forall evs : list (App.Event * Z),
      let s := App.run API evs App.initial in
      currentInput (ui s) = currentTurnInputRef (turn s) /\
      currentOutput (ui s) = currentTurnOutputRef (turn s)).
Proof.
  split.
  - intros evs.
    assert (H : forall p, partialsOk (Page.session p) ->
                          partialsOk (Page.session (Page.run API evs p))).
    { induction evs as [|[e now] evs IH]; intros p Hp; cbn [Page.run].
      - exact Hp.
      - apply IH. destruct e; cbn [Page.handle Page.session].
        + now apply partialsOk_handle.
        + unfold Page.handleLanguageChange. cbn [Page.session].
          destruct (status (ui (Page.session p))); try exact Hp.
          apply partialsOk_stopSession.
        + exact Hp.
        + split; left; reflexivity.
        + exact (partialsOk_frame _ _ (imageRequested_frame API prompt now _) Hp).
        + exact (partialsOk_frame _ _ (imageAnswered_frame prompt g now _) Hp).
        + rewrite afterToolCalls_eq. now apply partialsOk_onMessageReceived. }
    apply H. split; left; reflexivity.
  - intros evs. cbv zeta.
    assert (H : forall s,
               (currentInput (ui s) = currentTurnInputRef (turn s) /\
                currentOutput (ui s) = currentTurnOutputRef (turn s)) ->
               currentInput (ui (App.run API evs s))
                 = currentTurnInputRef (turn (App.run API evs s)) /\
               currentOutput (ui (App.run API evs s))
                 = currentTurnOutputRef (turn (App.run API evs s))).
    { induction evs as [|[e now] evs IH]; intros s Hs; cbn [App.run].
      - exact Hs.
      - apply IH. apply mirrored_handle, Hs. }
    apply H. split; reflexivity.
Qed.

(** ** Audio that arrives with an interruption *)



(** ** Starting and failing to start *)

(** X17.  [startSession] never leaves the page half connected.  Without
    an API key it only sets the error message and touches nothing else.
    When acquiring the microphone fails it ends in [ERROR] with the
    exception's message (or the default text when it has none), every
    session ref null, the capture context not running, nothing live in
    playback, both partial buffers empty and their text saved to the
    history, and no restart timer referenced. *)
Theorem startSession_failures (o : StartOutcome) (message : option jsstring)
    (key : jsstring) (now : Z) (s : State) :
  startSession None o now s
    = withUi (setErrorMsg
                (Some (str "API Key is missing in environment variables."))) s /\
  startSession (Some []) o now s = startSession None o now s /\
  (key <> [] ->
  let s' := startSession (Some key) (Rejected message) now s in
  status (ui s') = ERROR /\
  errorMsg (ui s') =
    Some (match message with
          | Some (c :: r) => c :: r
          | _ => str "Failed to access microphone or connect."
          end) /\
  sessionRef (capture s') = None /\ mediaStreamRef (capture s') = None /\
  workletNodeRef (capture s') = None /\ sourceNodeRef (capture s') = None /\
  globalAudioContextRef (capture s') <> Some running /\
  audioSourcesRef (playback s') = [] /\
  turn s' = mkTurn [] [] /\
  transcripts (ui s')
    = transcripts (ui s)
      ++ committed now "-saved-input" "-saved-output"
           (currentTurnInputRef (turn s)) (currentTurnOutputRef (turn s)) /\
  reconnectTimeoutRef (reconnect s') = None).
Proof.
  split; [reflexivity|]. split; [reflexivity|].
  intros Hk. cbv zeta.
  destruct key as [|c k]; [congruence|].
  unfold startSession.
  rewrite stopSession_history.
  repeat (split; [reflexivity|]).
  split.
  { unfold stopSession, releaseCapture.
    cbn [capture withUi withCapture withPlayback resumeCapture
         globalAudioContextRef].
    destruct (globalAudioContextRef (capture s)) as [[| |]|]; discriminate. }
  repeat (split; [reflexivity|]).
  unfold stopSession, clearTimer. cbn [reconnect withUi withCapture withPlayback].
  destruct (reconnectTimeoutRef (reconnect s)) eqn:E; [reflexivity | exact E].
Qed.

Lemma startSession_failures_witness :
  let s := mkState (mkUi DISCONNECTED [] (str "hi") [] None)
             (mkCapture (Some suspended) None None None None [])
             (mkPlayback None 0 [] []) (mkTurn (str "hi") [])
             (mkReconnect None 0 [] 0) in
  let s' := startSession (Some (str "key")) (Rejected None) 5 s in
  status (ui s') = ERROR /\
  errorMsg (ui s') = Some (str "Failed to access microphone or connect.") /\
  transcripts (ui s') = [mkItem (str "5-saved-input") user (str "hi") None true 5].
Proof.
  intros s s'.
  destruct (startSession_failures (Wired 0 0 0) None (str "key") 5 s)
    as [_ [_ H]].
  destruct H as [H1 [H2 [_ [_ [_ [_ [_ [_ [_ [H3 _]]]]]]]]]]; [discriminate|].
  split; [exact H1|]. split; [exact H2 | exact H3].
Defined.

(** ** Teardown across its [await] *)

Lemma stopSession_twice f1 f2 now1 now2 s :
  stopSession f2 now2 (stopSession f1 now1 s) = stopSession (f1 || f2) now1 s.
Proof.
  unfold stopSession.
  cbn [ui capture playback turn reconnect status transcripts currentInput
       currentOutput errorMsg].
  rewrite releaseCapture_idem, clearTimer_idem.
  f_equal. f_equal. destruct f1, f2; reflexivity.
Qed.

Lemma awaits_running s :
  globalAudioContextRef (capture s) = Some running -> Live.awaits s = true.
Proof. unfold Live.awaits. now intros ->. Qed.

(** The queue after the first steps of a teardown, when it waits. *)
Lemma stopping_waits k now s l :
  Live.awaits s = true ->
  Live.stopping k now s l
  = Live.mk (Live.setSession (Live.stopSessionBegin s) l) (Live.teardowns l ++ [k]).
Proof. unfold Live.stopping. now intros ->. Qed.

Lemma stopping_at_once k now s l :
  Live.awaits s = false ->
  Live.stopping k now s l
  = Live.mk (Live.setSession (Live.settle k now (Live.stopSessionBegin s)) l)
      (Live.teardowns l).
Proof. unfold Live.stopping. now intros ->. Qed.

(** X18.  A close event and a teardown.  After a manual stop has run to
    its end, a close changes nothing, whatever status its handler
    captured, and so does a second manual stop.  When a socket fails, its
    error and close events come one after the other; with the capture
    context running, the close then lands while the teardown of the error
    still awaits [suspend()], and once both have settled the page shows
    [DISCONNECTED] under the banner of the reconnection while the restart
    timer armed by the error is pending, and fires into [startSession].
    Had the error's teardown settled before the close, the close would
    have cancelled the restart. *)
Theorem close_during_teardown (API : option jsstring)
    (captured : ConnectionStatus) (err : option jsstring)
    (now1 now2 now3 now4 : Z) (l : Live.t) :
  (forall s now now',
      onclose captured now' (handleDisconnect now s) = handleDisconnect now s /\
      handleDisconnect now' (handleDisconnect now s) = handleDisconnect now s) /\
  (Live.teardowns l = [] ->
   globalAudioContextRef (capture (Live.session l)) = Some running ->
   tracked (reconnect (Live.session l)) ->
   retryCountRef (reconnect (Live.session l)) < MAX_RETRIES ->
   captured <> DISCONNECTED ->
   let t := timersSet (reconnect (Live.session l)) in
   let n := retryCountRef (reconnect (Live.session l)) + 1 in
   let during :=
     Live.run API [(Live.ErrorBegan err, now1); (Live.CloseBegan captured, now2);
                   (Live.Settled, now3); (Live.Settled, now4)] l in
   let after :=
     Live.run API [(Live.ErrorBegan err, now1); (Live.Settled, now2);
                   (Live.CloseBegan captured, now3); (Live.Settled, now4)] l in
   (Live.teardowns during = [] /\
    status (ui (Live.session during)) = DISCONNECTED /\
    errorMsg (ui (Live.session during)) = Some (reconnectingText n) /\
    reconnect (Live.session during)
      = mkReconnect (Some t) n [mkTimer t 2000] (S t) /\
    (forall key stream source worklet now5,
        key <> [] ->
        let s'' := timerFired (Some key) t (Wired stream source worklet) now5
                     (Live.session during) in
        status (ui s'') = CONNECTING /\
        mediaStreamRef (capture s'') = Some stream /\
        timers (reconnect s'') = [])) /\
   (Live.teardowns after = [] /\
    status (ui (Live.session after)) = DISCONNECTED /\
    errorMsg (ui (Live.session after)) = Some (reconnectingText n) /\
    reconnect (Live.session after) = mkReconnect None n [] (S t))).
Proof.
  split.
  { intros s now now'.
    assert (H1 : forall c, onclose c now' (handleDisconnect now s)
                           = handleDisconnect now s).
    { intros c. unfold onclose, handleDisconnect.
      destruct c; try reflexivity; now rewrite stopSession_twice. }
    split; [apply H1|].
    unfold handleDisconnect at 1.
    transitivity (stopSession true now' (handleDisconnect now s)).
    - unfold handleDisconnect, stopSession. cbn [ui capture playback turn reconnect
        status transcripts currentInput currentOutput errorMsg].
      f_equal. unfold clearTimer.
      cbn [reconnectTimeoutRef retryCountRef timers timersSet].
      destruct (reconnectTimeoutRef (reconnect s)); reflexivity.
    - apply (H1 CONNECTED). }
  intros Hq Hrun Htr Hlt Hc. cbv zeta.
  destruct l as [[s lang menu] q].
  cbn [Live.teardowns Live.session Live.page Page.session] in *.
  subst q.
  assert (Hlt' : (retryCountRef (reconnect s) <? MAX_RETRIES) = true)
    by (apply Z.ltb_lt; exact Hlt).
  assert (Hcl : clearTimer (setRetryCount (retryCountRef (reconnect s) + 1) (reconnect s))
                = mkReconnect None (retryCountRef (reconnect s) + 1) []
                    (timersSet (reconnect s))).
  { apply (clearTimer_tracked (setRetryCount _ (reconnect s))).
    intros x Hx. apply (Htr x Hx). }
  assert (Eclose : forall now l0,
             Live.handle API (Live.CloseBegan captured) now l0
             = Live.stopping (Live.mkPending true false) now (Live.session l0) l0).
  { intros now l0. cbn [Live.handle]. destruct captured; try reflexivity. congruence. }
  split.
  - cbn [Live.run]. rewrite !Eclose.
    cbn [Live.handle Live.session Live.page Page.session].
    unfold Live.onerrorBegin. rewrite Hlt'.
    rewrite (stopping_waits (Live.mkPending false true))
      by (apply awaits_running; exact Hrun).
    cbn [Live.session Live.page Live.setSession Page.session Live.teardowns app].
    rewrite (stopping_waits (Live.mkPending true false))
      by (apply awaits_running; exact Hrun).
    cbn [Live.session Live.page Live.setSession Page.session Live.teardowns app
         Page.selectedLang Page.isLangMenuOpen].
    set (s' := Live.settle _ now4 _).
    assert (Hr : reconnect s'
                 = mkReconnect (Some (timersSet (reconnect s)))
                     (retryCountRef (reconnect s) + 1)
                     [mkTimer (timersSet (reconnect s)) 2000]
                     (S (timersSet (reconnect s)))).
    { unfold s', Live.settle.
      cbn [Live.fullDisconnect Live.armsRestart Live.stopSessionEnd
           Live.stopSessionBegin reconnect withReconnect withUi].
      rewrite Hcl. reflexivity. }
    split; [reflexivity|]. split; [reflexivity|]. split; [reflexivity|].
    split; [exact Hr|].
    intros key stream source worklet now5 Hk.
    destruct key as [|c k]; [congruence|].
    unfold timerFired. rewrite Hr. cbn [timers existsb timerId].
    rewrite Nat.eqb_refl. cbn [orb].
    unfold startSession.
    cbn [withReconnect withUi withCapture withPlayback ui capture reconnect status
         mediaStreamRef timers setStatus setErrorMsg].
    rewrite Hr. cbn [timers filter timerId]. rewrite Nat.eqb_refl.
    cbn [negb]. repeat split.
  - cbn [Live.run]. rewrite !Eclose.
    cbn [Live.handle Live.session Live.page Page.session].
    unfold Live.onerrorBegin. rewrite Hlt'.
    rewrite (stopping_waits (Live.mkPending false true))
      by (apply awaits_running; exact Hrun).
    cbn [Live.session Live.page Live.setSession Page.session Live.teardowns app
         Page.selectedLang Page.isLangMenuOpen].
    rewrite stopping_at_once.
    2:{ unfold Live.awaits, Live.settle.
        cbn [Live.fullDisconnect Live.armsRestart Live.stopSessionEnd
             Live.stopSessionBegin capture withReconnect withUi
             globalAudioContextRef].
        rewrite Hrun. reflexivity. }
    cbn [Live.session Live.page Live.setSession Page.session Live.teardowns
         Page.selectedLang Page.isLangMenuOpen].
    unfold Live.settle.
    cbn [Live.fullDisconnect Live.armsRestart Live.stopSessionEnd Live.stopSessionBegin
         ui capture playback turn reconnect withReconnect withUi status errorMsg
         setStatus setErrorMsg].
    rewrite Hcl.
    cbn [setTimeout clearTimer reconnectTimeoutRef retryCountRef timers timersSet
         app filter timerId Nat.eqb negb].
    rewrite Nat.eqb_refl. cbn [negb].
    repeat split.
Qed.

Lemma close_during_teardown_witness :
  let s := onopen 0 (startSession (Some (str "key")) (Wired 0 1 2) 0 App.initial) in
  let l := Live.mk (Page.mk s (str "none") false) [] in
  let during :=
    Live.run (Some (str "key"))
      [(Live.ErrorBegan None, 1); (Live.CloseBegan ERROR, 2);
       (Live.Settled, 3); (Live.Settled, 4)] l in
  let after :=
    Live.run (Some (str "key"))
      [(Live.ErrorBegan None, 1); (Live.Settled, 2);
       (Live.CloseBegan ERROR, 3); (Live.Settled, 4)] l in
  status (ui (Live.session during)) = DISCONNECTED /\
  timers (reconnect (Live.session during)) = [mkTimer 0 2000] /\
  status (ui (timerFired (Some (str "key")) 0 (Wired 3 4 5) 2004
                (Live.session during))) = CONNECTING /\
  status (ui (Live.session after)) = DISCONNECTED /\
  timers (reconnect (Live.session after)) = [].
Proof.
  intros s l during after.
  destruct (close_during_teardown (Some (str "key")) ERROR None 1 2 3 4 l)
    as [_ H].
  destruct H as [[_ [H1 [_ [H2 H3]]]] [_ [H4 [_ H5]]]];
    [reflexivity | reflexivity | intros t [] | reflexivity | discriminate |].
  split; [exact H1|]. split; [unfold during; now rewrite H2|].
  split.
  { destruct (H3 (str "key") 3%nat 4%nat 5%nat 2004) as [H _];
      [discriminate | exact H]. }
  split; [exact H4|]. unfold after. now rewrite H5.
Defined.

(** X13.  A manual stop.  With no teardown waiting and no timer but the one
    [reconnectTimeoutRef] names, it ends [DISCONNECTED] with the retry
    counter at 0, no timer pending, the session, stream and node refs null
    and the capture context not running, and a timer that fires afterwards
    finds nothing to do.  Pressed while the teardown of an error still
    awaits [suspend()], it ends [DISCONNECTED] too, but the restart the
    error arms once its teardown settles is pending, and when it fires the
    page reconnects. *)
Theorem stop_during_teardown (API : option jsstring) (err : option jsstring)
    (now1 now2 now3 now4 : Z) (l : Live.t) :
  Live.teardowns l = [] ->
  tracked (reconnect (Live.session l)) ->
  let s := Live.session l in
  let t := timersSet (reconnect s) in
  (let l' := Live.run API [(Live.StopBegan, now1); (Live.Settled, now2)] l in
   let s' := Live.session l' in
   Live.teardowns l' = [] /\
   status (ui s') = DISCONNECTED /\
   reconnect s' = mkReconnect None 0 [] t /\
   sessionRef (capture s') = None /\ mediaStreamRef (capture s') = None /\
   workletNodeRef (capture s') = None /\ sourceNodeRef (capture s') = None /\
   globalAudioContextRef (capture s') <> Some running /\
   (forall t' o now', timerFired API t' o now' s' = s')) /\
  (globalAudioContextRef (capture s) = Some running ->
   retryCountRef (reconnect s) < MAX_RETRIES ->
   let l' := Live.run API [(Live.ErrorBegan err, now1); (Live.StopBegan, now2);
                           (Live.Settled, now3); (Live.Settled, now4)] l in
   let s' := Live.session l' in
   Live.teardowns l' = [] /\
   status (ui s') = DISCONNECTED /\
   reconnect s' = mkReconnect (Some t) 0 [mkTimer t 2000] (S t) /\
   errorMsg (ui s')
     = Some (reconnectingText (retryCountRef (reconnect s) + 1)) /\
   (forall key stream source worklet now5,
       key <> [] ->
       let s'' := timerFired (Some key) t (Wired stream source worklet) now5 s' in
       status (ui s'') = CONNECTING /\
       mediaStreamRef (capture s'') = Some stream /\
       timers (reconnect s'') = [])).
Proof.
  intros Hq Htr. cbv zeta.
  destruct l as [[s lang menu] q].
  cbn [Live.teardowns Live.session Live.page Page.session] in *. subst q.
  assert (Hcl0 : clearTimer (setRetryCount 0 (reconnect s))
                 = mkReconnect None 0 [] (timersSet (reconnect s))).
  { apply (clearTimer_tracked (setRetryCount _ (reconnect s))).
    intros x Hx. apply (Htr x Hx). }
  assert (Hstop : forall now,
             let s' := Live.settle (Live.mkPending true false) now
                         (Live.stopSessionBegin (withReconnect (setRetryCount 0) s)) in
             status (ui s') = DISCONNECTED /\
             reconnect s' = mkReconnect None 0 [] (timersSet (reconnect s)) /\
             sessionRef (capture s') = None /\ mediaStreamRef (capture s') = None /\
             workletNodeRef (capture s') = None /\ sourceNodeRef (capture s') = None /\
             globalAudioContextRef (capture s') <> Some running /\
             (forall t' o now', timerFired API t' o now' s' = s')).
  { intros now. cbv zeta.
    assert (Hr : reconnect (Live.settle (Live.mkPending true false) now
                              (Live.stopSessionBegin
                                 (withReconnect (setRetryCount 0) s)))
                 = mkReconnect None 0 [] (timersSet (reconnect s)))
      by exact Hcl0.
    split; [reflexivity|]. split; [exact Hr|].
    repeat (split; [reflexivity|]).
    split.
    - unfold Live.settle.
      cbn [Live.fullDisconnect Live.armsRestart Live.stopSessionEnd
           Live.stopSessionBegin capture withReconnect globalAudioContextRef].
      destruct (globalAudioContextRef (capture s)) as [[| |]|]; discriminate.
    - intros t' o now'. unfold timerFired. rewrite Hr. reflexivity. }
  split.
  - cbn [Live.run Live.handle Live.session Live.page Page.session].
    destruct (Live.awaits (withReconnect (setRetryCount 0) s)) eqn:Ea.
    + rewrite stopping_waits by exact Ea.
      cbn [Live.session Live.page Live.setSession Page.session Live.teardowns app
           Page.selectedLang Page.isLangMenuOpen].
      split; [reflexivity | apply Hstop].
    + rewrite stopping_at_once by exact Ea.
      cbn [Live.session Live.page Live.setSession Page.session Live.teardowns app
           Page.selectedLang Page.isLangMenuOpen].
      split; [reflexivity | apply Hstop].
  - intros Hrun Hlt.
    assert (Hlt' : (retryCountRef (reconnect s) <? MAX_RETRIES) = true)
      by (apply Z.ltb_lt; exact Hlt).
    assert (Hcl : clearTimer (setRetryCount (retryCountRef (reconnect s) + 1)
                                (reconnect s))
                  = mkReconnect None (retryCountRef (reconnect s) + 1) []
                      (timersSet (reconnect s))).
    { apply (clearTimer_tracked (setRetryCount _ (reconnect s))).
      intros x Hx. apply (Htr x Hx). }
    cbn [Live.run Live.handle Live.session Live.page Page.session].
    unfold Live.onerrorBegin. rewrite Hlt'.
    rewrite (stopping_waits (Live.mkPending false true))
      by (apply awaits_running; exact Hrun).
    cbn [Live.session Live.page Live.setSession Page.session Live.teardowns app].
    rewrite (stopping_waits (Live.mkPending true false))
      by (apply awaits_running; exact Hrun).
    cbn [Live.session Live.page Live.setSession Page.session Live.teardowns app
         Page.selectedLang Page.isLangMenuOpen].
    set (s' := Live.settle _ now4 _).
    assert (Hr : reconnect s'
                 = mkReconnect (Some (timersSet (reconnect s))) 0
                     [mkTimer (timersSet (reconnect s)) 2000]
                     (S (timersSet (reconnect s)))).
    { unfold s', Live.settle.
      cbn [Live.fullDisconnect Live.armsRestart Live.stopSessionEnd
           Live.stopSessionBegin reconnect withReconnect withUi].
      rewrite Hcl. reflexivity. }
    split; [reflexivity|]. split; [reflexivity|]. split; [exact Hr|].
    split; [reflexivity|].
    intros key stream source worklet now5 Hk.
    destruct key as [|c k]; [congruence|].
    unfold timerFired. rewrite Hr. cbn [timers existsb timerId].
    rewrite Nat.eqb_refl. cbn [orb].
    unfold startSession.
    cbn [withReconnect withUi withCapture withPlayback ui capture reconnect status
         mediaStreamRef timers setStatus setErrorMsg].
    rewrite Hr. cbn [timers filter timerId]. rewrite Nat.eqb_refl.
    cbn [negb]. repeat split.
Qed.

Lemma stop_during_teardown_witness :
  let s := onopen 0 (startSession (Some (str "key")) (Wired 0 1 2) 0 App.initial) in
  let l := Live.mk (Page.mk s (str "none") false) [] in
  let stopped :=
    Live.run (Some (str "key")) [(Live.StopBegan, 1); (Live.Settled, 2)] l in
  let raced :=
    Live.run (Some (str "key"))
      [(Live.ErrorBegan None, 1); (Live.StopBegan, 2);
       (Live.Settled, 3); (Live.Settled, 4)] l in
  (status (ui (Live.session stopped)) = DISCONNECTED /\
   timers (reconnect (Live.session stopped)) = []) /\
  (status (ui (Live.session raced)) = DISCONNECTED /\
   timers (reconnect (Live.session raced)) = [mkTimer 0 2000] /\
   status (ui (timerFired (Some (str "key")) 0 (Wired 3 4 5) 2004
                 (Live.session raced))) = CONNECTING).
Proof.
  intros s l stopped raced.
  destruct (stop_during_teardown (Some (str "key")) None 1 2 3 4 l)
    as [[_ [H1 [H2 _]]] H]; [reflexivity | intros t [] |].
  split.
  { split; [exact H1|]. unfold stopped. now rewrite H2. }
  destruct H as [_ [H3 [H4 [_ H5]]]]; [reflexivity | reflexivity |].
  split; [exact H3|]. split; [unfold raced; now rewrite H4|].
  destruct (H5 (str "key") 3%nat 4%nat 5%nat 2004) as [H _];
    [discriminate | exact H].
Defined.

(** ** The system instruction *)

Lemma strictEq_eq a : forall b, strictEq a b = true <-> a = b.
Proof.
  induction a as [|x a IH]; intros [|y b]; cbn [strictEq].
  - tauto.
  - split; discriminate.
  - split; discriminate.
  - rewrite andb_true_iff, IH, Z.eqb_eq. split.
    + intros [-> ->]. reflexivity.
    + intros E. injection E as -> ->. auto.
Qed.

Lemma strictEq_neq a b : a <> b -> strictEq a b = false.
Proof.
  intros H. destruct (strictEq a b) eqn:E; [|reflexivity].
  apply strictEq_eq in E. contradiction.
Qed.

Lemma find_absent (A : Type) (f : A -> bool) (l : list A) :
  (forall x, In x l -> f x = false) -> find f l = None.
Proof.
  induction l as [|x l IH]; intros H; [reflexivity|].
  cbn [find]. rewrite (H x (or_introl eq_refl)).
  apply IH. intros y Hy. apply H. now right.
Qed.

(** X19.  The instruction sent at connect is the transcription text for
    the code [none]; for every other code of the language table it is the
    interpreter text naming that entry's language; and for a code the
    table does not hold, the lookup finds nothing and the text names the
    language [undefined]. *)
Theorem system_instruction_by_language (langCode : jsstring) :
  Page.getSystemInstruction (str "none") = transcribeInstruction /\
  (forall l, In l Page.LANGUAGES -> Page.code l <> str "none" ->
             Page.getSystemInstruction (Page.code l)
             = interpreterInstruction (Page.name l)) /\
  ((forall l, In l Page.LANGUAGES -> Page.code l <> langCode) ->
   Page.getSystemInstruction langCode
   = interpreterInstruction (str "undefined")).
Proof.
  split; [reflexivity|]. split.
  - intros l Hl Hn. cbn [Page.LANGUAGES In] in Hl.
    repeat (destruct Hl as [<-|Hl]; [try reflexivity; contradiction Hn; reflexivity|]).
    destruct Hl.
  - intros H. unfold Page.getSystemInstruction.
    rewrite find_absent.
    + rewrite strictEq_neq; [reflexivity|].
      intros E. apply (H (Page.mkLanguage (str "none") (str "Transcribe (Original)")
                             [55356; 57241; 65039])); [now left | now rewrite E].
    + intros l Hl. apply strictEq_neq. now apply H.
Qed.

Lemma system_instruction_by_language_witness :
  Page.getSystemInstruction (str "ja") = interpreterInstruction (str "Japanese") /\
  Page.getSystemInstruction (str "it") = interpreterInstruction (str "undefined").
Proof.
  destruct (system_instruction_by_language (str "it")) as [_ [H1 H2]].
  split.
  - apply (H1 (Page.mkLanguage (str "ja") (str "Japanese") (Page.flagOf 74 80))).
    + cbn [Page.LANGUAGES In]. auto 10.
    + discriminate.
  - apply H2. intros l Hl. cbn [Page.LANGUAGES In] in Hl.
    repeat (destruct Hl as [<-|Hl]; [discriminate|]). destruct Hl.
Defined.

(** ** From the recorder to the wire *)

(** Whatever the lengths of the blocks, the calls that return have posted
    full chunks only. *)
Lemma processAll_extends sampleRate blocks :
  (16000 <= sampleRate)%Q ->
  forall p p', RecorderProcessor.wf p ->
  processAll sampleRate blocks p = Some p' ->
  RecorderProcessor.wf p' /\ extends p p'.
Proof.
  intros HR. pose proof (div_ratio sampleRate HR) as Hratio.
  assert (Hr0 : (0 <= Float64.div sampleRate RecorderProcessor._targetSampleRate)%Q)
    by lra.
  induction blocks as [|channelData r IH]; intros p p' Hwf Hp;
    cbn [processAll] in Hp.
  - injection Hp as <-. split; [exact Hwf | apply extends_refl].
  - destruct (RecorderProcessor.process sampleRate [[channelData]] p)
      as [p1|] eqn:E1; [|discriminate].
    cbn [RecorderProcessor.process] in E1.
    destruct (loop_visited channelData _ Hr0 _ _ _ _ (Qle_refl 0) Hwf E1)
      as [Hwf1 [Hex1 _]].
    destruct (IH p1 p' Hwf1 Hp) as [Hwf' Hex'].
    split; [exact Hwf' | exact (extends_trans _ _ _ Hex1 Hex')].
Qed.

(** X20.  What leaves the page.  While a session is open, every chunk the
    recorder posts over any sequence of blocks is sent to that session as
    a blob tagged [audio/pcm;rate=16000] whose text decodes to exactly 4096
    bytes, the 2048 samples of the chunk; the calls of [process] all
    return, whatever the rounding of the index, on blocks no longer than a
    typed array can be; and after a teardown a block that still arrives
    from the worklet is dropped. *)
Theorem capture_to_wire (sampleRate : Q) (blocks : list (list Q))
    (p : RecorderProcessor.t) (s : State) (sess : nat) :
  (16000 <= sampleRate)%Q ->
  RecorderProcessor.wf p ->
  sessionRef (capture s) = Some sess ->
  (Forall (fun b => Z.of_nat (length b) <= 2 ^ 53) blocks ->
   exists p', processAll sampleRate blocks p = Some p') /\
  (forall p',
      processAll sampleRate blocks p = Some p' ->
      exists new,
        RecorderProcessor.posted p' = RecorderProcessor.posted p ++ new /\
        Forall (fun chunk =>
                  exists blob bytes,
                    Tools.onPortMessage chunk s = Some (sess, Ok blob) /\
                    Audio.mimeType blob = str "audio/pcm;rate=16000" /\
                    Audio.base64ToArrayBuffer (Audio.data blob) = Ok bytes /\
                    bytes = flat_map Audio.int16_bytes (map Audio.pcm16 chunk) /\
                    length bytes = 4096%nat)
               new) /\
  (forall chunk full now,
      Tools.onPortMessage chunk (stopSession full now s) = None).
Proof.
  intros HR Hwf Hs. split; [|split; [|reflexivity]].
  { intros HL.
    destruct (processAll_run sampleRate blocks HR HL p Hwf) as [p' [H1 _]].
    exists p'. exact H1. }
  intros p' H1.
  destruct (processAll_extends sampleRate blocks HR p p' Hwf H1)
    as [_ [new [Hn Hf]]].
  exists new. split; [exact Hn|].
  eapply Forall_impl; [|exact Hf].
  intros chunk Hc. cbn beta in Hc.
  destruct (createPcmBlob_bytes chunk) as [blob [Hb Hd]].
  exists blob. eexists.
  unfold Tools.onPortMessage. rewrite Hs, Hb.
  split; [reflexivity|]. split.
  { unfold Audio.createPcmBlob in Hb.
    destruct (Audio.arrayBufferToBase64 _); [|discriminate].
    cbn [bind] in Hb. injection Hb as <-. reflexivity. }
  split; [exact Hd|]. split; [reflexivity|].
  rewrite int16_bytes_length, length_map, Hc. reflexivity.
Qed.

Lemma capture_to_wire_witness :
  let p := RecorderProcessor.mk (repeat 0%Q 2048) 2047 [] in
  let s := onopen 7 App.initial in
  exists p' new,
    processAll 16000 [[1; -1]%Q] p = Some p' /\
    RecorderProcessor.posted p' = RecorderProcessor.posted p ++ new /\
    length new = 1%nat /\
    Forall (fun chunk =>
              exists blob bytes,
                Tools.onPortMessage chunk s = Some (7%nat, Ok blob) /\
                Audio.base64ToArrayBuffer (Audio.data blob) = Ok bytes /\
                length bytes = 4096%nat)
           new.
Proof.
  intros p s.
  destruct (capture_to_wire 16000 [[1; -1]%Q] p s 7) as [Hret [Hpost _]].
  - lra.
  - split; [reflexivity | vm_compute; lia].
  - reflexivity.
  - destruct Hret as [p' H1]; [repeat constructor; vm_compute; discriminate|].
    destruct (Hpost p' H1) as [new [H2 H3]].
    exists p', new. split; [exact H1|]. split; [exact H2|]. split.
    + assert (E : p' = RecorderProcessor.mk
                         (RecorderProcessor.store
                            (RecorderProcessor.store (repeat 0%Q 2048) 2047 1) 0 (-1))
                         1 [RecorderProcessor.store (repeat 0%Q 2048) 2047 1]).
      { assert (Hs : Some p' = Some (RecorderProcessor.mk
                         (RecorderProcessor.store
                            (RecorderProcessor.store (repeat 0%Q 2048) 2047 1) 0 (-1))
                         1 [RecorderProcessor.store (repeat 0%Q 2048) 2047 1])).
        { rewrite <- H1. vm_compute. reflexivity. }
        now injection Hs. }
      rewrite E in H2. cbn [RecorderProcessor.posted app] in H2.
      apply (f_equal (@length (list Q))) in H2. cbn [length] in H2.
      unfold p in H2. cbn [RecorderProcessor.posted app] in H2. lia.
    + eapply Forall_impl; [|exact H3].
      intros chunk [blob [bytes [Ha [_ [Hb [_ Hc]]]]]].
      exists blob, bytes. auto.
Defined.

(** ** The image tool *)

(** X21.  A [render_image] call with an API key.  Whatever the image
    service answers or throws and whatever happens to the page meanwhile,
    the call first adds the "Generating image" turn, and when the answer is
    in it adds at most one more turn and touches nothing but the history
    (the session, capture, playback, turn buffers, retry state, status,
    partial texts and error message are as they were);
    the text it reports is the success text exactly when a turn with the
    image was added, which happens exactly when the first part carrying
    inline data has a payload that is not empty; and the reply, echoing
    the call's id and name, is sent exactly when a session is open once the
    answer is in.  A call of any other name changes nothing and sends
    nothing. *)
Theorem render_image_outcome (key : jsstring) (fc : Tools.FunctionCall)
    (g : Tools.Generated) (now1 now2 : Z) (before : State)
    (during : State -> State) :
  key <> [] ->
  let started :=
    withUi (setTranscripts
              (fun prev => prev ++ [Tools.generatingItem (Tools.prompt fc) now1]))
      before in
  let s1 := during started in
  let out := Tools.renderImage (Some key) fc g now1 now2 before during in
  (Tools.callName fc <> str "render_image" -> out = (before, None)) /\
  (Tools.callName fc = str "render_image" ->
   exists text extra,
     In text [imageSuccess; imageFailed; imageError] /\
     transcripts (ui (fst out)) = transcripts (ui s1) ++ extra /\
     historyOnly s1 (fst out) /\
     (text = imageSuccess <->
      exists img, extra = [Tools.imageItem (Tools.prompt fc) img now2] /\
                  img <> [] /\
                  match g with
                  | Tools.Responded parts => Tools.firstInline parts = Some img
                  | Tools.Threw => False
                  end) /\
     (text <> imageSuccess -> extra = []) /\
     snd out =
       match sessionRef (capture s1) with
       | Some _ => Some (Tools.mkResponse (Tools.callId fc) (Tools.callName fc)
                           (Some text))
       | None => None
       end).
Proof.
  intros Hk. cbv zeta. destruct key as [|c k]; [congruence|].
  unfold Tools.renderImage. split.
  - intros Hn. now rewrite strictEq_neq.
  - intros Hn. rewrite (proj2 (strictEq_eq _ _) Hn).
    cbn [Tools.generateImageBegin].
    set (s1 := during _).
    unfold Tools.generateImageEnd, Tools.toolResponse.
    assert (Hs : imageFailed <> imageSuccess) by discriminate.
    assert (He : imageError <> imageSuccess) by discriminate.
    destruct g as [parts|]; [destruct (Tools.firstInline parts) as [[|x img]|] eqn:Ef|].
    + exists imageFailed, []. cbn [fst snd]. rewrite app_nil_r.
      unfold historyOnly.
      repeat match goal with |- _ /\ _ => split end; try reflexivity.
      * cbn [In]. tauto.
      * split; [intros E; now contradiction Hs|].
        intros [img [_ [Hi E]]]. congruence.
    + exists imageSuccess, [Tools.imageItem (Tools.prompt fc) (x :: img) now2].
      cbn [fst snd].
      unfold historyOnly.
      repeat match goal with |- _ /\ _ => split end; try reflexivity.
      * cbn [In]. tauto.
      * split; [|reflexivity]. intros _. exists (x :: img).
        split; [reflexivity|]. split; [discriminate | reflexivity].
      * intros H. now contradiction H.
    + exists imageFailed, []. cbn [fst snd]. rewrite app_nil_r.
      unfold historyOnly.
      repeat match goal with |- _ /\ _ => split end; try reflexivity.
      * cbn [In]. tauto.
      * split; [intros E; now contradiction Hs|].
        intros [img [_ [_ E]]]. discriminate E.
    + exists imageError, []. cbn [fst snd]. rewrite app_nil_r.
      unfold historyOnly.
      repeat match goal with |- _ /\ _ => split end; try reflexivity.
      * cbn [In]. tauto.
      * split; [intros E; now contradiction He|].
        intros [img [_ [_ []]]].
Qed.

Lemma render_image_outcome_witness :
  let fc := Tools.mkCall (str "1") (str "render_image") (str "cat") in
  let g := Tools.Responded [Tools.TextPart; Tools.InlinePart (Some (str "AAAA"))] in
  let out :=
    Tools.renderImage (Some (str "k")) fc g 1 2 (onopen 7 App.initial) (fun s => s) in
  str "k" <> [] /\
  exists text,
    In text [imageSuccess; imageFailed; imageError] /\
    snd out = Some (Tools.mkResponse (str "1") (str "render_image") (Some text)).
Proof.
  intros fc g out.
  assert (Hk : str "k" <> []) by discriminate.
  split; [exact Hk|].
  destruct (render_image_outcome (str "k") fc g 1 2 (onopen 7 App.initial)
              (fun s => s) Hk) as [_ H].
  destruct (H eq_refl) as [text [extra [Hin [_ [_ [_ [_ Hsnd]]]]]]].
  exists text. split; [exact Hin | exact Hsnd].
Defined.

(** ** The history of the page *)

Lemma finalTurn_shown it : finalTurn it -> shownTurn it.
Proof. intros [H1 [H2 _]]. split; assumption. Qed.

Lemma grows_nil (l : list TranscriptItem) :
  exists new, l = l ++ new /\ Forall shownTurn new.
Proof. exists []. rewrite app_nil_r. split; [reflexivity | constructor]. Qed.

Lemma session_history_shown API e now s :
  exists new,
    transcripts (ui (App.handle API e now s)) = transcripts (ui s) ++ new /\
    Forall shownTurn new.
Proof.
  destruct (handle_history API e now s) as [new [H F]].
  exists new. split; [exact H|].
  eapply Forall_impl; [|exact F]. exact finalTurn_shown.
Qed.

Lemma page_handle_history API e now p :
  e <> Page.ClearClicked ->
  exists new,
    history (Page.handle API e now p) = history p ++ new /\
    Forall shownTurn new.
Proof.
  intros Hc. unfold history. destruct e; cbn [Page.handle Page.session].
  - apply session_history_shown.
  - unfold Page.handleLanguageChange. cbn [Page.session].
    destruct (status (ui (Page.session p))); try apply grows_nil.
    apply (session_history_shown API StopClicked now).
  - apply grows_nil.
  - contradiction Hc. reflexivity.
  - destruct API as [[|c k]|]; cbn [Tools.generateImageBegin];
      try apply grows_nil.
    eexists. cbn [ui withUi transcripts setTranscripts].
    split; [reflexivity|]. repeat constructor.
  - unfold Tools.generateImageEnd.
    destruct g as [parts|];
      [destruct (Tools.firstInline parts) as [[|c r]|]|];
      cbn [fst]; try apply grows_nil.
    eexists. cbn [ui withUi transcripts setTranscripts].
    split; [reflexivity|]. repeat constructor.
  - rewrite afterToolCalls_eq.
    destruct (onMessageReceived_history
                (mkMessage None None (turnComplete m) (interrupted m) None)
                now (Page.session p)) as [new [H F]].
    exists new. split; [exact H|].
    eapply Forall_impl; [|exact F]. exact finalTurn_shown.
Qed.

(** X22.  Only the Clear button removes turns.  Over any sequence of page
    events without it (session events, the pieces of a message with image
    calls, language changes, the menu), the history afterwards is the
    history before followed by new turns; the Clear button empties the
    history and both partial texts; and, with or without it, if every turn
    of the history was final with a text that is not empty, so is every
    turn afterwards. *)
Theorem page_history (API : option jsstring) (evs : list (Page.Event * Z))
    (p : Page.t) :
  (noClear evs ->
   exists new, history (Page.run API evs p) = history p ++ new) /\
  (forall now,
      let c := Page.session (Page.handle API Page.ClearClicked now p) in
      transcripts (ui c) = [] /\ currentInput (ui c) = [] /\
      currentOutput (ui c) = []) /\
  (Forall shownTurn (history p) ->
   Forall shownTurn (history (Page.run API evs p))).
Proof.
  split; [|split].
  - revert p. induction evs as [|[e now] evs IH]; intros p Hn; cbn [Page.run].
    + exists []. now rewrite app_nil_r.
    + inversion Hn as [|x l Hx Hl]; subst. cbn [fst] in Hx.
      destruct (page_handle_history API e now p Hx) as [new1 [H1 _]].
      destruct (IH (Page.handle API e now p) Hl) as [new2 H2].
      exists (new1 ++ new2). now rewrite H2, H1, app_assoc.
  - intros now. cbv zeta. repeat split.
  - revert p. induction evs as [|[e now] evs IH]; intros p Hp; cbn [Page.run].
    + exact Hp.
    + apply IH.
      assert (Hd : e = Page.ClearClicked \/ e <> Page.ClearClicked).
      { destruct e; try (right; discriminate). now left. }
      destruct Hd as [->|Hx].
      * unfold history. cbn [Page.handle Page.session]. constructor.
      * destruct (page_handle_history API e now p Hx) as [new [H F]].
        rewrite H. apply Forall_app. split; assumption.
Qed.

Lemma page_history_witness :
  let evs :=
    [(Page.Session (Received (mkMessage (Some (str "draw a cat")) None false false None) 0), 1);
     (Page.ImageRequested (str "cat"), 2);
     (Page.LanguageChosen (str "ja"), 3);
     (Page.ImageAnswered (str "cat")
        (Tools.Responded [Tools.InlinePart (Some (str "AAAA"))]), 4);
     (Page.MessageResumed (mkMessage None None true false None), 5)] in
  noClear evs /\
  exists new,
    history (Page.run (Some (str "k")) evs Page.initial) = new /\
    length new = 3%nat.
Proof.
  intros evs.
  assert (Hn : noClear evs) by (repeat constructor; discriminate).
  split; [exact Hn|].
  destruct (page_history (Some (str "k")) evs Page.initial) as [H _].
  destruct (H Hn) as [new E].
  exists new. split; [exact E|].
  change (length (history Page.initial ++ new) = 3%nat).
  rewrite <- E. vm_compute. reflexivity.
Defined.
